(** * clip-diff: the patch engine of [src/extension.ts]

    A shallow embedding of the unified-diff engine (line-ending
    normalisation, hunk parsing, window search, removal verification, hunk
    application and the fold over hunks), followed by the properties the
    specification states about it. *)

From Stdlib Require Import Ascii String.
From Stdlib Require Import List ZArith NArith Arith Lia Bool.
Import ListNotations.
Open Scope string_scope.
Open Scope list_scope.

(* ====================================================================== *)
(** * Strings and arrays as JavaScript has them *)
(* ====================================================================== *)

(** A JavaScript string is a sequence of UTF-16 code units. *)
Definition char := N.
Definition jsstring := list char.

(** String literals of the source, written as Rocq strings. *)
Definition str (s : String.string) : jsstring :=
  map N_of_ascii (String.list_ascii_of_string s).

Definition NL : char := 10%N.   (* "\n" *)
Definition CR : char := 13%N.   (* "\r" *)

(** [a === b] on two strings. *)
Fixpoint strictEq (a b : jsstring) : bool :=
  match a, b with
  | [], [] => true
  | x :: a', y :: b' => (x =? y)%N && strictEq a' b'
  | _, _ => false
  end.

(** [x === val] where [x] is an array element that may be [undefined]
    (an index outside the array) and [val] is a string. *)
Definition elemEq (x : option jsstring) (val : jsstring) : bool :=
  match x with
  | Some l => strictEq l val
  | None => false
  end.

(** [x === y] on two array elements, each possibly [undefined]. *)
Definition elemEq2 (x y : option jsstring) : bool :=
  match x, y with
  | Some a, Some b => strictEq a b
  | None, None => true
  | _, _ => false
  end.

(** [arr.slice(from, to)] and [arr.slice(from)] for non-negative indices:
    both ends are clamped to the length of the array. *)
Definition slice {A} (arr : list A) (from to : nat) : list A :=
  firstn (to - from) (skipn from arr).

Definition sliceFrom {A} (arr : list A) (from : nat) : list A :=
  skipn from arr.

(** [s.split("\n")]: never empty, the empty string gives one empty line. *)
Fixpoint splitLines (s : jsstring) : list jsstring :=
  match s with
  | [] => [[]]
  | c :: t =>
      if (c =? NL)%N then [] :: splitLines t
      else match splitLines t with
           | l :: ls => (c :: l) :: ls
           | [] => [[c]]
           end
  end.

(** [arr.join("\n")]. *)
Fixpoint joinLines (arr : list jsstring) : jsstring :=
  match arr with
  | [] => []
  | [l] => l
  | l :: rest => l ++ NL :: joinLines rest
  end.

(* ====================================================================== *)
(** * Line normaliser *)
(* ====================================================================== *)

(** [vscode.EndOfLine]. *)
Inductive EndOfLine := LF | CRLF.

(** [s.replace(/\r\n/g, "\n")]: one left-to-right pass over
    non-overlapping occurrences. *)
Fixpoint normalizeEOL (s : jsstring) : jsstring :=
  match s with
  | [] => []
  | c :: t =>
      match t with
      | d :: t' =>
          if ((c =? CR) && (d =? NL))%N then NL :: normalizeEOL t'
          else c :: normalizeEOL t
      | [] => [c]
      end
  end.

(** [s.replace(/\n/g, "\r\n")]. *)
Fixpoint crlfOfLf (s : jsstring) : jsstring :=
  match s with
  | [] => []
  | c :: t => if (c =? NL)%N then CR :: NL :: crlfOfLf t else c :: crlfOfLf t
  end.

Definition restoreEOL (s : jsstring) (eol : EndOfLine) : jsstring :=
  match eol with
  | CRLF => crlfOfLf s
  | LF => s
  end.

(* ====================================================================== *)
(** * Hunks, old block and new block *)
(* ====================================================================== *)

Record Hunk := mkHunk {
  header : jsstring;
  body : list jsstring;
  oldStart : N;
  oldCount : option N;
  newStart : N;
  newCount : option N
}.

Definition SPACE : char := 32%N.  (* " " *)
Definition MINUS : char := 45%N.  (* "-" *)
Definition PLUS : char := 43%N.   (* "+" *)

(** One iteration of the block-building loop of [applySingleHunk]: the two
    arrays [oldBlock] and [newBlock] after the pushes made for [line]. *)
Definition pushLine (blocks : list jsstring * list jsstring) (line : jsstring)
  : list jsstring * list jsstring :=
  let (oldBlock, newBlock) := blocks in
  match line with
  | [] => (oldBlock, newBlock)                       (* continue *)
  | tag :: val =>
      let oldBlock' :=
        if ((tag =? SPACE) || (tag =? MINUS))%N then oldBlock ++ [val]
        else oldBlock in
      let newBlock' :=
        if ((tag =? SPACE) || (tag =? PLUS))%N then newBlock ++ [val]
        else newBlock in
      (oldBlock', newBlock')
  end.

Definition buildBlocks (body : list jsstring) : list jsstring * list jsstring :=
  fold_left pushLine body ([], []).

(* ====================================================================== *)
(** * Sequence matcher *)
(* ====================================================================== *)

(** [scoreSequence]: the loop over [i < n] counting equal positions. *)
Definition scoreSequence (window target : list jsstring) : nat :=
  let n := Nat.min (length window) (length target) in
  fold_left
    (fun score i =>
       if elemEq2 (nth_error window i) (nth_error target i) then S score
       else score)
    (seq 0 n) 0.

(** The window search of [applySingleHunk]. Line indices are array
    positions: the cursor starts at 0 and only grows by lengths, so the
    loop variable [i] is a natural number; [bestIdx] and [bestScore] start
    at -1 and are integers. [remaining] is the number of iterations the
    [for] loop still has to run; the result is the pair
    [(bestIdx, bestScore)] when the loop is left, by exhaustion or by
    [break]. *)
Fixpoint searchLoop (contentLines oldBlock : list jsstring)
    (remaining i : nat) (bestIdx bestScore : Z) : Z * Z :=
  match remaining with
  | O => (bestIdx, bestScore)
  | S remaining' =>
      let window := slice contentLines i (i + length oldBlock) in
      let score := scoreSequence window oldBlock in
      if (bestScore <? Z.of_nat score)%Z then
        if (score =? length oldBlock)%nat then (Z.of_nat i, Z.of_nat score) (* break *)
        else searchLoop contentLines oldBlock remaining' (S i)
               (Z.of_nat i) (Z.of_nat score)
      else searchLoop contentLines oldBlock remaining' (S i) bestIdx bestScore
  end.

(** The loop [for (let i = startLine; i <= contentLines.length; i++)] run
    from [bestIdx = -1], [bestScore = -1]. *)
Definition searchWindow (contentLines oldBlock : list jsstring)
    (startLine : nat) : Z * Z :=
  searchLoop contentLines oldBlock
    (S (length contentLines) - startLine) startLine (-1)%Z (-1)%Z.

(** The matcher as the applier uses it: [None] is the [bestIdx < 0] exit. *)
Definition findBestWindow (contentLines oldBlock : list jsstring)
    (startLine : nat) : option nat :=
  let bestIdx := fst (searchWindow contentLines oldBlock startLine) in
  if (bestIdx <? 0)%Z then None else Some (Z.to_nat bestIdx).

(* ====================================================================== *)
(** * Removal verifier *)
(* ====================================================================== *)

Fixpoint verifyRemovals (contentLines : list jsstring) (idx : nat)
    (body : list jsstring) : bool :=
  match body with
  | [] => true
  | line :: rest =>
      match line with
      | [] => verifyRemovals contentLines idx rest          (* continue *)
      | tag :: val =>
          if ((tag =? SPACE) || (tag =? MINUS))%N then
            if negb (elemEq (nth_error contentLines idx) val) then false
            else verifyRemovals contentLines (S idx) rest
          else verifyRemovals contentLines idx rest
      end
  end.

(* ====================================================================== *)
(** * Hunk applier *)
(* ====================================================================== *)

Record Applied := mkApplied {
  content : jsstring;
  lastAppliedLine : nat
}.

(** [applySingleHunk]; [None] is the source's [null]. *)
Definition applySingleHunk (content : jsstring) (hunk : Hunk)
    (startLine : nat) : option Applied :=
  let contentLines := splitLines content in
  let (oldBlock, newBlock) := buildBlocks (body hunk) in
  match findBestWindow contentLines oldBlock startLine with
  | None => None
  | Some bestIdx =>
      if negb (verifyRemovals contentLines bestIdx (body hunk)) then None
      else
        let before := slice contentLines 0 bestIdx in
        let after := sliceFrom contentLines (bestIdx + length oldBlock) in
        let merged := joinLines (before ++ newBlock ++ after) in
        Some (mkApplied merged (bestIdx + length newBlock))
  end.

(* ====================================================================== *)
(** * Regular expressions of the source *)
(* ====================================================================== *)

(** The regular expressions of [extension.ts] use literals, character
    classes, sequence, [?] and [+]; none has a back-reference or a
    look-around, so whether a match exists is a question about the regular
    language. The anchor [^] is handled where the match is started. *)
Module Regex.

Inductive t : Type :=
| Never                       (* matches no string *)
| Eps                         (* the empty string *)
| Class (p : char -> bool)    (* one code unit of a class *)
| Seq (r s : t)
| Or (r s : t)
| Many (r : t).               (* r* *)

Definition lit (c : char) : t := Class (N.eqb c).

Fixpoint word (w : jsstring) : t :=
  match w with
  | [] => Eps
  | c :: w' => Seq (lit c) (word w')
  end.

Definition plus (r : t) : t := Seq r (Many r).   (* r+ *)
Definition opt (r : t) : t := Or r Eps.          (* r? *)

Inductive Matches : t -> jsstring -> Prop :=
| MEps : Matches Eps []
| MClass : forall p c, p c = true -> Matches (Class p) [c]
| MSeq : forall r s u v, Matches r u -> Matches s v -> Matches (Seq r s) (u ++ v)
| MOrL : forall r s u, Matches r u -> Matches (Or r s) u
| MOrR : forall r s u, Matches s u -> Matches (Or r s) u
| MManyNil : forall r, Matches (Many r) []
| MManyApp : forall r u v,
    Matches r u -> Matches (Many r) v -> Matches (Many r) (u ++ v).

Fixpoint nullable (r : t) : bool :=
  match r with
  | Never => false
  | Eps => true
  | Class _ => false
  | Seq r s => nullable r && nullable s
  | Or r s => nullable r || nullable s
  | Many _ => true
  end.

(** The residual of [r] after reading the code unit [c]. *)
Fixpoint after (c : char) (r : t) : t :=
  match r with
  | Never => Never
  | Eps => Never
  | Class p => if p c then Eps else Never
  | Seq r s =>
      if nullable r then Or (Seq (after c r) s) (after c s)
      else Seq (after c r) s
  | Or r s => Or (after c r) (after c s)
  | Many r => Seq (after c r) (Many r)
  end.

Fixpoint accepts (r : t) (s : jsstring) : bool :=
  match s with
  | [] => nullable r
  | c :: s' => accepts (after c r) s'
  end.

Definition anything : t := Many (Class (fun _ => true)).

(** Some prefix of [s] matches [r]: a match attempt at one position. *)
Definition matchesHere (r : t) (s : jsstring) : bool :=
  accepts (Seq r anything) s.

End Regex.

(** [LineTerminator] of ECMAScript: LF, CR, LS, PS. *)
Definition isLineTerminator (c : char) : bool :=
  ((c =? 10) || (c =? 13) || (c =? 8232) || (c =? 8233))%N.

(** [\s]: WhiteSpace and LineTerminator code units. *)
Definition isWhiteSpace (c : char) : bool :=
  ((c =? 9) || (c =? 11) || (c =? 12) || (c =? 32) || (c =? 160)
   || (c =? 5760) || ((8192 <=? c) && (c <=? 8202)) || (c =? 8239)
   || (c =? 8287) || (c =? 12288) || (c =? 65279))%N
  || isLineTerminator c.

(** [\d] and [.] (without the [s] flag). *)
Definition isDigit (c : char) : bool := ((48 <=? c) && (c <=? 57))%N.
Definition isDot (c : char) : bool := negb (isLineTerminator c).

(** [/^r/.test(s)]: without the [m] flag [^] holds at index 0 only. *)
Definition testAtStart (r : Regex.t) (s : jsstring) : bool :=
  Regex.matchesHere r s.

(** [/^r/m.test(s)]: with the [m] flag [^] holds at index 0 and after each
    line terminator. [lineStart] tells whether [^] holds where [s] starts. *)
Fixpoint testAtLineStarts (r : Regex.t) (lineStart : bool) (s : jsstring)
  : bool :=
  (lineStart && Regex.matchesHere r s)
  || match s with
     | [] => false
     | c :: t => testAtLineStarts r (isLineTerminator c) t
     end.

(* ====================================================================== *)
(** * Detection heuristic *)
(* ====================================================================== *)

(** [@@\s-] *)
Definition reHunkStart : Regex.t :=
  Regex.Seq (Regex.word (str "@@"))
    (Regex.Seq (Regex.Class isWhiteSpace) (Regex.lit MINUS)).

(** [---\s.+\n\+\+\+\s.+] *)
Definition reFileHeaders : Regex.t :=
  Regex.Seq (Regex.word (str "---"))
    (Regex.Seq (Regex.Class isWhiteSpace)
       (Regex.Seq (Regex.plus (Regex.Class isDot))
          (Regex.Seq (Regex.lit NL)
             (Regex.Seq (Regex.word (str "+++"))
                (Regex.Seq (Regex.Class isWhiteSpace)
                   (Regex.plus (Regex.Class isDot))))))).

Definition isLikelyUnifiedDiff (s : jsstring) : bool :=
  match s with
  | [] => false                                       (* if (!s) *)
  | _ => testAtStart reHunkStart s || testAtLineStarts reFileHeaders true s
  end.

(* ====================================================================== *)
(** * Hunk parser *)
(* ====================================================================== *)

(** A call that either returns or throws [new Error(message)]. *)
Inductive result (A : Type) : Type :=
| Ok (value : A)
| Throw (message : jsstring).
Arguments Ok {A} value.
Arguments Throw {A} message.

Definition AT : char := 64%N.     (* "@" *)
Definition COMMA : char := 44%N.  (* "," *)

(** Put [c] in front of the first piece of a split. *)
Definition consFirst (c : char) (pieces : list jsstring) : list jsstring :=
  match pieces with
  | l :: ls => (c :: l) :: ls
  | [] => [[c]]
  end.

(** [s.split(/^@@/gm)]: the pieces between the occurrences of [@@] at a
    line start. [lineStart] tells whether [^] holds where [s] starts; it
    does not hold just behind a marker, whose last code unit is [@]. *)
Fixpoint splitAtMarkers (lineStart : bool) (s : jsstring) : list jsstring :=
  match s with
  | [] => [[]]
  | c :: t =>
      match t with
      | d :: t' =>
          if (lineStart && (c =? AT) && (d =? AT))%N
          then [] :: splitAtMarkers false t'
          else consFirst c (splitAtMarkers (isLineTerminator c) t)
      | [] => [[c]]
      end
  end.

(** [/^@@ -(\d+)(?:,(\d+))? \+(\d+)(?:,(\d+))? @@/]: its parts, then the
    whole. [(?:,(\d+))?] *)
Definition reCount : Regex.t :=
  Regex.opt (Regex.Seq (Regex.lit COMMA) (Regex.plus (Regex.Class isDigit))).

(** [(\d+)(?:,(\d+))?] *)
Definition reRange : Regex.t :=
  Regex.Seq (Regex.plus (Regex.Class isDigit)) reCount.

Definition reHeader : Regex.t :=
  Regex.Seq (Regex.word (str "@@ -"))
    (Regex.Seq reRange
       (Regex.Seq (Regex.word (str " +"))
          (Regex.Seq reRange (Regex.word (str " @@"))))).

(** The match of [reHeader] with its four groups, read off left to right:
    each [\d+] takes the longest run of digits, and a [,] group takes part
    only when digits follow the comma. *)
Fixpoint expect (lit s : jsstring) : option jsstring :=
  match lit with
  | [] => Some s
  | c :: lit' =>
      match s with
      | d :: s' => if (c =? d)%N then expect lit' s' else None
      | [] => None
      end
  end.

Fixpoint digitRun (s : jsstring) : jsstring * jsstring :=
  match s with
  | c :: s' =>
      if isDigit c then let (ds, rest) := digitRun s' in (c :: ds, rest)
      else ([], s)
  | [] => ([], [])
  end.

Definition digits1 (s : jsstring) : option (jsstring * jsstring) :=
  match digitRun s with
  | ([], _) => None
  | (ds, rest) => Some (ds, rest)
  end.

Definition countGroup (s : jsstring) : option jsstring * jsstring :=
  match s with
  | c :: s' =>
      if (c =? COMMA)%N then
        match digits1 s' with
        | Some (ds, rest) => (Some ds, rest)
        | None => (None, s)
        end
      else (None, s)
  | [] => (None, s)
  end.

(** [(\d+)(?:,(\d+))?] at the start of [s]: the two groups and the rest. *)
Definition rangeGroups (s : jsstring)
  : option (jsstring * option jsstring * jsstring) :=
  match digits1 s with
  | None => None
  | Some (start, s') =>
      let (count, rest) := countGroup s' in Some (start, count, rest)
  end.

Definition matchHeader (header : jsstring)
  : option (jsstring * option jsstring * jsstring * option jsstring) :=
  match expect (str "@@ -") header with
  | None => None
  | Some s1 =>
      match rangeGroups s1 with
      | None => None
      | Some (m1, m2, s2) =>
          match expect (str " +") s2 with
          | None => None
          | Some s3 =>
              match rangeGroups s3 with
              | None => None
              | Some (m3, m4, s4) =>
                  match expect (str " @@") s4 with
                  | None => None
                  | Some _ => Some (m1, m2, m3, m4)
                  end
              end
          end
      end
  end.

(** [Number(digits)] on a run of decimal digits (exact below 2^53; the
    engine never reads the four numeric fields). *)
Definition Number (ds : jsstring) : N :=
  fold_left (fun n d => (10 * n + (d - 48))%N) ds 0%N.

(** The error messages of the two [throw] statements. *)
Definition invalidHunkHeader (header : jsstring) : jsstring :=
  str "Invalid hunk header: " ++ header.

Definition couldNotApplyHunk (header : jsstring) : jsstring :=
  str "Could not apply hunk:" ++ NL :: header.

(** The body of the loop of [parseHunks] for one raw block. *)
Definition parseHunk (raw : jsstring) : result Hunk :=
  let lines := splitLines raw in
  let header := match nth_error lines 0 with
                | Some h => h
                | None => []                           (* ?? "" *)
                end in
  match matchHeader header with
  | None => Throw (invalidHunkHeader header)
  | Some (m1, m2, m3, m4) =>
      Ok (mkHunk header (sliceFrom lines 1)
            (Number m1) (option_map Number m2)
            (Number m3) (option_map Number m4))
  end.

Fixpoint parseParts (parts : list jsstring) (hunks : list Hunk)
  : result (list Hunk) :=
  match parts with
  | [] => Ok hunks
  | raw :: rest =>
      match parseHunk raw with
      | Throw message => Throw message
      | Ok hunk => parseParts rest (hunks ++ [hunk])
      end
  end.

(** [diffText.split(/^@@/gm).slice(1).map(h => `@@${h}`)] *)
Definition hunkParts (diffText : jsstring) : list jsstring :=
  map (fun h => str "@@" ++ h) (sliceFrom (splitAtMarkers true diffText) 1).

Definition parseHunks (diffText : jsstring) : result (list Hunk) :=
  parseParts (hunkParts diffText) [].

(* ====================================================================== *)
(** * Patch orchestrator *)
(* ====================================================================== *)

(** The [for (const hunk of hunks)] loop of [applyDiffPatch], from the
    working text [doc] and the cursor [cursor] ([content] and
    [lastAppliedLine] in the source). *)
Fixpoint applyHunks (hunks : list Hunk) (doc : jsstring) (cursor : nat)
  : result (jsstring * nat) :=
  match hunks with
  | [] => Ok (doc, cursor)
  | hunk :: rest =>
      match applySingleHunk doc hunk cursor with
      | None => Throw (couldNotApplyHunk (header hunk))
      | Some res => applyHunks rest (content res) (lastAppliedLine res)
      end
  end.

Definition applyDiffPatch (documentContent rawDiff : jsstring)
    (eol : EndOfLine) : result jsstring :=
  let docLF := normalizeEOL documentContent in
  let diff := normalizeEOL rawDiff in
  match parseHunks diff with
  | Throw message => Throw message
  | Ok hunks =>
      if (length hunks =? 0)%nat then Ok (restoreEOL docLF eol)
      else
        match applyHunks hunks docLF 0 with
        | Throw message => Throw message
        | Ok (doc, _) => Ok (restoreEOL doc eol)
        end
  end.

(* ====================================================================== *)
(** * Header paths *)
(* ====================================================================== *)

Definition TAB : char := 9%N.      (* "\t" *)
Definition SLASH : char := 47%N.   (* "/" *)

(** The class of the first replacement: the double quote (34) and the
    single quote (39). *)
Definition isQuote (c : char) : bool := ((c =? 34) || (c =? 39))%N.

(** [[ab]] *)
Definition isAB (c : char) : bool := ((c =? 97) || (c =? 98))%N.

(** The first replacement, [p.replace(/^Q|Q$/g, empty)] with [Q] the quote
    class: without the [m] flag [^] holds at index 0 and [$] at the end of
    the string only, so the matches are a quote at index 0 and a quote at
    the last index, each replaced by nothing. *)
Definition dropFirstQuote (p : jsstring) : jsstring :=
  match p with
  | c :: rest => if isQuote c then rest else p
  | [] => []
  end.

Fixpoint dropLastQuote (p : jsstring) : jsstring :=
  match p with
  | [] => []
  | c :: rest =>
      match rest with
      | [] => if isQuote c then [] else [c]
      | _ :: _ => c :: dropLastQuote rest
      end
  end.

Definition stripQuotes (p : jsstring) : jsstring :=
  dropLastQuote (dropFirstQuote p).

(** The second replacement, [t.replace(/^[ab]\//, empty)]. *)
Definition dropABPrefix (t : jsstring) : jsstring :=
  match t with
  | c :: d :: rest => if (isAB c && (d =? SLASH)%N) then rest else t
  | _ => t
  end.

(** [t.split(/\t/)[0]]: what precedes the first tab. *)
Fixpoint beforeTab (t : jsstring) : jsstring :=
  match t with
  | [] => []
  | c :: rest => if (c =? TAB)%N then [] else c :: beforeTab rest
  end.

(** [t.split(/\s{2,}/)[0]]: what precedes the first two adjacent
    white-space code units. *)
Fixpoint beforeWideGap (t : jsstring) : jsstring :=
  match t with
  | [] => []
  | c :: rest =>
      match rest with
      | d :: _ =>
          if isWhiteSpace c && isWhiteSpace d then []
          else c :: beforeWideGap rest
      | [] => [c]
      end
  end.

Definition stripHeaderPath (p : jsstring) : jsstring :=
  let t := stripQuotes p in
  let t := dropABPrefix t in
  beforeWideGap (beforeTab t).

(* ====================================================================== *)
(** * Regular expressions with groups: the backtracking matcher *)
(* ====================================================================== *)

(** [stripCodeFence] and [getDiffTargetPath] read a group of their match,
    so which match the engine finds matters: the first one in the order a
    backtracking matcher tries them (alternatives left to right, a greedy
    quantifier longest first, a lazy one shortest first), at the leftmost
    index where there is one. *)
Module Pattern.

Inductive t : Type :=
| Empty
| Chr (p : char -> bool)            (* one code unit of a class *)
| Seq (a b : t)
| Alt (a b : t)
| Star (greedy : bool) (a : t)      (* a* when greedy, a*? otherwise *)
| Group (n : nat) (a : t)           (* the n-th capturing group *)
| Bol                               (* ^ under the m flag *)
| Eol.                              (* $ under the m flag *)

Definition lit (c : char) : t := Chr (N.eqb c).

Fixpoint word (w : jsstring) : t :=
  match w with
  | [] => Empty
  | c :: w' => Seq (lit c) (word w')
  end.

Definition plus (a : t) : t := Seq a (Star true a).   (* a+ *)
Definition opt (a : t) : t := Alt a Empty.            (* a? *)

(** Where the matcher stands: the code unit in front of the position, the
    text from the position on, and the groups closed so far. *)
Record state : Type := mkState {
  prev : option char;
  rest : jsstring;
  caps : list (nat * jsstring)
}.

Definition orElse (x y : option state) : option state :=
  match x with
  | Some v => Some v
  | None => y
  end.

(** The loop of a quantifier [a*]: [more] is one more [a], which must
    consume something, followed by the loop; [k st] is leaving the loop.
    [fuel] bounds the number of iterations by the length of the text. *)
Fixpoint starLoop (body : state -> (state -> option state) -> option state)
    (greedy : bool) (k : state -> option state) (fuel : nat) (st : state)
  : option state :=
  match fuel with
  | O => k st
  | S fuel' =>
      let more :=
        body st (fun st' =>
                   if (length (rest st') <? length (rest st))%nat
                   then starLoop body greedy k fuel' st'
                   else None) in
      if greedy then orElse more (k st) else orElse (k st) more
  end.

(** [run r st k]: match [r] at [st] and go on with [k]; the first success
    in backtracking order. *)
Fixpoint run (r : t) (st : state) (k : state -> option state)
  : option state :=
  match r with
  | Empty => k st
  | Chr p =>
      match rest st with
      | c :: s => if p c then k (mkState (Some c) s (caps st)) else None
      | [] => None
      end
  | Seq a b => run a st (fun st' => run b st' k)
  | Alt a b => orElse (run a st k) (run b st k)
  | Star greedy a => starLoop (run a) greedy k (length (rest st)) st
  | Group n a =>
      run a st (fun st' =>
        k (mkState (prev st') (rest st')
             ((n, firstn (length (rest st) - length (rest st')) (rest st))
              :: caps st')))
  | Bol =>
      match prev st with
      | None => k st
      | Some c => if isLineTerminator c then k st else None
      end
  | Eol =>
      match rest st with
      | [] => k st
      | c :: _ => if isLineTerminator c then k st else None
      end
  end.

(** [s.match(r)] for a regular expression without the [g] flag: the match
    at the leftmost index that has one. [before] is the code unit in front
    of [s]. *)
Fixpoint search (r : t) (before : option char) (s : jsstring)
  : option state :=
  match run r (mkState before s []) Some with
  | Some st => Some st
  | None =>
      match s with
      | [] => None
      | c :: s' => search r (Some c) s'
      end
  end.

(** [m[n]] of a match: the text of the group, [undefined] when the group
    took no part. *)
Fixpoint group (n : nat) (groups : list (nat * jsstring)) : option jsstring :=
  match groups with
  | [] => None
  | (i, text) :: others => if (i =? n)%nat then Some text else group n others
  end.

End Pattern.

Definition BACKTICK : char := 96%N.   (* "`" *)

(** [s.trim()]: white space and line terminators off both ends. *)
Fixpoint trimStart (s : jsstring) : jsstring :=
  match s with
  | c :: s' => if isWhiteSpace c then trimStart s' else s
  | [] => []
  end.

Definition trimEnd (s : jsstring) : jsstring := rev (trimStart (rev s)).

Definition trim (s : jsstring) : jsstring := trimEnd (trimStart s).

(** The pattern of [stripCodeFence], under the [m] flag: a line starting
    with three backticks, an optional [diff], [\s*], the lazy group
    [([\s\S]*?)], [\s*], three backticks and the end of a line. *)
Definition reFence : Pattern.t :=
  Pattern.Seq Pattern.Bol
    (Pattern.Seq (Pattern.word [BACKTICK; BACKTICK; BACKTICK])
       (Pattern.Seq (Pattern.opt (Pattern.word (str "diff")))
          (Pattern.Seq (Pattern.Star true (Pattern.Chr isWhiteSpace))
             (Pattern.Seq
                (Pattern.Group 1 (Pattern.Star false (Pattern.Chr (fun _ => true))))
                (Pattern.Seq (Pattern.Star true (Pattern.Chr isWhiteSpace))
                   (Pattern.Seq (Pattern.word [BACKTICK; BACKTICK; BACKTICK])
                      Pattern.Eol)))))).

Definition stripCodeFence (s : jsstring) : jsstring :=
  match s with
  | [] => []                                          (* if (!s) return s *)
  | _ =>
      let fence := Pattern.search reFence None s in
      let inner :=
        match fence with
        | Some m =>
            match Pattern.group 1 (Pattern.caps m) with
            | Some text => text                       (* fence[1] *)
            | None => []      (* no match leaves the group out: reFence_group *)
            end
        | None => s
        end in
      normalizeEOL (trim inner)
  end.

(** [/^---\s+(.+)\n\+\+\+\s+(.+)$/m] *)
Definition reTargetPath : Pattern.t :=
  Pattern.Seq Pattern.Bol
    (Pattern.Seq (Pattern.word (str "---"))
       (Pattern.Seq (Pattern.plus (Pattern.Chr isWhiteSpace))
          (Pattern.Seq (Pattern.Group 1 (Pattern.plus (Pattern.Chr isDot)))
             (Pattern.Seq (Pattern.lit NL)
                (Pattern.Seq (Pattern.word (str "+++"))
                   (Pattern.Seq (Pattern.plus (Pattern.Chr isWhiteSpace))
                      (Pattern.Seq
                         (Pattern.Group 2 (Pattern.plus (Pattern.Chr isDot)))
                         Pattern.Eol))))))).

(** [getDiffTargetPath]; [None] is [undefined]. Every match sets the
    second group (lemma [reTargetPath_group]), so that [m[2].trim()] has a
    string to work on and the last branch is never taken. *)
Definition getDiffTargetPath (s : jsstring) : option jsstring :=
  match Pattern.search reTargetPath None s with
  | None => None
  | Some m =>
      match Pattern.group 2 (Pattern.caps m) with
      | Some text => Some (stripHeaderPath (trim text))
      | None => Some (stripHeaderPath [])
      end
  end.

(* ====================================================================== *)
(** * The command *)
(* ====================================================================== *)

(** What the command reads from the editor and what it does to it. The
    callback registered by [activate] is asynchronous: it reads the active
    editor and the clipboard, may ask the user in a modal dialogue, and
    ends with messages and at most one edit. Each read is answered once in
    a run, so that a run is a function from the answers to the calls made,
    in their order. *)
Module Vscode.

(** [editor.document]: [uri.fsPath], [getText()] and [eol]. *)
Record TextDocument : Type := mkTextDocument {
  fsPath : jsstring;
  getText : jsstring;
  eol : EndOfLine
}.

(** The answers of one run: [vscode.window.activeTextEditor], what
    [vscode.env.clipboard.readText()] resolves to, what
    [showWarningMessage] resolves to ([None] is [undefined], the dialogue
    dismissed) and what [vscode.workspace.applyEdit] resolves to. *)
Record Answers : Type := mkAnswers {
  activeTextEditor : option TextDocument;
  readText : jsstring;
  choice : option jsstring;
  applied : bool
}.

(** The calls with an effect. [applyEdit first last newText] is the
    [WorkspaceEdit] that replaces the range from offset [first] to offset
    [last] of the document by [newText]. *)
Inductive Call : Type :=
| showInformationMessage (message : jsstring)
| showWarningMessage (message : jsstring) (items : list jsstring)
| showErrorMessage (message : jsstring)
| applyEdit (first last : nat) (newText : jsstring)
| consoleLog (message : jsstring)
| consoleError (label message : jsstring).

End Vscode.

Definition CMD_APPLY_FROM_CLIPBOARD : jsstring :=
  str "clip-diff.applyDiffPatchFromClipboard".

Definition QUOTE : char := 34%N.
Definition BACKSLASH : char := 92%N.

(** [s.replace(/\\/g, "/")] *)
Definition toSlashes (s : jsstring) : jsstring :=
  map (fun c => if (c =? BACKSLASH)%N then SLASH else c) s.

(** [s.replace(/^w/, "")] for a literal [w]. *)
Definition dropWord (w s : jsstring) : jsstring :=
  match expect w s with
  | Some r => r
  | None => s
  end.

(** [s.endsWith(t)] *)
Definition endsWith (s t : jsstring) : bool :=
  (length t <=? length s)%nat
  && strictEq (skipn (length s - length t) s) t.

(** The question of the modal dialogue. *)
Definition mismatchWarning (headerPath fsPath : jsstring) : jsstring :=
  str "Diff targets " ++ QUOTE :: headerPath
  ++ QUOTE :: str " but the active file is " ++ QUOTE :: fsPath
  ++ QUOTE :: str ". Apply anyway?".

(** [(err && err.message) ? err.message : String(err)] for a thrown
    [Error]: an empty message is falsy, and [String] of such an error is
    its name. *)
Definition errorText (message : jsstring) : jsstring :=
  match message with
  | [] => str "Error"
  | _ => message
  end.

(** The callback from the dry run on: [applyDiffPatch] in memory, one
    edit of the whole document when the text changes, and the [catch]
    clause for what [applyDiffPatch] throws. *)
Definition dryRunAndEdit (answers : Vscode.Answers)
    (doc : Vscode.TextDocument) (stripped : jsstring) : list Vscode.Call :=
  let original := Vscode.getText doc in
  match applyDiffPatch original stripped (Vscode.eol doc) with
  | Throw message =>
      [Vscode.consoleError (str "[clip-diff] Error:") message;
       Vscode.showErrorMessage
         (str "Failed to apply diff patch from the clipboard: "
          ++ errorText message)]
  | Ok patched =>
      if strictEq patched original
      then [Vscode.showInformationMessage
              (str "No changes applied (already up to date).")]
      else
        [Vscode.applyEdit 0 (length original) patched;
         if Vscode.applied answers
         then Vscode.showInformationMessage
                (str "Diff patch applied successfully from the clipboard.")
         else Vscode.showErrorMessage (str "Failed to apply edit.")]
  end.

(** The callback of the command. *)
Definition applyDiffPatchFromClipboard (answers : Vscode.Answers)
  : list Vscode.Call :=
  match Vscode.activeTextEditor answers with
  | None => [Vscode.showInformationMessage (str "No active editor found.")]
  | Some editor =>
      let rawClipboard := Vscode.readText answers in
      let stripped := stripCodeFence rawClipboard in
      if negb (isLikelyUnifiedDiff stripped)
      then [Vscode.showInformationMessage
              (str "The clipboard does not contain a valid unified diff.")]
      else
        match getDiffTargetPath stripped with
        | Some (c :: p) =>                             (* if (headerPath) *)
            let headerPath := c :: p in
            let fsPath := toSlashes (Vscode.fsPath editor) in
            let matches :=
              endsWith fsPath
                (dropWord (str "b/") (dropWord (str "a/") headerPath)) in
            if matches then dryRunAndEdit answers editor stripped
            else
              Vscode.showWarningMessage (mismatchWarning headerPath fsPath)
                [str "Apply"; str "Cancel"]
              :: match Vscode.choice answers with
                 | Some picked =>
                     if strictEq picked (str "Apply")
                     then dryRunAndEdit answers editor stripped
                     else []
                 | None => []
                 end
        | _ => dryRunAndEdit answers editor stripped
        end
  end.

(** [activate]: what it logs and the commands it registers. *)
Definition activate
  : list Vscode.Call * list (jsstring * (Vscode.Answers -> list Vscode.Call)) :=
  ([Vscode.consoleLog (str "[clip-diff] Activated")],
   [(CMD_APPLY_FROM_CLIPBOARD, applyDiffPatchFromClipboard)]).

(* ====================================================================== *)
(** * Vocabulary of the specification *)
(* ====================================================================== *)

(** A body line is a context or deletion line ([isOld]), a context or
    addition line ([isNew]); [value] is the text behind the tag. *)
Definition isOld (line : jsstring) : bool :=
  match line with
  | tag :: _ => ((tag =? SPACE) || (tag =? MINUS))%N
  | [] => false
  end.

Definition isNew (line : jsstring) : bool :=
  match line with
  | tag :: _ => ((tag =? SPACE) || (tag =? PLUS))%N
  | [] => false
  end.

Definition value (line : jsstring) : jsstring := tl line.

(** Old block: the values of the context and deletion lines, in order;
    new block: those of the context and addition lines. *)
Definition oldLines (body : list jsstring) : list jsstring :=
  map value (filter isOld body).

Definition newLines (body : list jsstring) : list jsstring :=
  map value (filter isNew body).

(** The cursor of the removal verifier when it reaches position [p] of the
    body: it started at [start] and advanced once for each context or
    deletion line in front of [p]. *)
Definition cursorAt (start : nat) (body : list jsstring) (p : nat) : nat :=
  start + length (filter isOld (firstn p body)).

(** A line the engine gives no meaning to: empty, or tagged with something
    other than space, [-] and [+]. *)
Definition isIgnored (line : jsstring) : bool :=
  negb (isOld line) && negb (isNew line).

(** The score of the candidate [i]: the number of positions [j] below both
    the length of the window at [i] and the length of the old block at
    which the document line [i + j] is the old-block line [j]. *)
Definition windowLength (doc oldBlock : list jsstring) (i : nat) : nat :=
  Nat.min (length oldBlock) (length doc - i).

Definition windowScore (doc oldBlock : list jsstring) (i : nat) : nat :=
  length
    (filter (fun j => elemEq2 (nth_error doc (i + j)) (nth_error oldBlock j))
       (seq 0 (Nat.min (windowLength doc oldBlock i) (length oldBlock)))).

(** [m] is the lowest candidate of [lo .. hi - 1] with the greatest score. *)
Definition LeftmostBest (doc oldBlock : list jsstring) (lo hi m : nat) : Prop :=
  lo <= m < hi /\
  (forall i, lo <= i < hi -> windowScore doc oldBlock i <= windowScore doc oldBlock m) /\
  (forall i, lo <= i < m -> windowScore doc oldBlock i < windowScore doc oldBlock m).

(** What the search loop knows when it is about to try the candidate [i]:
    either no candidate was tried yet, or [bestIdx] is the leftmost best
    among those tried and [bestScore] its score. *)
Definition LoopInvariant (doc oldBlock : list jsstring) (lo i : nat)
    (bestIdx bestScore : Z) : Prop :=
  (i = lo /\ bestIdx = (-1)%Z /\ bestScore = (-1)%Z)
  \/ (exists m, bestIdx = Z.of_nat m
                /\ bestScore = Z.of_nat (windowScore doc oldBlock m)
                /\ LeftmostBest doc oldBlock lo i m).

(** The line sequence after a splice at [m]. *)
Definition splice (lines : list jsstring) (m : nat)
    (oldBlock newBlock : list jsstring) : list jsstring :=
  firstn m lines ++ newBlock ++ skipn (m + length oldBlock) lines.

Definition noNewline (line : jsstring) : Prop := ~ In NL line.

(** The hunks of [hunks] apply one after the other, in order, from the
    text [doc] and cursor [cursor], and leave [doc'] and [cursor']. *)
Inductive Applies : list Hunk -> jsstring -> nat -> jsstring -> nat -> Prop :=
| Applies_nil : forall doc cursor, Applies [] doc cursor doc cursor
| Applies_cons : forall hunk rest doc cursor res doc' cursor',
    applySingleHunk doc hunk cursor = Some res ->
    Applies rest (content res) (lastAppliedLine res) doc' cursor' ->
    Applies (hunk :: rest) doc cursor doc' cursor'.

(** The first line of a raw hunk block, its header. *)
Definition headerOf (raw : jsstring) : jsstring :=
  match nth_error (splitLines raw) 0 with
  | Some h => h
  | None => []
  end.

(** The header grammar: some prefix of the line is a word of [reHeader]. *)
Definition HeaderGrammar (line : jsstring) : Prop :=
  exists p q, line = p ++ q /\ Regex.Matches reHeader p.

(** The lines of a text whose line endings are mixed: a line ends at
    [\r\n] or at [\n]; a [\r] not followed by [\n] belongs to its line. *)
Fixpoint textLines (t : jsstring) : list jsstring :=
  match t with
  | [] => [[]]
  | c :: t' =>
      if (c =? NL)%N then [] :: textLines t'
      else
        match t' with
        | d :: t'' =>
            if ((c =? CR) && (d =? NL))%N then [] :: textLines t''
            else consFirst c (textLines t')
        | [] => [[c]]
        end
  end.

Definition terminator (eol : EndOfLine) : jsstring :=
  match eol with
  | LF => [NL]
  | CRLF => [CR; NL]
  end.

Fixpoint joinWith (sep : jsstring) (arr : list jsstring) : jsstring :=
  match arr with
  | [] => []
  | [l] => l
  | l :: rest => l ++ sep ++ joinWith sep rest
  end.

(** Every line ending of [s] has the form of [eol]: for [CRLF] each [\n]
    follows a [\r], for [LF] no [\n] follows a [\r]. [prev] is the code
    unit in front of [s], if any. *)
Fixpoint endingsFrom (eol : EndOfLine) (prev : option char) (s : jsstring)
  : bool :=
  match s with
  | [] => true
  | c :: t =>
      (if (c =? NL)%N then
         match eol, prev with
         | CRLF, Some p => (p =? CR)%N
         | CRLF, None => false
         | LF, Some p => negb (p =? CR)%N
         | LF, None => true
         end
       else true)
      && endingsFrom eol (Some c) t
  end.

Definition allEndingsIn (eol : EndOfLine) (s : jsstring) : bool :=
  endingsFrom eol None s.

(** [t] has a [\r] directly in front of a [\r\n]. *)
Fixpoint hasCrCrLf (t : jsstring) : bool :=
  match t with
  | a :: t' =>
      match t' with
      | b :: c :: _ => ((a =? CR) && (b =? CR) && (c =? NL))%N || hasCrCrLf t'
      | _ => false
      end
  | [] => false
  end.

(** The text has a match of [r] that starts at a line start: [pre] is what
    precedes the match, empty or ended by a line terminator. *)
Definition MatchAtLineStart (r : Regex.t) (s : jsstring) : Prop :=
  exists pre p q,
    s = pre ++ p ++ q /\ Regex.Matches r p /\
    (pre = [] \/ exists pre' c, pre = pre' ++ [c] /\ isLineTerminator c = true).

(** The hunk [hunk] with another body. *)
Definition withBody (hunk : Hunk) (b : list jsstring) : Hunk :=
  mkHunk (header hunk) b (oldStart hunk) (oldCount hunk)
    (newStart hunk) (newCount hunk).

(** Arrays of string literals, and a text given by its lines. *)
Definition strs (ls : list String.string) : list jsstring := map str ls.

Definition text (ls : list String.string) : jsstring := joinLines (strs ls).

(** A hunk with the body [b] under the header [h]. *)
Definition hunkOf (h : String.string) (b : list String.string) : Hunk :=
  mkHunk (str h) (strs b) 1 None 1 None.

(** The text starts with a line ending in its [\n] or [\r\n] form, so that
    its normal form starts with [\n]. *)
Definition startsWithEnding (t : jsstring) : bool :=
  match t with
  | c :: t' =>
      (c =? NL)%N
      || match t' with
         | d :: _ => ((c =? CR) && (d =? NL))%N
         | [] => false
         end
  | [] => false
  end.


(** A diff whose first hunk is preceded by a line of preamble and which
    has no [---]/[+++] file headers. *)
Definition diffAfterPreamble : jsstring :=
  text ["Index: a.txt"; "@@ -1 +1 @@"; "-a"; "+A"].

(** A diff whose second block has a header outside the grammar. *)
Definition diffWithGarbage : jsstring :=
  text ["@@ -1 +1 @@"; "-a"; "+A"; "@@ garbage @@"; " x";
        "@@ -3 +3 @@"; "-c"; "+C"].

(* ====================================================================== *)
(** * Further vocabulary *)
(* ====================================================================== *)

(** The old block stands verbatim in the lines at index [i]. *)
Definition Occurs (lines oldBlock : list jsstring) (i : nat) : Prop :=
  i <= length lines /\ slice lines i (i + length oldBlock) = oldBlock.

(** Every body line of every hunk is free of newlines, as the parser makes
    them. *)
Definition bodiesOnOneLine (hunks : list Hunk) : Prop :=
  Forall (fun h => Forall noNewline (body h)) hunks.

(** A hunk without net effect: its new block is its old block. *)
Definition keepsText (hunk : Hunk) : Prop :=
  newLines (body hunk) = oldLines (body hunk).

(** The text of a parsed hunk: its header and body lines joined again. *)
Definition blockText (hunk : Hunk) : jsstring :=
  joinLines (header hunk :: body hunk).

(** What precedes the first hunk marker of a diff. *)
Definition preamble (diffText : jsstring) : jsstring :=
  hd [] (splitAtMarkers true diffText).





(** Two adjacent white-space code units somewhere in the string. *)
Fixpoint hasWideGap (t : jsstring) : bool :=
  match t with
  | c :: rest =>
      match rest with
      | d :: _ => (isWhiteSpace c && isWhiteSpace d) || hasWideGap rest
      | [] => false
      end
  | [] => false
  end.

(** A bare path: no tab and no two adjacent white-space code units. *)
Definition barePath (path : jsstring) : Prop :=
  ~ In TAB path /\ hasWideGap path = false.

(** The path starts with [a/] or [b/]. *)
Definition startsWithAB (path : jsstring) : bool :=
  match path with
  | c :: d :: _ => isAB c && (d =? SLASH)%N
  | _ => false
  end.

(** The code unit in front of the position reached after reading [w] from
    a position that has [p] in front. *)
Fixpoint behind (p : option char) (w : jsstring) : option char :=
  match w with
  | [] => p
  | c :: w' => behind (Some c) w'
  end.

(** [^] and [$] under the [m] flag, by what stands in front of the
    position and by the text from it on. *)
Definition atLineStart (p : option char) : bool :=
  match p with
  | None => true
  | Some c => isLineTerminator c
  end.

Definition atLineEnd (s : jsstring) : bool :=
  match s with
  | [] => true
  | c :: _ => isLineTerminator c
  end.

(** The text is not empty and starts, or ends, with a code unit that is
    not white space. *)
Definition startsBlack (s : jsstring) : bool :=
  negb (isWhiteSpace (hd SPACE s)).

Definition endsBlack (s : jsstring) : bool :=
  negb (isWhiteSpace (last s SPACE)).

(** The three backticks of a code fence, and a fenced block: the opening
    fence with its language tag, white space, the body, white space, the
    closing fence and what follows it. *)
Definition FENCE : jsstring := [BACKTICK; BACKTICK; BACKTICK].

Definition fenced (lang ws1 body ws2 tail : jsstring) : jsstring :=
  FENCE ++ lang ++ ws1 ++ body ++ ws2 ++ FENCE ++ tail.

(** No code unit of the class [p] stands first in [s]. *)
Definition notAhead (p : char -> bool) (s : jsstring) : bool :=
  match s with
  | c :: _ => negb (p c)
  | [] => true
  end.

(** [s] starts with the word [w]; and no line of [s] starts with [w],
    where [lineStart] tells whether [s] starts at a line start. *)
Definition startsWith (w s : jsstring) : bool :=
  match expect w s with
  | Some _ => true
  | None => false
  end.

Fixpoint noLineStartsWith (w : jsstring) (lineStart : bool) (s : jsstring)
  : bool :=
  match s with
  | [] => true
  | c :: s' =>
      negb (lineStart && startsWith w s)
      && noLineStartsWith w (isLineTerminator c) s'
  end.

(** The two file header lines of a unified diff: three minus signs, a gap
    and the old name, a line feed, three plus signs, a gap and the new
    name. A gap is white space, a name is text of one line that does not
    start with white space. *)
Definition fileHeaders (gap1 oldName gap2 newName : jsstring) : jsstring :=
  str "---" ++ gap1 ++ oldName ++ NL :: str "+++" ++ gap2 ++ newName.

Definition headerGap (w : jsstring) : bool :=
  negb (Nat.eqb (length w) 0) && forallb isWhiteSpace w.

Definition headerName (p : jsstring) : bool :=
  startsBlack p && forallb isDot p.

(** The matcher's state [st'] holds the groups of [st] and those closed
    since. *)
Definition extends (st' st : Pattern.state) : Prop :=
  exists more, Pattern.caps st' = more ++ Pattern.caps st.

(** The edits among the calls of a run, as range and new text, and whether
    the user was asked. *)
Definition edits (calls : list Vscode.Call) : list (nat * nat * jsstring) :=
  flat_map (fun call =>
              match call with
              | Vscode.applyEdit first last newText => [(first, last, newText)]
              | _ => []
              end) calls.

Definition asked (calls : list Vscode.Call) : bool :=
  existsb (fun call =>
             match call with
             | Vscode.showWarningMessage _ _ => true
             | _ => false
             end) calls.

(** The error messages shown in a run. *)
Definition errorsShown (calls : list Vscode.Call) : list jsstring :=
  flat_map (fun call =>
              match call with
              | Vscode.showErrorMessage message => [message]
              | _ => []
              end) calls.

(** A clipboard text with one fenced block, as a chat puts it: [front]
    holds no backtick and ends a line, the fence is tagged [diff] or not
    at all, the body is set off by white space and holds no backtick, and
    the closing fence ends its line. *)
Definition FencedBlock (front lang ws1 body ws2 tail : jsstring) : Prop :=
  ~ In BACKTICK front
  /\ atLineStart (behind None front) = true
  /\ (lang = str "diff"
      \/ (lang = [] /\ notAhead (N.eqb 100) (ws1 ++ body) = true))
  /\ forallb isWhiteSpace ws1 = true
  /\ forallb isWhiteSpace ws2 = true
  /\ ~ In BACKTICK body
  /\ startsBlack body = true
  /\ endsBlack body = true
  /\ atLineEnd tail = true.

(* ====================================================================== *)
(** * Strings, arrays and blocks *)
(* ====================================================================== *)

Lemma strictEq_eq : forall a b, strictEq a b = true <-> a = b.
Proof.
  induction a as [|x a IH]; destruct b as [|y b]; simpl; split;
    try congruence; try reflexivity.
  - intros H. apply andb_true_iff in H as [Hx Hab].
    apply N.eqb_eq in Hx. apply IH in Hab. congruence.
  - intros H. injection H as -> ->. rewrite N.eqb_refl. simpl. now apply IH.
Qed.

Lemma elemEq_Some : forall x val, elemEq x val = true <-> x = Some val.
Proof.
  intros [l|] val; simpl.
  - rewrite strictEq_eq. split; congruence.
  - split; discriminate.
Qed.

Lemma elemEq2_eq : forall x y, elemEq2 x y = true <-> x = y.
Proof.
  intros [a|] [b|]; simpl; try rewrite strictEq_eq; split;
    congruence || reflexivity.
Qed.

Lemma skipn_nth_error : forall (A : Type) (l : list A) k,
  skipn k l = match nth_error l k with
              | Some x => x :: skipn (S k) l
              | None => []
              end.
Proof.
  induction l as [|a l IH]; intros [|k]; simpl; try reflexivity.
  rewrite IH. destruct (nth_error l k); reflexivity.
Qed.

Lemma slice_window : forall (A : Type) (l : list A) k n,
  slice l k (k + n) = firstn n (skipn k l).
Proof. intros. unfold slice. f_equal. lia. Qed.

Lemma length_slice_window : forall (A : Type) (l : list A) k n,
  length (slice l k (k + n)) = Nat.min n (length l - k).
Proof.
  intros. rewrite slice_window, length_firstn, length_skipn. reflexivity.
Qed.

Lemma pushLine_fold : forall body o n,
  fold_left pushLine body (o, n) = (o ++ oldLines body, n ++ newLines body).
Proof.
  intros b. induction b as [|line b IH]; intros o n; simpl.
  - now rewrite !app_nil_r.
  - destruct line as [|tag val]; simpl.
    + apply IH.
    + rewrite IH. unfold oldLines, newLines. simpl.
      destruct ((tag =? SPACE) || (tag =? MINUS))%N,
               ((tag =? SPACE) || (tag =? PLUS))%N;
        simpl; rewrite <- ?app_assoc; reflexivity.
Qed.

Lemma buildBlocks_lines : forall body,
  buildBlocks body = (oldLines body, newLines body).
Proof. intros. unfold buildBlocks. now rewrite pushLine_fold. Qed.

Lemma isIgnored_tag : forall tag val,
  tag <> SPACE -> tag <> MINUS -> tag <> PLUS ->
  isIgnored (tag :: val) = true.
Proof.
  intros tag val Hs Hm Hp. unfold isIgnored. simpl.
  apply N.eqb_neq in Hs, Hm, Hp. now rewrite Hs, Hm, Hp.
Qed.

Lemma isIgnored_split : forall line,
  isIgnored line = true -> isOld line = false /\ isNew line = false.
Proof.
  intros line H. unfold isIgnored in H.
  apply andb_true_iff in H as [Ho Hn].
  split; now apply negb_true_iff.
Qed.

(* ====================================================================== *)
(** * Removal verifier *)
(* ====================================================================== *)

Lemma verifyRemovals_cons_old : forall doc k line rest,
  isOld line = true ->
  verifyRemovals doc k (line :: rest)
  = elemEq (nth_error doc k) (value line) && verifyRemovals doc (S k) rest.
Proof.
  intros doc k [|tag val] rest H; simpl in *; [discriminate|].
  rewrite H. now destruct (elemEq (nth_error doc k) val).
Qed.

Lemma verifyRemovals_cons_skip : forall doc k line rest,
  isOld line = false ->
  verifyRemovals doc k (line :: rest) = verifyRemovals doc k rest.
Proof.
  intros doc k [|tag val] rest H; simpl in *; [reflexivity|].
  now rewrite H.
Qed.

Lemma verifyRemovals_skip_middle : forall b1 line b2 doc k,
  isOld line = false ->
  verifyRemovals doc k (b1 ++ line :: b2) = verifyRemovals doc k (b1 ++ b2).
Proof.
  induction b1 as [|l b1 IH]; intros line b2 doc k H; simpl app.
  - now apply verifyRemovals_cons_skip.
  - destruct (isOld l) eqn:Hl.
    + rewrite !verifyRemovals_cons_old by assumption. now rewrite IH.
    + rewrite !verifyRemovals_cons_skip by assumption. now apply IH.
Qed.

(** The verifier accepts exactly when the window at [k] is the old block. *)
Lemma verifyRemovals_window : forall body doc k,
  verifyRemovals doc k body = true
  <-> slice doc k (k + length (oldLines body)) = oldLines body.
Proof.
  intros b. induction b as [|line b IH]; intros doc k.
  - simpl. rewrite slice_window. simpl. tauto.
  - destruct (isOld line) eqn:Hl.
    + rewrite verifyRemovals_cons_old by assumption.
      unfold oldLines. simpl. rewrite Hl. simpl. fold (oldLines b).
      rewrite slice_window, skipn_nth_error, andb_true_iff, elemEq_Some, IH.
      rewrite slice_window.
      destruct (nth_error doc k) as [x|]; simpl; split.
      * intros [Hx Hr]. congruence.
      * intros H. injection H as -> Hr. split; congruence.
      * intros [Hx _]. discriminate.
      * discriminate.
    + rewrite verifyRemovals_cons_skip by assumption.
      unfold oldLines. simpl. rewrite Hl. apply IH.
Qed.

Lemma cursorAt_cons_old : forall start line rest p,
  isOld line = true ->
  cursorAt start (line :: rest) (S p) = cursorAt (S start) rest p.
Proof. intros. unfold cursorAt. simpl. rewrite H. simpl. lia. Qed.

Lemma cursorAt_cons_skip : forall start line rest p,
  isOld line = false ->
  cursorAt start (line :: rest) (S p) = cursorAt start rest p.
Proof. intros. unfold cursorAt. simpl. now rewrite H. Qed.

(** C1. [verifyRemovals] returns true exactly when every context or
    deletion line of the body, met with the cursor where the walk has
    brought it (the start index plus the number of context and deletion
    lines in front), has as value the document line at the cursor; an
    addition line is not compared and does not move the cursor, so taking
    it out of the body changes neither the cursors nor the result. *)
Theorem verifyRemovals_walk : forall doc start body,
  (verifyRemovals doc start body = true <->
   forall p line,
     nth_error body p = Some line -> isOld line = true ->
     nth_error doc (cursorAt start body p) = Some (value line))
  /\
  (forall b1 val b2,
     body = b1 ++ (PLUS :: val) :: b2 ->
     verifyRemovals doc start body = verifyRemovals doc start (b1 ++ b2)
     /\ cursorAt start body (S (length b1)) = cursorAt start body (length b1)).
Proof.
  intros doc start b. split.
  - revert start. induction b as [|l rest IH]; intros start.
    + simpl. split; [|reflexivity]. intros _ [|p] line H; discriminate.
    + destruct (isOld l) eqn:Hl.
      * rewrite verifyRemovals_cons_old, andb_true_iff, elemEq_Some, IH
          by assumption.
        split.
        -- intros [H0 Hr] [|p] line Hp Hline.
           ++ simpl in Hp. injection Hp as <-.
              unfold cursorAt. simpl. now rewrite Nat.add_0_r.
           ++ rewrite cursorAt_cons_old by assumption. now apply Hr.
        -- intros H. split.
           ++ specialize (H 0 l eq_refl Hl).
              unfold cursorAt in H. simpl in H. now rewrite Nat.add_0_r in H.
           ++ intros p line Hp Hline.
              rewrite <- (cursorAt_cons_old start l rest p Hl).
              now apply (H (S p)).
      * rewrite verifyRemovals_cons_skip, IH by assumption.
        split.
        -- intros Hr [|p] line Hp Hline.
           ++ simpl in Hp. congruence.
           ++ rewrite cursorAt_cons_skip by assumption. now apply Hr.
        -- intros H p line Hp Hline.
           rewrite <- (cursorAt_cons_skip start l rest p Hl).
           now apply (H (S p)).
  - intros b1 val b2 ->. split.
    + now apply verifyRemovals_skip_middle.
    + unfold cursorAt. f_equal. f_equal.
      replace (S (length b1)) with (length (b1 ++ [PLUS :: val]))
        by (rewrite length_app; simpl; lia).
      replace (b1 ++ (PLUS :: val) :: b2) with ((b1 ++ [PLUS :: val]) ++ b2)
        by (now rewrite <- app_assoc).
      rewrite firstn_app, Nat.sub_diag, firstn_all. simpl.
      rewrite app_nil_r, filter_app. simpl. rewrite app_nil_r.
      replace ((b1 ++ [PLUS :: val]) ++ b2) with (b1 ++ (PLUS :: val) :: b2)
        by (now rewrite <- app_assoc).
      rewrite firstn_app, Nat.sub_diag, firstn_all. simpl.
      now rewrite app_nil_r.
Qed.

Lemma verifyRemovals_walk_witness :
  verifyRemovals (strs ["a"; "b"; "c"]) 0 (strs [" a"; "-b"; "+B"; " c"])
  = verifyRemovals (strs ["a"; "b"; "c"]) 0 (strs [" a"; "-b"; " c"])
  /\ cursorAt 0 (strs [" a"; "-b"; "+B"; " c"]) 3
     = cursorAt 0 (strs [" a"; "-b"; "+B"; " c"]) 2.
Proof.
  exact (proj2 (verifyRemovals_walk (strs ["a"; "b"; "c"]) 0
                  (strs [" a"; "-b"; "+B"; " c"]))
           (strs [" a"; "-b"]) (str "B") (strs [" c"]) eq_refl).
Defined.

(** C9. The verifier never fails to answer: when the old block is not
    empty and the document ends before the window at [start] does, the
    lookup past the last line is a mismatch and the answer is [false]; a
    hunk whose best window is such a window is therefore not applied. *)
Theorem verifyRemovals_past_end : forall doc start b,
  oldLines b <> [] ->
  length doc < start + length (oldLines b) ->
  verifyRemovals doc start b = false
  /\ (forall content hunk startLine,
        splitLines content = doc -> body hunk = b ->
        findBestWindow doc (oldLines b) startLine = Some start ->
        applySingleHunk content hunk startLine = None).
Proof.
  intros doc start b Hne Hlen.
  assert (Hv : verifyRemovals doc start b = false).
  { destruct (verifyRemovals doc start b) eqn:Hv; [|reflexivity].
    apply verifyRemovals_window in Hv.
    apply (f_equal (@length jsstring)) in Hv.
    rewrite length_slice_window in Hv.
    destruct (oldLines b) as [|x old]; [congruence|].
    simpl length in *. lia. }
  split; [exact Hv|].
  intros content hunk startLine Hdoc Hb Hfind.
  unfold applySingleHunk.
  rewrite buildBlocks_lines, Hdoc, Hb, Hfind, Hv. reflexivity.
Qed.

Lemma verifyRemovals_past_end_witness :
  verifyRemovals (strs ["a"; "b"]) 1 (strs ["-b"; "-c"]) = false
  /\ applySingleHunk (text ["a"; "b"]) (hunkOf "@@ -2,2 +2,0 @@" ["-b"; "-c"]) 0
     = None.
Proof.
  assert (Hne : oldLines (strs ["-b"; "-c"]) <> []) by discriminate.
  assert (Hlen : length (strs ["a"; "b"])
                 < 1 + length (oldLines (strs ["-b"; "-c"])))
    by (vm_compute; lia).
  split.
  - exact (proj1 (verifyRemovals_past_end (strs ["a"; "b"]) 1
                    (strs ["-b"; "-c"]) Hne Hlen)).
  - apply (proj2 (verifyRemovals_past_end (strs ["a"; "b"]) 1
                    (strs ["-b"; "-c"]) Hne Hlen));
      reflexivity.
Defined.

(* ====================================================================== *)
(** * Lines without meaning *)
(* ====================================================================== *)

Lemma filter_skip_middle : forall (f : jsstring -> bool) b1 line b2,
  f line = false -> filter f (b1 ++ line :: b2) = filter f (b1 ++ b2).
Proof. intros. rewrite !filter_app. simpl. now rewrite H. Qed.

Lemma applySingleHunk_body : forall content h1 h2 startLine,
  oldLines (body h1) = oldLines (body h2) ->
  newLines (body h1) = newLines (body h2) ->
  (forall doc k, verifyRemovals doc k (body h1) = verifyRemovals doc k (body h2)) ->
  applySingleHunk content h1 startLine = applySingleHunk content h2 startLine.
Proof.
  intros content h1 h2 startLine Ho Hn Hv. unfold applySingleHunk.
  rewrite !buildBlocks_lines, Ho, Hn.
  destruct (findBestWindow _ _ _); [|reflexivity]. now rewrite Hv.
Qed.

(** C10. A body line whose first code unit is neither a space, [-] nor
    [+] is ignored wherever a body is read: it is in neither block, the
    verifier answers as if it were not there and its cursor does not move
    over it, and the hunk applies as the hunk without that line does. *)
Theorem unmeaning_line_ignored : forall tag val b1 b2,
  tag <> SPACE -> tag <> MINUS -> tag <> PLUS ->
  let line := tag :: val in
  buildBlocks (b1 ++ line :: b2) = buildBlocks (b1 ++ b2)
  /\ oldLines (b1 ++ line :: b2) = oldLines (b1 ++ b2)
  /\ newLines (b1 ++ line :: b2) = newLines (b1 ++ b2)
  /\ (forall doc start,
        verifyRemovals doc start (b1 ++ line :: b2)
        = verifyRemovals doc start (b1 ++ b2)
        /\ cursorAt start (b1 ++ line :: b2) (S (length b1))
           = cursorAt start (b1 ++ line :: b2) (length b1))
  /\ (forall content hunk startLine,
        body hunk = b1 ++ line :: b2 ->
        applySingleHunk content hunk startLine
        = applySingleHunk content (withBody hunk (b1 ++ b2)) startLine).
Proof.
  intros tag val b1 b2 Hs Hm Hp line.
  destruct (isIgnored_split line (isIgnored_tag tag val Hs Hm Hp)) as [Ho Hn].
  clearbody line.
  assert (Hold : oldLines (b1 ++ line :: b2) = oldLines (b1 ++ b2))
    by (unfold oldLines; now rewrite filter_skip_middle).
  assert (Hnew : newLines (b1 ++ line :: b2) = newLines (b1 ++ b2))
    by (unfold newLines; now rewrite filter_skip_middle).
  repeat split; try assumption.
  - now rewrite !buildBlocks_lines, Hold, Hnew.
  - now apply verifyRemovals_skip_middle.
  - unfold cursorAt. f_equal. f_equal.
    replace (b1 ++ line :: b2) with ((b1 ++ [line]) ++ b2)
      by (now rewrite <- app_assoc).
    replace (S (length b1)) with (length (b1 ++ [line]))
      by (rewrite length_app; simpl; lia).
    rewrite firstn_app, Nat.sub_diag, firstn_all. simpl.
    rewrite app_nil_r, filter_app. simpl. rewrite Ho, app_nil_r.
    rewrite <- app_assoc, firstn_app, Nat.sub_diag, firstn_all. simpl.
    now rewrite app_nil_r.
  - intros content hunk startLine Hb.
    apply applySingleHunk_body; simpl; rewrite Hb; try assumption.
    intros. now apply verifyRemovals_skip_middle.
Qed.

Lemma unmeaning_line_ignored_witness :
  applySingleHunk (text ["a"; "b"])
    (hunkOf "@@ -1,2 +1,2 @@"
       [" a"; "-b"; "+B"; "\ No newline at end of file"]) 0
  = applySingleHunk (text ["a"; "b"])
      (hunkOf "@@ -1,2 +1,2 @@" [" a"; "-b"; "+B"]) 0.
Proof.
  assert (Hs : 92%N <> SPACE) by discriminate.
  assert (Hm : 92%N <> MINUS) by discriminate.
  assert (Hp : 92%N <> PLUS) by discriminate.
  exact (proj2 (proj2 (proj2 (proj2
           (unmeaning_line_ignored 92%N (str " No newline at end of file")
              (strs [" a"; "-b"; "+B"]) [] Hs Hm Hp))))
           (text ["a"; "b"])
           (hunkOf "@@ -1,2 +1,2 @@"
              [" a"; "-b"; "+B"; "\ No newline at end of file"])
           0 eq_refl).
Defined.

(* ====================================================================== *)
(** * Sequence matcher *)
(* ====================================================================== *)

Lemma count_fold : forall (f : nat -> bool) l acc,
  fold_left (fun score i => if f i then S score else score) l acc
  = acc + length (filter f l).
Proof.
  induction l as [|x l IH]; intros acc; simpl.
  - lia.
  - rewrite IH. destruct (f x); simpl; lia.
Qed.

Lemma nth_error_slice_window : forall (A : Type) (l : list A) i n j,
  j < n -> nth_error (slice l i (i + n)) j = nth_error l (i + j).
Proof.
  intros A l i n j Hj.
  rewrite slice_window, nth_error_firstn, nth_error_skipn.
  apply Nat.ltb_lt in Hj. now rewrite Hj.
Qed.

Section WindowSearch.

Variables doc oldBlock : list jsstring.

Local Abbreviation score := (windowScore doc oldBlock).
Local Abbreviation Best := (LeftmostBest doc oldBlock).

(** The score the code computes on the sliced window is the score of the
    candidate. *)
Lemma scoreSequence_window : forall i,
  scoreSequence (slice doc i (i + length oldBlock)) oldBlock = score i.
Proof.
  intros i. unfold scoreSequence, windowScore, windowLength.
  rewrite count_fold, length_slice_window. simpl. f_equal.
  apply filter_ext_in. intros j Hj. apply in_seq in Hj.
  rewrite nth_error_slice_window by lia. reflexivity.
Qed.

Lemma windowScore_le : forall i, score i <= length oldBlock.
Proof.
  intros. unfold windowScore.
  etransitivity; [apply filter_length_le|]. rewrite length_seq. lia.
Qed.

Lemma LeftmostBest_unique : forall lo hi m m',
  Best lo hi m -> Best lo hi m' -> m = m'.
Proof.
  intros lo hi m m' (Hr & Hmax & Hfirst) (Hr' & Hmax' & Hfirst').
  destruct (Nat.lt_trichotomy m m') as [Hlt|[Heq|Hgt]]; [|assumption|].
  - specialize (Hfirst' m). specialize (Hmax m'). lia.
  - specialize (Hfirst m'). specialize (Hmax' m). lia.
Qed.

(** A candidate that beats every earlier one and is not beaten later is
    the leftmost best. *)
Lemma LeftmostBest_intro : forall lo hi i,
  lo <= i < hi ->
  (forall k, lo <= k < i -> score k < score i) ->
  (forall k, i < k < hi -> score k <= score i) ->
  Best lo hi i.
Proof.
  intros lo hi i Hi Hbefore Hafter. repeat split; try lia; [|exact Hbefore].
  intros k Hk. destruct (Nat.lt_trichotomy k i) as [H|[H|H]].
  - specialize (Hbefore k). lia.
  - subst. lia.
  - apply Hafter. lia.
Qed.

(** One more candidate that does not beat the best so far. *)
Lemma LeftmostBest_extend : forall lo i m,
  Best lo i m -> score i <= score m -> Best lo (S i) m.
Proof.
  intros lo i m (Hr & Hmax & Hfirst) Hi. repeat split; try lia; [|exact Hfirst].
  intros k Hk. destruct (Nat.eq_dec k i) as [->|Hne]; [exact Hi|].
  apply Hmax. lia.
Qed.

Lemma searchLoop_invariant : forall lo remaining i bestIdx bestScore,
  LoopInvariant doc oldBlock lo i bestIdx bestScore ->
  (remaining = 0 /\ i = lo
   /\ searchLoop doc oldBlock remaining i bestIdx bestScore = ((-1)%Z, (-1)%Z))
  \/ (exists m, searchLoop doc oldBlock remaining i bestIdx bestScore
                = (Z.of_nat m, Z.of_nat (score m))
                /\ Best lo (i + remaining) m).
Proof.
  intros lo remaining.
  induction remaining as [|remaining IH]; intros i bestIdx bestScore Hinv.
  - simpl. rewrite Nat.add_0_r.
    destruct Hinv as [(-> & -> & ->)|(m & -> & -> & Hbest)].
    + left. auto.
    + right. exists m. auto.
  - right. simpl. rewrite scoreSequence_window.
    assert (Hprev : forall k, lo <= k < i -> (Z.of_nat (score k) <= bestScore)%Z).
    { intros k Hk. destruct Hinv as [(-> & _)|(m & _ & -> & _ & Hmax & _)].
      - lia.
      - specialize (Hmax k Hk). lia. }
    assert (Hlo : lo <= i).
    { destruct Hinv as [(-> & _)|(m & _ & _ & Hr & _)]; lia. }
    assert (Hnext : forall m, Best lo (S i) m ->
              exists m', searchLoop doc oldBlock remaining (S i)
                           (Z.of_nat m) (Z.of_nat (score m))
                         = (Z.of_nat m', Z.of_nat (score m'))
                         /\ Best lo (i + S remaining) m').
    { intros m Hm.
      destruct (IH (S i) (Z.of_nat m) (Z.of_nat (score m))
                  (or_intror (ex_intro _ m (conj eq_refl (conj eq_refl Hm)))))
        as [(_ & Hcontra & _)|(m' & Hres & Hbest)]; [lia|].
      exists m'. split; [exact Hres|].
      now replace (i + S remaining) with (S i + remaining) by lia. }
    destruct (bestScore <? Z.of_nat (score i))%Z eqn:Hlt.
    + apply Z.ltb_lt in Hlt.
      assert (Hbefore : forall k, lo <= k < i -> score k < score i).
      { intros k Hk. specialize (Hprev k Hk). lia. }
      destruct (score i =? length oldBlock)%nat eqn:Hperfect.
      * apply Nat.eqb_eq in Hperfect. exists i. split; [reflexivity|].
        apply LeftmostBest_intro; [lia|exact Hbefore|].
        intros k _. rewrite Hperfect. apply windowScore_le.
      * apply Hnext. apply LeftmostBest_intro; [lia|exact Hbefore|lia].
    + apply Z.ltb_ge in Hlt.
      destruct Hinv as [(_ & _ & ->)|(m & -> & -> & Hbest)]; [lia|].
      apply Hnext. apply LeftmostBest_extend; [exact Hbest|lia].
Qed.

Lemma searchWindow_found : forall searchStart,
  searchStart <= length doc ->
  exists m, searchWindow doc oldBlock searchStart
            = (Z.of_nat m, Z.of_nat (score m))
            /\ Best searchStart (S (length doc)) m.
Proof.
  intros searchStart Hle. unfold searchWindow.
  destruct (searchLoop_invariant searchStart
              (S (length doc) - searchStart) searchStart (-1)%Z (-1)%Z
              (or_introl (conj eq_refl (conj eq_refl eq_refl))))
    as [(H0 & _)|(m & Hres & Hbest)].
  - lia.
  - exists m. split; [exact Hres|].
    now replace (S (length doc))
      with (searchStart + (S (length doc) - searchStart)) by lia.
Qed.

Lemma findBestWindow_None : forall searchStart,
  findBestWindow doc oldBlock searchStart = None <-> length doc < searchStart.
Proof.
  intros searchStart. unfold findBestWindow. split.
  - intros H. destruct (le_lt_dec searchStart (length doc)) as [Hle|Hlt];
      [|exact Hlt].
    destruct (searchWindow_found searchStart Hle) as (m & Hres & _).
    rewrite Hres in H. simpl in H.
    destruct (Z.of_nat m <? 0)%Z eqn:Hneg; [|discriminate].
    apply Z.ltb_lt in Hneg. lia.
  - intros Hlt. unfold searchWindow.
    replace (S (length doc) - searchStart) with 0 by lia. reflexivity.
Qed.

Lemma findBestWindow_Some : forall searchStart m,
  findBestWindow doc oldBlock searchStart = Some m
  <-> Best searchStart (S (length doc)) m.
Proof.
  intros searchStart m.
  assert (Hfound : forall m', searchStart <= length doc ->
            Best searchStart (S (length doc)) m' ->
            findBestWindow doc oldBlock searchStart = Some m').
  { intros m' Hle Hbest'.
    destruct (searchWindow_found searchStart Hle) as (m0 & Hres & Hbest0).
    unfold findBestWindow. rewrite Hres. simpl.
    destruct (Z.of_nat m0 <? 0)%Z eqn:Hneg.
    - apply Z.ltb_lt in Hneg. lia.
    - rewrite Nat2Z.id. f_equal.
      eapply LeftmostBest_unique; eassumption. }
  split.
  - intros H.
    destruct (le_lt_dec searchStart (length doc)) as [Hle|Hlt].
    + destruct (searchWindow_found searchStart Hle) as (m0 & _ & Hbest0).
      rewrite (Hfound m0 Hle Hbest0) in H. now injection H as <-.
    + apply findBestWindow_None in Hlt. congruence.
  - intros Hbest. apply Hfound; [|exact Hbest].
    destruct Hbest as (Hr & _). lia.
Qed.

End WindowSearch.

(** C2. The matcher tries every candidate from the search start to the
    length of the document, scores each by the number of positions of the
    overlap at which document and old block agree, and returns the lowest
    candidate with the greatest score; the loop is left at once at a
    candidate whose score is the length of the old block; not-found is
    returned exactly when there is no candidate, whatever the scores; for
    an empty old block the search start itself is returned. *)
Theorem findBestWindow_leftmost_best : forall doc oldBlock searchStart,
  (forall i, scoreSequence (slice doc i (i + length oldBlock)) oldBlock
             = windowScore doc oldBlock i)
  /\ (forall m, findBestWindow doc oldBlock searchStart = Some m
                <-> LeftmostBest doc oldBlock searchStart (S (length doc)) m)
  /\ (forall remaining i bestIdx bestScore,
        (bestScore < Z.of_nat (length oldBlock))%Z ->
        windowScore doc oldBlock i = length oldBlock ->
        searchLoop doc oldBlock (S remaining) i bestIdx bestScore
        = (Z.of_nat i, Z.of_nat (length oldBlock)))
  /\ (findBestWindow doc oldBlock searchStart = None
      <-> length doc < searchStart)
  /\ (oldBlock = [] -> searchStart <= length doc ->
      findBestWindow doc oldBlock searchStart = Some searchStart).
Proof.
  intros doc oldBlock searchStart.
  split; [apply scoreSequence_window|].
  split; [apply findBestWindow_Some|].
  split; [|split; [apply findBestWindow_None|]].
  - intros remaining i bestIdx bestScore Hlt Hperfect. simpl.
    rewrite scoreSequence_window, Hperfect.
    apply Z.ltb_lt in Hlt. rewrite Hlt, Nat.eqb_refl. reflexivity.
  - intros -> Hle. apply findBestWindow_Some. repeat split; try lia.
    intros i _. pose proof (windowScore_le doc [] i) as Hi.
    simpl in Hi. lia.
Qed.

Lemma findBestWindow_leftmost_best_witness :
  findBestWindow (strs ["x"; "y"]) [] 1 = Some 1.
Proof.
  apply (proj2 (proj2 (proj2 (proj2
           (findBestWindow_leftmost_best (strs ["x"; "y"]) [] 1)))));
    [reflexivity|simpl; lia].
Defined.

(* ====================================================================== *)
(** * Splitting and joining lines *)
(* ====================================================================== *)

Lemma splitLines_not_nil : forall s, splitLines s <> [].
Proof.
  intros [|c t]; simpl; [discriminate|].
  destruct (c =? NL)%N; [discriminate|].
  destruct (splitLines t); discriminate.
Qed.

Lemma splitLines_noNewline : forall s, Forall noNewline (splitLines s).
Proof.
  induction s as [|c t IH]; simpl.
  - constructor; [intros []|constructor].
  - destruct (c =? NL)%N eqn:Hc.
    + constructor; [intros []|exact IH].
    + apply N.eqb_neq in Hc.
      destruct (splitLines t) as [|l ls]; constructor;
        try (inversion IH; subst; assumption); try constructor.
      * intros [H|[]]. congruence.
      * inversion IH; subst. intros [H|H]; [congruence|contradiction].
Qed.

Lemma joinLines_cons : forall l ls,
  ls <> [] -> joinLines (l :: ls) = l ++ NL :: joinLines ls.
Proof. intros l [|x ls] H; [congruence|reflexivity]. Qed.

Lemma joinLines_splitLines : forall s, joinLines (splitLines s) = s.
Proof.
  induction s as [|c t IH]; simpl; [reflexivity|].
  pose proof (splitLines_not_nil t) as Hne.
  destruct (c =? NL)%N eqn:Hc.
  - apply N.eqb_eq in Hc. subst c.
    rewrite joinLines_cons by assumption. simpl. now rewrite IH.
  - destruct (splitLines t) as [|l ls]; [congruence|].
    destruct ls as [|l' ls].
    + simpl in *. now rewrite IH.
    + rewrite joinLines_cons by discriminate.
      rewrite joinLines_cons in IH by discriminate.
      rewrite <- IH. reflexivity.
Qed.

(** A code unit of a line without newline is not the newline. *)
Ltac head_not_newline Hl c :=
  let Hc := fresh "Hc" in
  destruct (c =? NL)%N eqn:Hc;
  [ apply N.eqb_eq in Hc; exfalso; apply Hl; now left | ].

Ltac tail_noNewline Hl :=
  let H := fresh "H" in intros H; apply Hl; now right.

Lemma splitLines_line : forall l rest,
  noNewline l -> splitLines (l ++ NL :: rest) = l :: splitLines rest.
Proof.
  induction l as [|c l IH]; intros rest Hl; simpl.
  - reflexivity.
  - head_not_newline Hl c. rewrite IH; [reflexivity|tail_noNewline Hl].
Qed.

Lemma splitLines_last : forall l, noNewline l -> splitLines l = [l].
Proof.
  induction l as [|c l IH]; intros Hl; simpl.
  - reflexivity.
  - head_not_newline Hl c. rewrite IH; [reflexivity|tail_noNewline Hl].
Qed.

Lemma splitLines_joinLines : forall ls,
  ls <> [] -> Forall noNewline ls -> splitLines (joinLines ls) = ls.
Proof.
  induction ls as [|l ls IH]; intros Hne Hall; [congruence|].
  inversion Hall as [|l0 ls0 Hl Hls]; subst.
  destruct ls as [|l' ls].
  - simpl. now apply splitLines_last.
  - rewrite joinLines_cons by discriminate.
    rewrite splitLines_line by assumption.
    rewrite IH; [reflexivity|discriminate|assumption].
Qed.

(* ====================================================================== *)
(** * Hunk applier *)
(* ====================================================================== *)

(** What a successful application has done. *)
Lemma applySingleHunk_Some : forall content hunk startLine res,
  applySingleHunk content hunk startLine = Some res ->
  exists m,
    findBestWindow (splitLines content) (oldLines (body hunk)) startLine = Some m
    /\ verifyRemovals (splitLines content) m (body hunk) = true
    /\ res = mkApplied
               (joinLines (splice (splitLines content) m
                             (oldLines (body hunk)) (newLines (body hunk))))
               (m + length (newLines (body hunk))).
Proof.
  intros content hunk startLine res. unfold applySingleHunk.
  rewrite buildBlocks_lines.
  destruct (findBestWindow _ _ _) as [m|]; [|discriminate].
  destruct (verifyRemovals _ m _) eqn:Hv; cbn [negb]; [|discriminate].
  intros H. injection H as <-. exists m. repeat split; [exact Hv|].
  unfold splice, slice, sliceFrom. now rewrite Nat.sub_0_r.
Qed.

Lemma matched_window_in_document : forall doc b startLine m,
  findBestWindow doc (oldLines b) startLine = Some m ->
  verifyRemovals doc m b = true ->
  startLine <= m /\ m + length (oldLines b) <= length doc
  /\ slice doc m (m + length (oldLines b)) = oldLines b.
Proof.
  intros doc b startLine m Hfind Hv.
  apply findBestWindow_Some in Hfind. destruct Hfind as (Hr & _).
  apply verifyRemovals_window in Hv.
  pose proof (f_equal (@length jsstring) Hv) as Hlen.
  rewrite length_slice_window in Hlen.
  repeat split; try lia. exact Hv.
Qed.

Lemma splice_parts : forall lines m oldBlock newBlock,
  m <= length lines ->
  firstn m (splice lines m oldBlock newBlock) = firstn m lines
  /\ slice (splice lines m oldBlock newBlock) m (m + length newBlock) = newBlock
  /\ skipn (m + length newBlock) (splice lines m oldBlock newBlock)
     = skipn (m + length oldBlock) lines.
Proof.
  intros lines m oldBlock newBlock Hm. unfold splice.
  assert (Hl : length (firstn m lines) = m)
    by (rewrite length_firstn; lia).
  repeat split.
  - rewrite firstn_app, Hl, Nat.sub_diag. simpl.
    rewrite app_nil_r. apply firstn_all2. lia.
  - rewrite slice_window, skipn_app, Hl, Nat.sub_diag. simpl.
    rewrite skipn_all2 by lia. simpl.
    rewrite firstn_app, Nat.sub_diag. simpl.
    rewrite app_nil_r. apply firstn_all.
  - rewrite skipn_app, Hl.
    rewrite skipn_all2 by lia. simpl.
    replace (m + length newBlock - m) with (length newBlock) by lia.
    rewrite skipn_app, Nat.sub_diag, skipn_all. reflexivity.
Qed.

Lemma splice_noNewline : forall lines m oldBlock newBlock,
  Forall noNewline lines -> Forall noNewline newBlock ->
  Forall noNewline (splice lines m oldBlock newBlock).
Proof.
  intros lines m oldBlock newBlock Hlines Hnew. unfold splice.
  rewrite Forall_forall in Hlines.
  rewrite !Forall_app. repeat split; [|exact Hnew|];
    apply Forall_forall; intros l Hl; apply Hlines.
  - rewrite <- (firstn_skipn m). apply in_or_app. now left.
  - rewrite <- (firstn_skipn (m + length oldBlock)). apply in_or_app. now right.
Qed.

Lemma newLines_noNewline : forall b,
  Forall noNewline b -> Forall noNewline (newLines b).
Proof.
  intros b Hb. unfold newLines. apply Forall_forall. intros v Hv.
  apply in_map_iff in Hv as (line & <- & Hin).
  apply filter_In in Hin as [Hin _].
  rewrite Forall_forall in Hb. specialize (Hb line Hin).
  destruct line as [|tag val]; [exact Hb|].
  intros H. apply Hb. now right.
Qed.


(** C3. A successful application at the matched index [m] leaves the
    lines of the document with the range of [oldBlock.length] lines at [m],
    which lies inside the document and holds the old block, replaced by the
    new block: the lines before [m] and the lines from
    [m + oldBlock.length] on are kept, the new block stands between them,
    the text returned is that sequence joined, and the cursor returned is
    [m + newBlock.length]. *)
Theorem applySingleHunk_splice : forall docText hunk startLine res,
  applySingleHunk docText hunk startLine = Some res ->
  exists m,
    findBestWindow (splitLines docText) (oldLines (body hunk)) startLine = Some m
    /\ m + length (oldLines (body hunk)) <= length (splitLines docText)
    /\ slice (splitLines docText) m (m + length (oldLines (body hunk)))
       = oldLines (body hunk)
    /\ content res
       = joinLines (splice (splitLines docText) m
                      (oldLines (body hunk)) (newLines (body hunk)))
    /\ lastAppliedLine res = m + length (newLines (body hunk))
    /\ firstn m (splice (splitLines docText) m
                   (oldLines (body hunk)) (newLines (body hunk)))
       = firstn m (splitLines docText)
    /\ slice (splice (splitLines docText) m
                (oldLines (body hunk)) (newLines (body hunk)))
         m (m + length (newLines (body hunk)))
       = newLines (body hunk)
    /\ skipn (m + length (newLines (body hunk)))
         (splice (splitLines docText) m
            (oldLines (body hunk)) (newLines (body hunk)))
       = skipn (m + length (oldLines (body hunk))) (splitLines docText)
    /\ (Forall noNewline (newLines (body hunk)) ->
        splice (splitLines docText) m
          (oldLines (body hunk)) (newLines (body hunk)) <> [] ->
        splitLines (content res)
        = splice (splitLines docText) m
            (oldLines (body hunk)) (newLines (body hunk))).
Proof.
  intros docText hunk startLine res Happ.
  destruct (applySingleHunk_Some docText hunk startLine res Happ)
    as (m & Hfind & Hv & ->).
  destruct (matched_window_in_document _ _ _ _ Hfind Hv) as (_ & Hin & Hwin).
  destruct (splice_parts (splitLines docText) m (oldLines (body hunk))
              (newLines (body hunk))) as (Hbefore & Hnew & Hafter); [lia|].
  exists m. simpl. repeat split; try assumption.
  intros Hnl Hne. apply splitLines_joinLines; [exact Hne|].
  apply splice_noNewline; [apply splitLines_noNewline|exact Hnl].
Qed.

Lemma applySingleHunk_splice_witness :
  exists m,
    findBestWindow (splitLines (text ["x"; "y"; ""]))
      (oldLines (strs [" x"; "+NEW"; " y"])) 0 = Some m
    /\ content (mkApplied (text ["x"; "NEW"; "y"; ""]) 3)
       = joinLines (splice (splitLines (text ["x"; "y"; ""])) m
                      (oldLines (strs [" x"; "+NEW"; " y"]))
                      (newLines (strs [" x"; "+NEW"; " y"])))
    /\ lastAppliedLine (mkApplied (text ["x"; "NEW"; "y"; ""]) 3)
       = m + length (newLines (strs [" x"; "+NEW"; " y"])).
Proof.
  destruct (applySingleHunk_splice (text ["x"; "y"; ""])
              (hunkOf "@@ -1,2 +1,3 @@" [" x"; "+NEW"; " y"]) 0
              (mkApplied (text ["x"; "NEW"; "y"; ""]) 3) eq_refl)
    as (m & Hfind & _ & _ & Hcontent & Hcursor & _).
  exists m. repeat split; assumption.
Defined.

(* ====================================================================== *)
(** * Patch orchestrator *)
(* ====================================================================== *)

Lemma applyHunks_Ok : forall hunks doc cursor doc' cursor',
  applyHunks hunks doc cursor = Ok (doc', cursor')
  <-> Applies hunks doc cursor doc' cursor'.
Proof.
  induction hunks as [|hunk rest IH]; intros doc cursor doc' cursor'; simpl.
  - split.
    + intros H. injection H as <- <-. constructor.
    + intros H. inversion H; subst. reflexivity.
  - destruct (applySingleHunk doc hunk cursor) as [res|] eqn:Happ.
    + rewrite IH. split.
      * intros H. econstructor; eassumption.
      * intros H. inversion H; subst. congruence.
    + split; [discriminate|].
      intros H. inversion H; subst. congruence.
Qed.









(* ====================================================================== *)
(** * Line normaliser *)
(* ====================================================================== *)

Lemma list_ind2 : forall (A : Type) (P : list A -> Prop),
  P [] -> (forall c, P [c]) ->
  (forall c d t, P t -> P (d :: t) -> P (c :: d :: t)) ->
  forall t, P t.
Proof.
  intros A P Hnil Hone Hstep.
  assert (H : forall t, P t /\ forall c, P (c :: t)).
  { induction t as [|d t [IHt IHc]]; split; auto. }
  intros t. apply H.
Qed.

Lemma splitLines_cons : forall c t,
  splitLines (c :: t)
  = if (c =? NL)%N then [] :: splitLines t else consFirst c (splitLines t).
Proof. reflexivity. Qed.

Lemma normalizeEOL_cons2 : forall c d t,
  normalizeEOL (c :: d :: t)
  = if ((c =? CR) && (d =? NL))%N then NL :: normalizeEOL t
    else c :: normalizeEOL (d :: t).
Proof. reflexivity. Qed.

Lemma textLines_cons2 : forall c d t,
  textLines (c :: d :: t)
  = if (c =? NL)%N then [] :: textLines (d :: t)
    else if ((c =? CR) && (d =? NL))%N then [] :: textLines t
         else consFirst c (textLines (d :: t)).
Proof. reflexivity. Qed.

(** The lines of the normal form are the lines of the text. *)
Lemma splitLines_normalizeEOL : forall t,
  splitLines (normalizeEOL t) = textLines t.
Proof.
  induction t as [| c | c d t IHt IHd] using list_ind2.
  - reflexivity.
  - reflexivity.
  - rewrite normalizeEOL_cons2, textLines_cons2.
    destruct ((c =? CR) && (d =? NL))%N eqn:Hcrlf.
    + apply andb_true_iff in Hcrlf as [Hc _]. apply N.eqb_eq in Hc. subst c.
      rewrite splitLines_cons. simpl (NL =? NL)%N. simpl (CR =? NL)%N.
      now rewrite IHt.
    + rewrite splitLines_cons, IHd. reflexivity.
Qed.

Lemma joinLines_joinWith : forall ls, joinLines ls = joinWith [NL] ls.
Proof.
  induction ls as [|l ls IH]; [reflexivity|].
  destruct ls as [|l' ls]; [reflexivity|].
  change (l ++ NL :: joinLines (l' :: ls) = l ++ [NL] ++ joinWith [NL] (l' :: ls)).
  now rewrite IH.
Qed.

Lemma crlfOfLf_app : forall a b, crlfOfLf (a ++ b) = crlfOfLf a ++ crlfOfLf b.
Proof.
  induction a as [|c a IH]; intros b; simpl; [reflexivity|].
  rewrite IH. now destruct (c =? NL)%N.
Qed.

Lemma crlfOfLf_line : forall l, noNewline l -> crlfOfLf l = l.
Proof.
  induction l as [|c l IH]; intros Hl; simpl; [reflexivity|].
  head_not_newline Hl c. rewrite IH; [reflexivity|tail_noNewline Hl].
Qed.

Lemma crlfOfLf_joinLines : forall ls,
  Forall noNewline ls -> crlfOfLf (joinLines ls) = joinWith [CR; NL] ls.
Proof.
  induction ls as [|l ls IH]; intros Hall; [reflexivity|].
  inversion Hall as [|l0 ls0 Hl Hls]; subst.
  destruct ls as [|l' ls].
  - simpl. now apply crlfOfLf_line.
  - rewrite joinLines_cons by discriminate.
    rewrite crlfOfLf_app, crlfOfLf_line by assumption.
    change (crlfOfLf (NL :: joinLines (l' :: ls)))
      with (CR :: NL :: crlfOfLf (joinLines (l' :: ls))).
    rewrite IH by assumption. reflexivity.
Qed.

Lemma endingsFrom_crlfOfLf : forall s prev,
  endingsFrom CRLF prev (crlfOfLf s) = true.
Proof.
  induction s as [|c s IH]; intros prev; simpl; [reflexivity|].
  destruct (c =? NL)%N eqn:Hc.
  - simpl. now rewrite IH.
  - simpl. rewrite Hc. simpl. apply IH.
Qed.

Lemma hasCrCrLf_tail : forall c t, hasCrCrLf (c :: t) = false -> hasCrCrLf t = false.
Proof.
  intros c [|d [|e t]] H; try reflexivity.
  simpl in H. apply orb_false_iff in H as [_ H]. exact H.
Qed.

Lemma endingsFrom_normalizeEOL : forall t prev,
  hasCrCrLf t = false ->
  (prev = Some CR -> startsWithEnding t = false) ->
  endingsFrom LF prev (normalizeEOL t) = true.
Proof.
  induction t as [| c | c d t IHt IHd] using list_ind2; intros prev Hno Hprev.
  - reflexivity.
  - simpl. rewrite andb_true_r.
    destruct (c =? NL)%N eqn:Hc; [|reflexivity].
    destruct prev as [p|]; [|reflexivity].
    destruct (p =? CR)%N eqn:Hp; [|reflexivity].
    apply N.eqb_eq in Hp. subst p. specialize (Hprev eq_refl).
    simpl in Hprev. rewrite Hc in Hprev. discriminate.
  - assert (Hhead : forall x, (x =? NL)%N = true ->
              startsWithEnding (c :: d :: t) = true ->
              match prev with
              | Some p => negb (p =? CR)%N
              | None => true
              end = true).
    { intros x _ Hstart. destruct prev as [p|]; [|reflexivity].
      destruct (p =? CR)%N eqn:Hp; [|reflexivity].
      apply N.eqb_eq in Hp. subst p. specialize (Hprev eq_refl). congruence. }
    rewrite normalizeEOL_cons2.
    destruct ((c =? CR) && (d =? NL))%N eqn:Hcrlf.
    + cbn [endingsFrom]. simpl (NL =? NL)%N. cbv iota.
      rewrite (Hhead NL eq_refl); [|simpl; rewrite Hcrlf; apply orb_true_r].
      simpl andb. apply IHt.
      * apply hasCrCrLf_tail with (c := d). now apply hasCrCrLf_tail with (c := c).
      * discriminate.
    + cbn [endingsFrom].
      assert (Hrest : endingsFrom LF (Some c) (normalizeEOL (d :: t)) = true).
      { apply IHd.
        - now apply hasCrCrLf_tail with (c := c).
        - intros Hc. injection Hc as ->.
          simpl (CR =? CR)%N in Hcrlf. simpl andb in Hcrlf.
          simpl. rewrite Hcrlf. simpl.
          destruct t as [|e t]; [reflexivity|].
          simpl in Hno. apply orb_false_iff in Hno as [Hno _].
          simpl (CR =? CR)%N in Hno. simpl andb in Hno.
          exact Hno. }
      rewrite Hrest, andb_true_r.
      destruct (c =? NL)%N eqn:Hc; [|reflexivity].
      apply (Hhead c Hc). simpl. rewrite Hc. reflexivity.
Qed.

(** C7 (as the code has it). For every text [t] and convention [eol],
    [restoreEOL (normalizeEOL t) eol] is the lines of [t], each ended by
    [\r\n] or [\n] in [t], joined again with the line ending of [eol]. For
    CRLF every [\n] of the result follows a [\r]. For LF no [\n] of the
    result follows a [\r] provided [t] has no [\r] directly in front of a
    [\r\n]. *)
Theorem restoreEOL_normalizeEOL : forall t eol,
  restoreEOL (normalizeEOL t) eol = joinWith (terminator eol) (textLines t)
  /\ allEndingsIn CRLF (restoreEOL (normalizeEOL t) CRLF) = true
  /\ (hasCrCrLf t = false ->
      allEndingsIn LF (restoreEOL (normalizeEOL t) LF) = true).
Proof.
  intros t eol. repeat split.
  - rewrite <- (joinLines_splitLines (normalizeEOL t)) at 1.
    rewrite splitLines_normalizeEOL.
    destruct eol; simpl.
    + apply joinLines_joinWith.
    + apply crlfOfLf_joinLines.
      rewrite <- splitLines_normalizeEOL. apply splitLines_noNewline.
  - apply endingsFrom_crlfOfLf.
  - intros Hno. apply endingsFrom_normalizeEOL; [exact Hno|discriminate].
Qed.

(** C7 fails as stated: a [\r] in front of a [\r\n] leaves a [\r\n] in the
    text normalised for LF. *)
Lemma crcrlf_leaves_crlf_under_LF :
  restoreEOL (normalizeEOL (str "a" ++ [CR; CR; NL] ++ str "b")) LF
  = str "a" ++ [CR; NL] ++ str "b"
  /\ allEndingsIn LF
       (restoreEOL (normalizeEOL (str "a" ++ [CR; CR; NL] ++ str "b")) LF)
     = false.
Proof. split; reflexivity. Qed.

(* ====================================================================== *)
(** * Regular expressions: the matcher decides the language *)
(* ====================================================================== *)

Lemma regex_nullable_nil : forall r,
  Regex.nullable r = true -> Regex.Matches r [].
Proof.
  induction r as [| |p|r1 IH1 r2 IH2|r1 IH1 r2 IH2|r IH]; simpl; intros H;
    try discriminate.
  - constructor.
  - apply andb_true_iff in H as [H1 H2].
    change (@nil char) with (@nil char ++ @nil char).
    constructor; auto.
  - apply orb_true_iff in H as [H|H].
    + apply Regex.MOrL; auto.
    + apply Regex.MOrR; auto.
  - constructor.
Qed.

Lemma regex_nil_nullable : forall r s,
  Regex.Matches r s -> s = [] -> Regex.nullable r = true.
Proof.
  intros r s H.
  induction H as [|p c Hp|r1 r2 u v _ IH1 _ IH2|r1 r2 u _ IH|r1 r2 u _ IH
                 |r|r u v _ _ _ _]; intros Hs; simpl; try reflexivity.
  - discriminate.
  - apply app_eq_nil in Hs as [-> ->]. now rewrite IH1, IH2.
  - now rewrite IH.
  - rewrite IH by assumption. apply orb_true_r.
Qed.

Lemma regex_after_sound : forall r c s,
  Regex.Matches (Regex.after c r) s -> Regex.Matches r (c :: s).
Proof.
  induction r as [| |p|r1 IH1 r2 IH2|r1 IH1 r2 IH2|r IH]; intros c s H;
    simpl in H.
  - inversion H.
  - inversion H.
  - destruct (p c) eqn:Hp; inversion H; subst. now constructor.
  - assert (Hseq : forall w, Regex.Matches (Regex.Seq (Regex.after c r1) r2) w ->
                     Regex.Matches (Regex.Seq r1 r2) (c :: w)).
    { intros w Hw. inversion Hw; subst.
      change (c :: u ++ v) with ((c :: u) ++ v). constructor; auto. }
    destruct (Regex.nullable r1) eqn:Hn.
    + inversion H; subst.
      * now apply Hseq.
      * change (c :: s) with ([] ++ c :: s).
        constructor; [now apply regex_nullable_nil|auto].
    + now apply Hseq.
  - inversion H; subst.
    + apply Regex.MOrL; auto.
    + apply Regex.MOrR; auto.
  - inversion H; subst.
    change (c :: u ++ v) with ((c :: u) ++ v). constructor; auto.
Qed.

Lemma regex_after_complete : forall r w,
  Regex.Matches r w ->
  forall c s, w = c :: s -> Regex.Matches (Regex.after c r) s.
Proof.
  intros r w H.
  induction H as [|p c0 Hp|r1 r2 u v H1 IH1 H2 IH2|r1 r2 u _ IH|r1 r2 u _ IH
                 |r|r u v H1 IH1 H2 IH2]; intros c s Hw; simpl.
  - discriminate.
  - injection Hw as -> <-. rewrite Hp. constructor.
  - destruct u as [|c' u'].
    + simpl in Hw. subst v.
      rewrite (regex_nil_nullable r1 [] H1 eq_refl).
      apply Regex.MOrR. now apply IH2.
    + simpl in Hw. injection Hw as -> <-.
      assert (Hs : Regex.Matches (Regex.Seq (Regex.after c r1) r2) (u' ++ v))
        by (constructor; auto).
      destruct (Regex.nullable r1); [now apply Regex.MOrL|exact Hs].
  - apply Regex.MOrL. now apply IH.
  - apply Regex.MOrR. now apply IH.
  - discriminate.
  - destruct u as [|c' u'].
    + simpl in Hw. now apply IH2.
    + simpl in Hw. injection Hw as -> <-. constructor; auto.
Qed.

Lemma regex_accepts_Matches : forall s r,
  Regex.accepts r s = true <-> Regex.Matches r s.
Proof.
  induction s as [|c s IH]; intros r; simpl.
  - split; [apply regex_nullable_nil|].
    intros H. now apply (regex_nil_nullable r []).
  - rewrite IH. split.
    + apply regex_after_sound.
    + intros H. now apply (regex_after_complete r (c :: s)).
Qed.

Lemma regex_Seq_inv : forall r1 r2 s,
  Regex.Matches (Regex.Seq r1 r2) s
  <-> exists u v, s = u ++ v /\ Regex.Matches r1 u /\ Regex.Matches r2 v.
Proof.
  intros r1 r2 s. split.
  - intros H. inversion H; subst. eauto.
  - intros (u & v & -> & H1 & H2). now constructor.
Qed.


Lemma regex_Class_inv : forall p s,
  Regex.Matches (Regex.Class p) s <-> exists c, s = [c] /\ p c = true.
Proof.
  intros p s. split.
  - intros H. inversion H; subst. eauto.
  - intros (c & -> & Hc). now constructor.
Qed.


Lemma regex_anything : forall s, Regex.Matches Regex.anything s.
Proof.
  induction s as [|c s IH]; [constructor|].
  change (c :: s) with ([c] ++ s). constructor; [now constructor|exact IH].
Qed.

(** A match attempt at the start of [s] succeeds exactly when a prefix of
    [s] is a word of the expression. *)
Lemma regex_matchesHere : forall r s,
  Regex.matchesHere r s = true
  <-> exists p q, s = p ++ q /\ Regex.Matches r p.
Proof.
  intros r s. unfold Regex.matchesHere.
  rewrite regex_accepts_Matches, regex_Seq_inv. split.
  - intros (p & q & Hs & Hp & _). eauto.
  - intros (p & q & Hs & Hp). exists p, q. auto using regex_anything.
Qed.

Lemma regex_word : forall w s, Regex.Matches (Regex.word w) s <-> s = w.
Proof.
  induction w as [|c w IH]; intros s; simpl.
  - split; [intros H; now inversion H|intros ->; constructor].
  - rewrite regex_Seq_inv. split.
    + intros (u & v & -> & Hu & Hv). apply IH in Hv. subst v.
      apply regex_Class_inv in Hu as (d & -> & Hd).
      apply N.eqb_eq in Hd. now subst.
    + intros ->. exists [c], w. repeat split.
      * constructor. apply N.eqb_refl.
      * now apply IH.
Qed.



(* ====================================================================== *)
(** * The header parser follows the header grammar *)
(* ====================================================================== *)

Lemma expect_Some : forall lit s rest,
  expect lit s = Some rest <-> s = lit ++ rest.
Proof.
  induction lit as [|c lit IH]; intros s rest; simpl.
  - split; congruence.
  - destruct s as [|d s].
    + split; discriminate.
    + destruct (c =? d)%N eqn:Hcd.
      * apply N.eqb_eq in Hcd. subst d. rewrite IH. split; congruence.
      * apply N.eqb_neq in Hcd. split; [discriminate|congruence].
Qed.











(* ====================================================================== *)
(** * Hunk parser *)
(* ====================================================================== *)

Lemma parseHunk_bad : forall raw,
  matchHeader (headerOf raw) = None ->
  parseHunk raw = Throw (invalidHunkHeader (headerOf raw)).
Proof.
  intros raw H. unfold parseHunk. fold (headerOf raw). now rewrite H.
Qed.

Lemma parseHunk_good : forall raw,
  matchHeader (headerOf raw) <> None ->
  exists hunk, parseHunk raw = Ok hunk
               /\ header hunk = headerOf raw
               /\ body hunk = sliceFrom (splitLines raw) 1.
Proof.
  intros raw H. unfold parseHunk. fold (headerOf raw).
  destruct (matchHeader (headerOf raw)) as [[[[m1 m2] m3] m4]|]; [|congruence].
  eexists. repeat split.
Qed.


Lemma parseParts_all_good : forall parts hunks,
  Forall (fun r => matchHeader (headerOf r) <> None) parts ->
  exists parsed,
    parseParts parts hunks = Ok (hunks ++ parsed)
    /\ map header parsed = map headerOf parts
    /\ map body parsed = map (fun r => sliceFrom (splitLines r) 1) parts.
Proof.
  induction parts as [|r parts IH]; intros hunks Hall; simpl.
  - exists []. now rewrite app_nil_r.
  - inversion Hall as [|r0 parts0 Hr Hrest]; subst.
    destruct (parseHunk_good r Hr) as (hunk & -> & Hh & Hb).
    destruct (IH (hunks ++ [hunk]) Hrest) as (parsed & -> & Hhs & Hbs).
    exists (hunk :: parsed). rewrite <- app_assoc. simpl.
    now rewrite Hh, Hb, Hhs, Hbs.
Qed.

(** The body lines of parsed hunks hold no newline. *)
Lemma parseParts_bodies : forall parts hunks parsed,
  parseParts parts hunks = Ok parsed ->
  Forall (fun h => Forall noNewline (body h)) hunks ->
  Forall (fun h => Forall noNewline (body h)) parsed.
Proof.
  induction parts as [|raw parts IH]; intros hunks parsed; simpl.
  - intros H. now injection H as <-.
  - destruct (matchHeader (headerOf raw)) as [g|] eqn:Hm.
    + destruct (parseHunk_good raw) as (hunk & Hp & _ & Hb); [congruence|].
      rewrite Hp. intros H Hall. apply (IH _ _ H).
      apply Forall_app. split; [exact Hall|].
      constructor; [|constructor]. rewrite Hb. unfold sliceFrom.
      apply Forall_forall. intros l Hl.
      pose proof (splitLines_noNewline raw) as Hraw.
      rewrite Forall_forall in Hraw. apply Hraw.
      rewrite <- (firstn_skipn 1). apply in_or_app. now right.
    + rewrite (parseHunk_bad raw Hm). discriminate.
Qed.

Lemma parseHunks_bodies : forall diffText hunks,
  parseHunks diffText = Ok hunks ->
  Forall (fun h => Forall noNewline (body h)) hunks.
Proof.
  intros diffText hunks H. apply (parseParts_bodies _ _ _ H). constructor.
Qed.





(* ====================================================================== *)
(** * Detection heuristic *)
(* ====================================================================== *)

Lemma testAtLineStarts_spec : forall r s lineStart,
  testAtLineStarts r lineStart s = true
  <-> (lineStart = true /\ Regex.matchesHere r s = true)
      \/ (exists pre c rest,
            s = pre ++ c :: rest /\ isLineTerminator c = true
            /\ Regex.matchesHere r rest = true).
Proof.
  intros r. induction s as [|c s IH]; intros lineStart; simpl.
  - rewrite orb_false_r, andb_true_iff. split.
    + auto.
    + intros [H|(pre & c & rest & Hs & _)]; [exact H|].
      destruct pre; discriminate.
  - rewrite orb_true_iff, andb_true_iff, IH. split.
    + intros [H|[[Hc Hm]|(pre & d & rest & -> & Hd & Hm)]].
      * now left.
      * right. exists [], c, s. auto.
      * right. exists (c :: pre), d, rest. auto.
    + intros [H|(pre & d & rest & Hs & Hd & Hm)]; [now left|].
      right. destruct pre as [|c' pre]; simpl in Hs; injection Hs as -> ->.
      * now left.
      * right. exists pre, d, rest. auto.
Qed.

Lemma testAtLineStarts_MatchAtLineStart : forall r s,
  testAtLineStarts r true s = true <-> MatchAtLineStart r s.
Proof.
  intros r s. rewrite testAtLineStarts_spec. unfold MatchAtLineStart. split.
  - intros [[_ H]|(pre & c & rest & -> & Hc & H)];
      apply regex_matchesHere in H as (p & q & -> & Hp).
    + exists [], p, q. repeat split; [exact Hp|now left].
    + exists (pre ++ [c]), p, q. repeat split.
      * now rewrite <- app_assoc.
      * exact Hp.
      * right. exists pre, c. split; [reflexivity|exact Hc].
  - intros (pre & p & q & -> & Hp & [->|(pre' & c & -> & Hc)]).
    + left. split; [reflexivity|]. apply regex_matchesHere.
      exists p, q. split; [reflexivity|exact Hp].
    + right. exists pre', c, (p ++ q). repeat split.
      * now rewrite <- app_assoc.
      * exact Hc.
      * apply regex_matchesHere. exists p, q. split; [reflexivity|exact Hp].
Qed.

(** What the pre-check computes: the text is not empty and either starts
    with [@@], a white-space code unit and [-], or has a match of the
    file-header pair starting at a line start. *)
Lemma isLikelyUnifiedDiff_spec : forall s,
  isLikelyUnifiedDiff s = true
  <-> s <> []
      /\ ((exists p q, s = p ++ q /\ Regex.Matches reHunkStart p)
          \/ MatchAtLineStart reFileHeaders s).
Proof.
  intros s. unfold isLikelyUnifiedDiff, testAtStart.
  destruct s as [|c s].
  - split; [discriminate|]. intros [H _]. congruence.
  - rewrite orb_true_iff, regex_matchesHere, testAtLineStarts_MatchAtLineStart.
    split.
    + intros H. split; [discriminate|exact H].
    + intros [_ H]. exact H.
Qed.

(** C8 (the code at the failing input). The text [diffAfterPreamble] has a
    hunk header [@@ -] at the start of its second line, and the parser
    finds that hunk, yet the pre-check answers [false]. *)
Theorem isLikelyUnifiedDiff_misses_later_hunk :
  MatchAtLineStart reHunkStart diffAfterPreamble
  /\ parseHunks diffAfterPreamble
     = Ok [mkHunk (str "@@ -1 +1 @@") (strs ["-a"; "+A"]) 1 None 1 None]
  /\ isLikelyUnifiedDiff diffAfterPreamble = false.
Proof.
  split; [|split; reflexivity].
  apply testAtLineStarts_MatchAtLineStart. reflexivity.
Qed.

(* ====================================================================== *)
(** * The examples of the specification *)
(* ====================================================================== *)

Example single_hunk_exact_match :
  applyDiffPatch (text ["a"; "b"; "c"; ""])
    (text ["@@ -1,3 +1,3 @@"; " a"; "-b"; "+B"; " c"]) LF
  = Ok (text ["a"; "B"; "c"; ""]).
Proof. reflexivity. Qed.

Example pure_insertion_hunk :
  applyDiffPatch (text ["x"; "y"; ""])
    (text ["@@ -1,2 +1,3 @@"; " x"; "+NEW"; " y"]) LF
  = Ok (text ["x"; "NEW"; "y"; ""]).
Proof. reflexivity. Qed.

Example verification_rejects_mismatch :
  findBestWindow (strs ["a"; "Z"; "c"; ""]) (strs ["a"; "b"; "c"]) 0 = Some 0
  /\ applyDiffPatch (text ["a"; "Z"; "c"; ""])
       (text ["@@ -1,3 +1,3 @@"; " a"; "-b"; "+B"; " c"]) LF
     = Throw (couldNotApplyHunk (str "@@ -1,3 +1,3 @@")).
Proof. split; reflexivity. Qed.

Example monotonic_cursor_across_hunks :
  applyDiffPatch (text ["a"; "b"])
    (text ["@@ -1 +1 @@"; "-a"; "+b"; "@@ -2 +2 @@"; "-b"; "+c"]) LF
  = Ok (text ["b"; "c"]).
Proof. reflexivity. Qed.

Example ties_keep_the_first_candidate :
  findBestWindow (strs ["x"; "a"; "y"; "a"]) (strs ["a"; "b"]) 0 = Some 1.
Proof. reflexivity. Qed.

Example score_zero_is_accepted :
  findBestWindow (strs ["p"; "q"]) (strs ["z"]) 0 = Some 0
  /\ findBestWindow (strs ["p"; "q"]) (strs ["z"]) 3 = None.
Proof. split; reflexivity. Qed.

Example malformed_header_rejection :
  applyDiffPatch (text ["a"; "b"; "c"]) diffWithGarbage LF
  = Throw (invalidHunkHeader (str "@@ garbage @@")).
Proof. reflexivity. Qed.

Example crlf_document_keeps_crlf :
  applyDiffPatch (str "a" ++ [CR; NL] ++ str "b" ++ [CR; NL])
    (text ["@@ -1,2 +1,2 @@"; " a"; "-b"; "+B"]) CRLF
  = Ok (str "a" ++ [CR; NL] ++ str "B" ++ [CR; NL]).
Proof. reflexivity. Qed.

Example file_headers_need_not_be_adjacent :
  isLikelyUnifiedDiff (text ["---"; "x"; "+++"; "y"]) = true.
Proof. reflexivity. Qed.

(* ====================================================================== *)
(** * Further properties of the matcher and the applier *)
(* ====================================================================== *)

Lemma scoreSequence_count : forall window target,
  scoreSequence window target
  = length (filter (fun j => elemEq2 (nth_error window j) (nth_error target j))
              (seq 0 (Nat.min (length window) (length target)))).
Proof. intros. unfold scoreSequence. now rewrite count_fold. Qed.

Lemma scoreSequence_bound : forall window target,
  scoreSequence window target <= Nat.min (length window) (length target).
Proof.
  intros. rewrite scoreSequence_count.
  etransitivity; [apply filter_length_le|]. now rewrite length_seq.
Qed.

(** A score as long as the target means the target heads the window. *)
Lemma scoreSequence_perfect : forall window target,
  scoreSequence window target = length target
  <-> firstn (length target) window = target.
Proof.
  intros window target. split.
  - intros H.
    pose proof (scoreSequence_bound window target) as Hb.
    assert (Hmin : Nat.min (length window) (length target) = length target)
      by lia.
    rewrite scoreSequence_count, Hmin in H.
    assert (Hall : forallb
              (fun j => elemEq2 (nth_error window j) (nth_error target j))
              (seq 0 (length target)) = true).
    { apply filter_length_forallb. now rewrite length_seq. }
    rewrite forallb_forall in Hall.
    apply nth_error_ext. intros j. rewrite nth_error_firstn.
    destruct (j <? length target)%nat eqn:Hj.
    + apply Nat.ltb_lt in Hj. apply elemEq2_eq, Hall, in_seq. lia.
    + apply Nat.ltb_ge in Hj. symmetry. now apply nth_error_None.
  - intros H.
    assert (Hlen : length target <= length window).
    { apply (f_equal (@length jsstring)) in H.
      rewrite length_firstn in H. lia. }
    rewrite scoreSequence_count.
    replace (Nat.min (length window) (length target)) with (length target)
      by lia.
    rewrite forallb_filter_id; [now rewrite length_seq|].
    apply forallb_forall. intros j Hj. apply in_seq in Hj.
    apply elemEq2_eq.
    transitivity (nth_error (firstn (length target) window) j);
      [|now rewrite H].
    rewrite nth_error_firstn.
    destruct (j <? length target)%nat eqn:Hlt; [reflexivity|].
    apply Nat.ltb_ge in Hlt. lia.
Qed.

Lemma windowScore_perfect : forall doc oldBlock i,
  windowScore doc oldBlock i = length oldBlock
  <-> slice doc i (i + length oldBlock) = oldBlock.
Proof.
  intros doc oldBlock i.
  rewrite <- scoreSequence_window, scoreSequence_perfect, slice_window.
  rewrite firstn_firstn, Nat.min_id. reflexivity.
Qed.

(** X1. Scoring: the score never exceeds the shorter length, it does not
    depend on which array is called the window, and it reaches the length
    of the target exactly when the target heads the window. *)
Theorem scoreSequence_perfect_iff_prefix : forall window target,
  scoreSequence window target <= Nat.min (length window) (length target)
  /\ scoreSequence window target = scoreSequence target window
  /\ (scoreSequence window target = length target
      <-> firstn (length target) window = target).
Proof.
  intros window target. split; [apply scoreSequence_bound|].
  split; [|apply scoreSequence_perfect].
  rewrite !scoreSequence_count, Nat.min_comm. f_equal.
  apply filter_ext. intros j.
  destruct (nth_error window j), (nth_error target j); simpl; try reflexivity.
  destruct (strictEq j0 j1) eqn:E.
  - apply strictEq_eq in E. subst. symmetry. now apply strictEq_eq.
  - destruct (strictEq j1 j0) eqn:E'; [|reflexivity].
    apply strictEq_eq in E'. subst.
    rewrite (proj2 (strictEq_eq j0 j0) eq_refl) in E. discriminate.
Qed.

Lemma applySingleHunk_is_Some : forall docText hunk startLine m,
  findBestWindow (splitLines docText) (oldLines (body hunk)) startLine = Some m ->
  verifyRemovals (splitLines docText) m (body hunk) = true ->
  applySingleHunk docText hunk startLine
  = Some (mkApplied
            (joinLines (splice (splitLines docText) m
                          (oldLines (body hunk)) (newLines (body hunk))))
            (m + length (newLines (body hunk)))).
Proof.
  intros docText hunk startLine m Hfind Hv. unfold applySingleHunk.
  rewrite buildBlocks_lines, Hfind, Hv. cbn [negb].
  unfold splice, slice, sliceFrom. now rewrite Nat.sub_0_r.
Qed.

(** The best window of a search that has an exact occurrence in range is
    the first exact occurrence. *)
Lemma findBestWindow_first_occurrence : forall doc oldBlock startLine i,
  startLine <= i -> Occurs doc oldBlock i ->
  exists m, findBestWindow doc oldBlock startLine = Some m
            /\ startLine <= m <= i /\ Occurs doc oldBlock m.
Proof.
  intros doc oldBlock startLine i Hi [Hlen Hocc].
  destruct (findBestWindow doc oldBlock startLine) as [m|] eqn:Hfind.
  - pose proof Hfind as Hbest. apply findBestWindow_Some in Hbest.
    destruct Hbest as (Hr & Hmax & Hfirst).
    apply windowScore_perfect in Hocc.
    pose proof (windowScore_le doc oldBlock m) as Hle.
    assert (Hperfect : windowScore doc oldBlock m = length oldBlock).
    { specialize (Hmax i). lia. }
    exists m. split; [reflexivity|]. split.
    + destruct (le_lt_dec m i) as [H|H]; [lia|].
      specialize (Hfirst i). lia.
    + split; [lia|now apply windowScore_perfect].
  - apply findBestWindow_None in Hfind. lia.
Qed.

(** X2. The fuzzy search applies nothing inexact: a hunk applies exactly
    when its old block stands verbatim in the document at some index from
    the search start on, and it is then applied at the first such index. *)
Theorem applySingleHunk_iff_exact_occurrence : forall docText hunk startLine,
  ((exists res, applySingleHunk docText hunk startLine = Some res)
   <-> exists i, startLine <= i
                 /\ Occurs (splitLines docText) (oldLines (body hunk)) i)
  /\ (forall res,
        applySingleHunk docText hunk startLine = Some res ->
        exists m,
          startLine <= m
          /\ Occurs (splitLines docText) (oldLines (body hunk)) m
          /\ (forall i, startLine <= i < m ->
                ~ Occurs (splitLines docText) (oldLines (body hunk)) i)
          /\ res = mkApplied
                 (joinLines (splice (splitLines docText) m
                               (oldLines (body hunk)) (newLines (body hunk))))
                 (m + length (newLines (body hunk)))).
Proof.
  intros docText hunk startLine.
  assert (Hsome : forall res,
            applySingleHunk docText hunk startLine = Some res ->
            exists m,
              startLine <= m
              /\ Occurs (splitLines docText) (oldLines (body hunk)) m
              /\ (forall i, startLine <= i < m ->
                    ~ Occurs (splitLines docText) (oldLines (body hunk)) i)
              /\ res = mkApplied
                     (joinLines (splice (splitLines docText) m
                                   (oldLines (body hunk)) (newLines (body hunk))))
                     (m + length (newLines (body hunk)))).
  { intros res Happ.
    destruct (applySingleHunk_Some docText hunk startLine res Happ)
      as (m & Hfind & Hv & ->).
    destruct (matched_window_in_document _ _ _ _ Hfind Hv) as (Hle & Hin & Hwin).
    exists m. repeat split; try assumption; try lia.
    intros i Hi Hocc.
    destruct (findBestWindow_first_occurrence _ _ startLine i (proj1 Hi) Hocc)
      as (m' & Hfind' & Hm' & _).
    rewrite Hfind in Hfind'. injection Hfind' as <-. lia. }
  split; [|exact Hsome]. split.
  - intros (res & Happ).
    destruct (Hsome res Happ) as (m & Hle & Hocc & _). eauto.
  - intros (i & Hi & Hocc).
    destruct (findBestWindow_first_occurrence _ _ startLine i Hi Hocc)
      as (m & Hfind & _ & _ & Hwin).
    apply verifyRemovals_window in Hwin.
    rewrite (applySingleHunk_is_Some docText hunk startLine m Hfind Hwin).
    eauto.
Qed.

Lemma splice_same : forall lines m oldBlock,
  slice lines m (m + length oldBlock) = oldBlock ->
  splice lines m oldBlock oldBlock = lines.
Proof.
  intros lines m oldBlock H. unfold splice.
  remember (length oldBlock) as n eqn:Hn. rewrite <- H, slice_window.
  replace (m + n) with (n + m) by lia.
  rewrite <- skipn_skipn, firstn_skipn. apply firstn_skipn.
Qed.

Lemma keepsText_step : forall docText hunk cursor res,
  keepsText hunk ->
  applySingleHunk docText hunk cursor = Some res ->
  content res = docText.
Proof.
  intros docText hunk cursor res Hkeep Happ.
  destruct (applySingleHunk_Some docText hunk cursor res Happ)
    as (m & Hfind & Hv & ->).
  apply verifyRemovals_window in Hv. unfold keepsText in Hkeep.
  cbn [content]. rewrite Hkeep, splice_same by assumption.
  apply joinLines_splitLines.
Qed.

Lemma keepsText_run : forall hunks doc cursor doc' cursor',
  Forall keepsText hunks ->
  Applies hunks doc cursor doc' cursor' -> doc' = doc.
Proof.
  intros hunks doc cursor doc' cursor' Hall Hrun.
  induction Hrun as [|h rest d c res d' c' Happ _ IH]; [reflexivity|].
  inversion Hall as [|h0 rest0 Hh Hrest]; subst.
  rewrite (IH Hrest). now apply (keepsText_step d h c).
Qed.

(** X3. Hunks whose new block is their old block (context only, or lines
    deleted and added back) change nothing: a run of them that applies
    leaves the working text as it was, and [applyDiffPatch] returns the
    normalised document restored to the requested line ending. *)
Theorem keepsText_hunks_change_nothing : forall hunks,
  Forall keepsText hunks ->
  (forall doc cursor doc' cursor',
     applyHunks hunks doc cursor = Ok (doc', cursor') -> doc' = doc)
  /\ (forall documentContent rawDiff eol patched,
        parseHunks (normalizeEOL rawDiff) = Ok hunks ->
        applyDiffPatch documentContent rawDiff eol = Ok patched ->
        patched = restoreEOL (normalizeEOL documentContent) eol).
Proof.
  intros hunks Hall.
  assert (Hrun : forall doc cursor doc' cursor',
            applyHunks hunks doc cursor = Ok (doc', cursor') -> doc' = doc).
  { intros doc cursor doc' cursor' H. apply applyHunks_Ok in H.
    now apply (keepsText_run hunks doc cursor doc' cursor'). }
  split; [exact Hrun|].
  intros documentContent rawDiff eol patched Hparse.
  unfold applyDiffPatch. rewrite Hparse.
  destruct (length hunks =? 0)%nat; [congruence|].
  destruct (applyHunks hunks (normalizeEOL documentContent) 0)
    as [[doc cursor]|message] eqn:Hfold; [|discriminate].
  intros H. injection H as <-. now rewrite (Hrun _ _ _ _ Hfold).
Qed.

Lemma keepsText_hunks_change_nothing_witness :
  applyDiffPatch (text ["a"; "b"; "c"])
    (text ["@@ -1,2 +1,2 @@"; " a"; "-b"; "+b"]) LF
  = Ok (text ["a"; "b"; "c"])
  /\ text ["a"; "b"; "c"] = restoreEOL (normalizeEOL (text ["a"; "b"; "c"])) LF.
Proof.
  split; [reflexivity|].
  assert (Hkeep : Forall keepsText
            [mkHunk (str "@@ -1,2 +1,2 @@") (strs [" a"; "-b"; "+b"])
               1 (Some 2%N) 1 (Some 2%N)])
    by (constructor; [reflexivity|constructor]).
  apply (proj2 (keepsText_hunks_change_nothing _ Hkeep)
           (text ["a"; "b"; "c"])
           (text ["@@ -1,2 +1,2 @@"; " a"; "-b"; "+b"]) LF);
    reflexivity.
Defined.

(** X4. A hunk without context and deletion lines is an insertion at the
    cursor: it applies exactly when the cursor is no greater than the
    number of lines, puts its added lines in front of the line at the
    cursor, and leaves the cursor behind them. *)
Theorem pure_insertion_at_cursor : forall docText hunk startLine,
  oldLines (body hunk) = [] ->
  (startLine <= length (splitLines docText) ->
   applySingleHunk docText hunk startLine
   = Some (mkApplied
             (joinLines (firstn startLine (splitLines docText)
                         ++ newLines (body hunk)
                         ++ skipn startLine (splitLines docText)))
             (startLine + length (newLines (body hunk)))))
  /\ (length (splitLines docText) < startLine ->
      applySingleHunk docText hunk startLine = None).
Proof.
  intros docText hunk startLine Hold. split.
  - intros Hle.
    assert (Hocc : Occurs (splitLines docText) (oldLines (body hunk)) startLine).
    { split; [exact Hle|]. rewrite Hold, slice_window. reflexivity. }
    destruct (findBestWindow_first_occurrence _ _ startLine startLine
                (Nat.le_refl _) Hocc) as (m & Hfind & Hm & _ & Hwin).
    assert (m = startLine) by lia. subst m.
    apply verifyRemovals_window in Hwin.
    rewrite (applySingleHunk_is_Some docText hunk startLine startLine Hfind Hwin).
    unfold splice. rewrite Hold. simpl length. now rewrite Nat.add_0_r.
  - intros Hlt. unfold applySingleHunk.
    rewrite buildBlocks_lines.
    now rewrite (proj2 (findBestWindow_None _ _ startLine) Hlt).
Qed.

Lemma pure_insertion_at_cursor_witness :
  applySingleHunk (text ["a"; "b"]) (hunkOf "@@ -0,0 +1 @@" ["+x"]) 1
  = Some (mkApplied (text ["a"; "x"; "b"]) 2)
  /\ applySingleHunk (text ["a"; "b"]) (hunkOf "@@ -0,0 +1 @@" ["+x"]) 3
     = None.
Proof.
  split.
  - apply (proj1 (pure_insertion_at_cursor (text ["a"; "b"])
                    (hunkOf "@@ -0,0 +1 @@" ["+x"]) 1 eq_refl)).
    simpl. lia.
  - apply (proj2 (pure_insertion_at_cursor (text ["a"; "b"])
                    (hunkOf "@@ -0,0 +1 @@" ["+x"]) 3 eq_refl)).
    simpl. lia.
Defined.

Lemma length_splice : forall lines m oldBlock newBlock,
  m + length oldBlock <= length lines ->
  length (splice lines m oldBlock newBlock)
  = length lines - length oldBlock + length newBlock.
Proof.
  intros lines m oldBlock newBlock H. unfold splice.
  rewrite !length_app, length_firstn, length_skipn. lia.
Qed.

Lemma applySingleHunk_cursor_in_range : forall docText hunk cursor res,
  Forall noNewline (body hunk) ->
  applySingleHunk docText hunk cursor = Some res ->
  lastAppliedLine res <= length (splitLines (content res)).
Proof.
  intros docText hunk cursor res Hbody Happ.
  destruct (applySingleHunk_Some docText hunk cursor res Happ)
    as (m & Hfind & Hv & ->).
  destruct (matched_window_in_document _ _ _ _ Hfind Hv) as (_ & Hin & _).
  cbn [content lastAppliedLine].
  pose proof (length_splice (splitLines docText) m (oldLines (body hunk))
                (newLines (body hunk)) Hin) as Hlen.
  remember (splice (splitLines docText) m (oldLines (body hunk))
              (newLines (body hunk))) as merged eqn:Hmerged.
  destruct merged as [|l merged].
  - simpl in Hlen. simpl. lia.
  - rewrite splitLines_joinLines.
    + lia.
    + discriminate.
    + rewrite Hmerged. apply splice_noNewline.
      * apply splitLines_noNewline.
      * now apply newLines_noNewline.
Qed.

Lemma Applies_cursor_in_range : forall hunks doc cursor doc' cursor',
  Applies hunks doc cursor doc' cursor' ->
  bodiesOnOneLine hunks ->
  cursor <= length (splitLines doc) ->
  cursor' <= length (splitLines doc').
Proof.
  intros hunks doc cursor doc' cursor' H.
  induction H as [|h rest d c res d' c' Happ _ IH]; intros Hall Hc;
    [exact Hc|].
  inversion Hall as [|h0 rest0 Hh Hrest]; subst.
  apply IH; [exact Hrest|].
  now apply (applySingleHunk_cursor_in_range d h c).
Qed.

(** X5. Within one [applyDiffPatch] the cursor never leaves the document:
    after any run of parsed hunks it is at most the number of lines of the
    working text, so the search of the next hunk always has a candidate
    and a hunk is only ever refused by the removal check. *)
Theorem cursor_stays_in_document : forall documentContent rawDiff hunks,
  parseHunks (normalizeEOL rawDiff) = Ok hunks ->
  forall pre hunk post doc cursor,
    hunks = pre ++ hunk :: post ->
    applyHunks pre (normalizeEOL documentContent) 0 = Ok (doc, cursor) ->
    cursor <= length (splitLines doc)
    /\ (exists m,
          findBestWindow (splitLines doc) (oldLines (body hunk)) cursor = Some m)
    /\ (applySingleHunk doc hunk cursor = None ->
        exists m,
          findBestWindow (splitLines doc) (oldLines (body hunk)) cursor = Some m
          /\ verifyRemovals (splitLines doc) m (body hunk) = false).
Proof.
  intros documentContent rawDiff hunks Hparse pre hunk post doc cursor -> Hrun.
  apply parseHunks_bodies in Hparse. unfold bodiesOnOneLine in *.
  apply Forall_app in Hparse as [Hpre _].
  apply applyHunks_Ok in Hrun.
  assert (Hc : cursor <= length (splitLines doc)).
  { apply (Applies_cursor_in_range pre _ 0 doc cursor Hrun Hpre). lia. }
  assert (Hfound : exists m,
            findBestWindow (splitLines doc) (oldLines (body hunk)) cursor
            = Some m).
  { destruct (findBestWindow (splitLines doc) (oldLines (body hunk)) cursor)
      as [m|] eqn:Hfind; [eauto|].
    apply findBestWindow_None in Hfind. lia. }
  repeat split; try assumption.
  destruct Hfound as (m & Hfind). intros Hnone. exists m.
  split; [exact Hfind|].
  destruct (verifyRemovals (splitLines doc) m (body hunk)) eqn:Hv;
    [|reflexivity].
  rewrite (applySingleHunk_is_Some doc hunk cursor m Hfind Hv) in Hnone.
  discriminate.
Qed.

Lemma cursor_stays_in_document_witness :
  2 <= length (splitLines (text ["A"; "B"; "c"]))
  /\ (exists m,
        findBestWindow (splitLines (text ["A"; "B"; "c"]))
          (oldLines (strs ["-x"; "+X"])) 2 = Some m).
Proof.
  destruct (cursor_stays_in_document (text ["a"; "b"; "c"])
              (text ["@@ -1,2 +1,2 @@"; "-a"; "-b"; "+A"; "+B";
                     "@@ -3 +3 @@"; "-x"; "+X"])
              _ eq_refl
              [mkHunk (str "@@ -1,2 +1,2 @@")
                 (strs ["-a"; "-b"; "+A"; "+B"; ""]) 1 (Some 2%N) 1 (Some 2%N)]
              (mkHunk (str "@@ -3 +3 @@") (strs ["-x"; "+X"]) 3 None 3 None)
              [] (text ["A"; "B"; "c"]) 2 eq_refl eq_refl)
    as (Hc & Hfound & _).
  split; assumption.
Defined.

(** X6. An empty body line, such as the artefact a trailing newline
    leaves behind the last line of a block, is skipped wherever a body is
    read: the blocks, the verifier and the application of the hunk are
    those of the body without it. *)
Theorem empty_line_skipped : forall b1 b2,
  buildBlocks (b1 ++ [] :: b2) = buildBlocks (b1 ++ b2)
  /\ (forall doc start,
        verifyRemovals doc start (b1 ++ [] :: b2)
        = verifyRemovals doc start (b1 ++ b2))
  /\ (forall docText hunk startLine,
        body hunk = b1 ++ [] :: b2 ->
        applySingleHunk docText hunk startLine
        = applySingleHunk docText (withBody hunk (b1 ++ b2)) startLine).
Proof.
  intros b1 b2.
  assert (Hold : oldLines (b1 ++ [] :: b2) = oldLines (b1 ++ b2))
    by (unfold oldLines; now rewrite filter_skip_middle).
  assert (Hnew : newLines (b1 ++ [] :: b2) = newLines (b1 ++ b2))
    by (unfold newLines; now rewrite filter_skip_middle).
  repeat split.
  - now rewrite !buildBlocks_lines, Hold, Hnew.
  - intros. now apply verifyRemovals_skip_middle.
  - intros docText hunk startLine Hb.
    apply applySingleHunk_body; simpl; rewrite Hb; try assumption.
    intros. now apply verifyRemovals_skip_middle.
Qed.

(* ====================================================================== *)
(** * Further properties of the line normaliser *)
(* ====================================================================== *)

Lemma crlfOfLf_head : forall s d rest, crlfOfLf s = d :: rest -> d <> NL.
Proof.
  intros [|c s] d rest; simpl; [discriminate|].
  destruct (c =? NL)%N eqn:Hc; intros H; injection H as <- _.
  - discriminate.
  - now apply N.eqb_neq.
Qed.

Lemma normalizeEOL_cons_other : forall c s,
  (forall d rest, s = d :: rest -> d <> NL) ->
  normalizeEOL (c :: s) = c :: normalizeEOL s.
Proof.
  intros c [|d rest] H; [reflexivity|].
  rewrite normalizeEOL_cons2.
  specialize (H d rest eq_refl). apply N.eqb_neq in H.
  now rewrite H, andb_false_r.
Qed.

(** Normalising what was restored to CRLF gives the text back. *)
Lemma normalizeEOL_crlfOfLf : forall s, normalizeEOL (crlfOfLf s) = s.
Proof.
  induction s as [|c s IH]; [reflexivity|]. simpl.
  destruct (c =? NL)%N eqn:Hc.
  - apply N.eqb_eq in Hc. subst c.
    rewrite normalizeEOL_cons2. simpl. now rewrite IH.
  - rewrite normalizeEOL_cons_other; [now rewrite IH|].
    intros d rest. apply crlfOfLf_head.
Qed.

Lemma length_normalizeEOL : forall s, length (normalizeEOL s) <= length s.
Proof.
  induction s as [| c | c d t IHt IHd] using list_ind2; try (simpl; lia).
  rewrite normalizeEOL_cons2.
  destruct ((c =? CR) && (d =? NL))%N; simpl length in *; lia.
Qed.

(** A text without [\r\n] is its own normal form. *)
Lemma normalizeEOL_fixed : forall s prev,
  endingsFrom LF prev s = true -> normalizeEOL s = s.
Proof.
  induction s as [| c | c d t IHt IHd] using list_ind2; intros prev H;
    try reflexivity.
  rewrite normalizeEOL_cons2.
  cbn [endingsFrom] in H. apply andb_true_iff in H as [_ H].
  pose proof H as Hd. apply andb_true_iff in Hd as [Hd _].
  destruct ((c =? CR) && (d =? NL))%N eqn:Hpair.
  - apply andb_true_iff in Hpair as [Hc Hdn].
    rewrite Hdn, Hc in Hd. discriminate.
  - f_equal. apply (IHd (Some c)). exact H.
Qed.

(** A text with a [\r\n] is shortened by normalisation. *)
Lemma normalizeEOL_shortens : forall s prev,
  endingsFrom LF prev s = false ->
  (exists rest, prev = Some CR /\ s = NL :: rest)
  \/ length (normalizeEOL s) < length s.
Proof.
  induction s as [| c | c d t IHt IHd] using list_ind2; intros prev H.
  - discriminate.
  - left. simpl in H. rewrite andb_true_r in H.
    destruct (c =? NL)%N eqn:Hc; [|discriminate].
    apply N.eqb_eq in Hc. subst c.
    destruct prev as [p|]; [|discriminate].
    apply negb_false_iff, N.eqb_eq in H. subst p. eauto.
  - cbn [endingsFrom] in H. apply andb_false_iff in H as [H|H].
    + left. destruct (c =? NL)%N eqn:Hc; [|discriminate].
      apply N.eqb_eq in Hc. subst c.
      destruct prev as [p|]; [|discriminate].
      apply negb_false_iff, N.eqb_eq in H. subst p. eauto.
    + right. rewrite normalizeEOL_cons2.
      pose proof (length_normalizeEOL t) as Ht.
      destruct ((c =? CR) && (d =? NL))%N eqn:Hpair;
        [simpl length; lia|].
      destruct (IHd (Some c) H) as [(rest & Hc & Hd)|Hlt].
      * injection Hc as ->. injection Hd as -> _. discriminate.
      * simpl length in *. lia.
Qed.

(** Restoring CRLF to the normal form of a text whose every [\n] follows
    a [\r] gives the text back. *)
Lemma crlfOfLf_normalizeEOL : forall s prev,
  endingsFrom CRLF prev s = true ->
  (forall rest, s <> NL :: rest) ->
  crlfOfLf (normalizeEOL s) = s.
Proof.
  induction s as [| c | c d t IHt IHd] using list_ind2; intros prev H Hhead.
  - reflexivity.
  - simpl. destruct (c =? NL)%N eqn:Hc; [|reflexivity].
    apply N.eqb_eq in Hc. subst c. now contradiction (Hhead []).
  - assert (Hc : (c =? NL)%N = false).
    { apply N.eqb_neq. intros ->. now apply (Hhead (d :: t)). }
    cbn [endingsFrom] in H. rewrite Hc in H. cbn [andb] in H.
    pose proof H as Hd. apply andb_true_iff in Hd as [Hd Ht].
    rewrite normalizeEOL_cons2.
    destruct ((c =? CR) && (d =? NL))%N eqn:Hpair.
    + apply andb_true_iff in Hpair as [Hcr Hdn].
      apply N.eqb_eq in Hcr, Hdn. subst c d.
      simpl. f_equal. f_equal. apply (IHt (Some NL)); [exact Ht|].
      intros rest ->. simpl in Ht. discriminate.
    + simpl. rewrite Hc. f_equal. apply (IHd (Some c)); [exact H|].
      intros rest E. injection E as -> _.
      simpl (NL =? NL)%N in Hd. cbv iota in Hd.
      rewrite Hd in Hpair. discriminate.
Qed.

(** X7. A document whose line endings all have the form of the editor's
    end-of-line setting goes through normalisation and restoration
    unchanged, so the comparison of the patched text with the original
    sees only what the hunks did. *)
Theorem uniform_document_roundtrip : forall documentContent eol,
  allEndingsIn eol documentContent = true ->
  restoreEOL (normalizeEOL documentContent) eol = documentContent.
Proof.
  intros documentContent eol H. destruct eol; simpl.
  - now apply (normalizeEOL_fixed documentContent None).
  - apply (crlfOfLf_normalizeEOL documentContent None H).
    intros rest ->. simpl in H. discriminate.
Qed.

Lemma uniform_document_roundtrip_witness :
  restoreEOL (normalizeEOL (str "a" ++ [CR; NL] ++ str "b" ++ [CR; NL])) CRLF
  = str "a" ++ [CR; NL] ++ str "b" ++ [CR; NL].
Proof.
  apply (uniform_document_roundtrip
           (str "a" ++ [CR; NL] ++ str "b" ++ [CR; NL]) CRLF).
  reflexivity.
Defined.

(** X8. Normalising is a left inverse of restoring: a text restored to
    CRLF and normalised again is the text, whatever it holds. And a text is
    its own normal form exactly when no [\n] of it follows a [\r]. *)
Theorem normalizeEOL_restoreEOL : forall s,
  normalizeEOL (restoreEOL s CRLF) = s
  /\ (normalizeEOL s = s <-> allEndingsIn LF s = true).
Proof.
  intros s. split; [apply normalizeEOL_crlfOfLf|]. split.
  - intros H. destruct (allEndingsIn LF s) eqn:E; [reflexivity|].
    destruct (normalizeEOL_shortens s None E) as [(rest & Hp & _)|Hlt];
      [discriminate|].
    rewrite H in Hlt. lia.
  - apply normalizeEOL_fixed.
Qed.

(** X9. The end-of-line setting decides only the last conversion: with
    CRLF [applyDiffPatch] throws what it throws with LF, and a text it
    returns normalises to the text returned with LF. *)
Theorem applyDiffPatch_eol_independent : forall documentContent rawDiff,
  (forall message,
     applyDiffPatch documentContent rawDiff CRLF = Throw message
     <-> applyDiffPatch documentContent rawDiff LF = Throw message)
  /\ (forall patched,
        applyDiffPatch documentContent rawDiff CRLF = Ok patched ->
        applyDiffPatch documentContent rawDiff LF = Ok (normalizeEOL patched))
  /\ (forall patched,
        applyDiffPatch documentContent rawDiff LF = Ok patched ->
        applyDiffPatch documentContent rawDiff CRLF = Ok (restoreEOL patched CRLF)).
Proof.
  intros documentContent rawDiff. unfold applyDiffPatch.
  destruct (parseHunks (normalizeEOL rawDiff)) as [hunks|message0].
  - destruct (length hunks =? 0)%nat.
    + repeat split; try discriminate; intros patched H; injection H as <-;
        simpl; now rewrite ?normalizeEOL_crlfOfLf.
    + destruct (applyHunks hunks (normalizeEOL documentContent) 0)
        as [[doc cursor]|message1].
      * repeat split; try discriminate; intros patched H; injection H as <-;
          simpl; now rewrite ?normalizeEOL_crlfOfLf.
      * repeat split; auto; discriminate.
  - repeat split; auto; discriminate.
Qed.

(** X10. A diff without net effect on a uniformly ended document returns
    the document itself, the case the command reports as no changes. *)
Theorem no_net_effect_returns_original :
  forall documentContent rawDiff eol hunks patched,
  parseHunks (normalizeEOL rawDiff) = Ok hunks ->
  Forall keepsText hunks ->
  allEndingsIn eol documentContent = true ->
  applyDiffPatch documentContent rawDiff eol = Ok patched ->
  patched = documentContent.
Proof.
  intros documentContent rawDiff eol hunks patched Hparse Hkeep Hends.
  unfold applyDiffPatch. rewrite Hparse.
  assert (Hround : restoreEOL (normalizeEOL documentContent) eol
                   = documentContent).
  { destruct eol; simpl.
    - now apply (normalizeEOL_fixed documentContent None).
    - apply (crlfOfLf_normalizeEOL documentContent None Hends).
      intros rest ->. simpl in Hends. discriminate. }
  destruct (length hunks =? 0)%nat; [congruence|].
  destruct (applyHunks hunks (normalizeEOL documentContent) 0)
    as [[doc cursor]|message] eqn:Hfold; [|discriminate].
  intros H. injection H as <-.
  apply applyHunks_Ok in Hfold.
  now rewrite (keepsText_run _ _ _ _ _ Hkeep Hfold).
Qed.

Lemma no_net_effect_returns_original_witness :
  restoreEOL (text ["a"; "b"]) CRLF = str "a" ++ [CR; NL] ++ str "b".
Proof.
  assert (Hkeep : Forall keepsText
            [mkHunk (str "@@ -1,2 +1,2 @@") (strs [" a"; " b"])
               1 (Some 2%N) 1 (Some 2%N)])
    by (constructor; [reflexivity|constructor]).
  apply (no_net_effect_returns_original
           (str "a" ++ [CR; NL] ++ str "b")
           (text ["@@ -1,2 +1,2 @@"; " a"; " b"]) CRLF _
           (restoreEOL (text ["a"; "b"]) CRLF) eq_refl Hkeep);
    reflexivity.
Defined.

(* ====================================================================== *)
(** * Further properties of the parser *)
(* ====================================================================== *)

Lemma splitAtMarkers_cons2 : forall lineStart c d t,
  splitAtMarkers lineStart (c :: d :: t)
  = if (lineStart && (c =? AT) && (d =? AT))%N
    then [] :: splitAtMarkers false t
    else consFirst c (splitAtMarkers (isLineTerminator c) (d :: t)).
Proof. reflexivity. Qed.

Lemma splitAtMarkers_not_nil : forall s lineStart,
  splitAtMarkers lineStart s <> [].
Proof.
  intros [|c [|d t]] lineStart; try discriminate.
  rewrite splitAtMarkers_cons2.
  destruct (lineStart && (c =? AT) && (d =? AT))%N; [discriminate|].
  destruct (splitAtMarkers (isLineTerminator c) (d :: t)); discriminate.
Qed.

Lemma marker_here : forall s,
  Regex.matchesHere (Regex.word (str "@@")) s = true
  <-> exists rest, s = AT :: AT :: rest.
Proof.
  intros s. rewrite regex_matchesHere. split.
  - intros (p & q & -> & Hp). apply regex_word in Hp. subst p.
    exists q. reflexivity.
  - intros (rest & ->). exists (str "@@"), rest.
    split; [reflexivity|]. now apply regex_word.
Qed.

Lemma marker_here_false : forall c t,
  (forall d t', t = d :: t' -> ((c =? AT) && (d =? AT))%N = false) ->
  Regex.matchesHere (Regex.word (str "@@")) (c :: t) = false.
Proof.
  intros c t H.
  destruct (Regex.matchesHere (Regex.word (str "@@")) (c :: t)) eqn:E;
    [|reflexivity].
  apply marker_here in E as (rest & E). injection E as -> ->.
  specialize (H AT rest eq_refl). discriminate.
Qed.

(** The split has pieces behind the first exactly when the text has a
    marker at a line start. *)
Lemma hunk_pieces_nil : forall s lineStart,
  sliceFrom (splitAtMarkers lineStart s) 1 = []
  <-> testAtLineStarts (Regex.word (str "@@")) lineStart s = false.
Proof.
  induction s as [|c t IH]; intros lineStart.
  - simpl. rewrite andb_false_r. tauto.
  - cbn [testAtLineStarts]. destruct t as [|d t'].
    + rewrite marker_here_false by (intros; discriminate).
      simpl. rewrite !andb_false_r. tauto.
    + rewrite splitAtMarkers_cons2.
      destruct (lineStart && (c =? AT) && (d =? AT))%N eqn:Hm.
      * apply andb_true_iff in Hm as [Hm Hd].
        apply andb_true_iff in Hm as [-> Hc].
        apply N.eqb_eq in Hc, Hd. subst c d.
        rewrite (proj2 (marker_here (AT :: AT :: t')))
          by (now exists t').
        simpl. pose proof (splitAtMarkers_not_nil t' false) as Hne.
        split; [|discriminate]. intros H. unfold sliceFrom in H.
        simpl in H. contradiction.
      * assert (Hhere : (lineStart
                         && Regex.matchesHere (Regex.word (str "@@"))
                              (c :: d :: t'))%bool = false).
        { destruct lineStart; [|reflexivity]. simpl.
          apply marker_here_false. intros d0 t0 E. injection E as <- <-.
          exact Hm. }
        rewrite Hhere. cbn [orb]. rewrite <- IH.
        pose proof (splitAtMarkers_not_nil (d :: t') (isLineTerminator c)) as Hne.
        destruct (splitAtMarkers (isLineTerminator c) (d :: t'));
          [contradiction|]. reflexivity.
Qed.

Lemma hunkParts_nil : forall diffText,
  hunkParts diffText = []
  <-> ~ MatchAtLineStart (Regex.word (str "@@")) diffText.
Proof.
  intros diffText. rewrite <- testAtLineStarts_MatchAtLineStart.
  rewrite not_true_iff_false, <- hunk_pieces_nil. unfold hunkParts.
  destruct (sliceFrom (splitAtMarkers true diffText) 1); simpl; split;
    intros H; reflexivity || discriminate.
Qed.

Lemma length_parseParts : forall parts hunks parsed,
  parseParts parts hunks = Ok parsed ->
  length parsed = length hunks + length parts.
Proof.
  induction parts as [|raw parts IH]; intros hunks parsed; simpl.
  - intros H. injection H as <-. lia.
  - destruct (parseHunk raw) as [hunk|message]; [|discriminate].
    intros H. apply IH in H. rewrite length_app in H. simpl in H. lia.
Qed.

(** X11. A diff has no hunk exactly when no line of it starts with [@@]:
    parsing then returns the empty list without error, and
    [applyDiffPatch] returns the normalised document restored to the
    requested line ending, whatever else the diff holds. *)
Theorem diff_without_markers : forall rawDiff,
  (parseHunks (normalizeEOL rawDiff) = Ok []
   <-> ~ MatchAtLineStart (Regex.word (str "@@")) (normalizeEOL rawDiff))
  /\ (~ MatchAtLineStart (Regex.word (str "@@")) (normalizeEOL rawDiff) ->
      forall documentContent eol,
        applyDiffPatch documentContent rawDiff eol
        = Ok (restoreEOL (normalizeEOL documentContent) eol)).
Proof.
  intros rawDiff.
  assert (Hnil : ~ MatchAtLineStart (Regex.word (str "@@")) (normalizeEOL rawDiff)
                 -> parseHunks (normalizeEOL rawDiff) = Ok []).
  { intros H. apply hunkParts_nil in H. unfold parseHunks. now rewrite H. }
  split; [split; [|exact Hnil]|].
  - intros H. apply hunkParts_nil. unfold parseHunks in H.
    apply length_parseParts in H. simpl in H.
    destruct (hunkParts (normalizeEOL rawDiff)); [reflexivity|discriminate].
  - intros H documentContent eol. unfold applyDiffPatch.
    now rewrite (Hnil H).
Qed.

Lemma joinWith_cons : forall sep l ls,
  ls <> [] -> joinWith sep (l :: ls) = l ++ sep ++ joinWith sep ls.
Proof. intros sep l [|x ls] H; [congruence|reflexivity]. Qed.

Lemma joinWith_consFirst : forall sep c pieces,
  pieces <> [] ->
  joinWith sep (consFirst c pieces) = c :: joinWith sep pieces.
Proof.
  intros sep c [|l [|l' ls]] H; [congruence| |]; reflexivity.
Qed.

(** The pieces of the split, with the markers put back, are the text. *)
Lemma joinWith_splitAtMarkers : forall s lineStart,
  joinWith (str "@@") (splitAtMarkers lineStart s) = s.
Proof.
  induction s as [| c | c d t IHt IHd] using list_ind2; intros lineStart;
    try reflexivity.
  rewrite splitAtMarkers_cons2.
  destruct (lineStart && (c =? AT) && (d =? AT))%N eqn:Hm.
  - apply andb_true_iff in Hm as [Hm Hd].
    apply andb_true_iff in Hm as [_ Hc].
    apply N.eqb_eq in Hc, Hd. subst c d.
    rewrite joinWith_cons by apply splitAtMarkers_not_nil.
    now rewrite IHt.
  - rewrite joinWith_consFirst by apply splitAtMarkers_not_nil.
    now rewrite IHd.
Qed.

Lemma joinWith_concat : forall sep l ls,
  joinWith sep (l :: ls) = l ++ concat (map (fun h => sep ++ h) ls).
Proof.
  intros sep l ls. revert l.
  induction ls as [|x ls IH]; intros l.
  - simpl. now rewrite app_nil_r.
  - rewrite joinWith_cons by discriminate. rewrite IH. simpl.
    now rewrite <- app_assoc.
Qed.

Lemma preamble_hunkParts : forall diffText,
  preamble diffText ++ concat (hunkParts diffText) = diffText.
Proof.
  intros diffText. unfold preamble, hunkParts, sliceFrom.
  pose proof (joinWith_splitAtMarkers diffText true) as H.
  pose proof (splitAtMarkers_not_nil diffText true) as Hne.
  destruct (splitAtMarkers true diffText) as [|p rest]; [contradiction|].
  rewrite joinWith_concat in H. exact H.
Qed.

Lemma parseHunk_blockText : forall raw hunk,
  parseHunk raw = Ok hunk -> blockText hunk = raw.
Proof.
  intros raw hunk H.
  destruct (matchHeader (headerOf raw)) as [g|] eqn:Hm.
  - destruct (parseHunk_good raw) as (h & Hp & Hh & Hb); [congruence|].
    rewrite Hp in H. injection H as <-.
    unfold blockText. rewrite Hh, Hb. unfold headerOf, sliceFrom.
    pose proof (splitLines_not_nil raw) as Hne.
    rewrite <- (joinLines_splitLines raw) at 3.
    destruct (splitLines raw); [contradiction|reflexivity].
  - rewrite (parseHunk_bad raw Hm) in H. discriminate.
Qed.

Lemma parseParts_blockText : forall parts hunks parsed,
  parseParts parts hunks = Ok parsed ->
  map blockText parsed = map blockText hunks ++ parts.
Proof.
  induction parts as [|raw parts IH]; intros hunks parsed; simpl.
  - intros H. injection H as <-. now rewrite app_nil_r.
  - destruct (parseHunk raw) as [hunk|message] eqn:Hp; [|discriminate].
    intros H. apply IH in H. rewrite H, map_app. simpl.
    rewrite (parseHunk_blockText raw hunk Hp). now rewrite <- app_assoc.
Qed.

(** X12. Parsing loses nothing: when a diff parses, the text in front of
    its first marker followed by the hunks written out again, each as its
    header and body lines joined by newlines, is the diff text. *)
Theorem parseHunks_roundtrip : forall diffText hunks,
  parseHunks diffText = Ok hunks ->
  map blockText hunks = hunkParts diffText
  /\ preamble diffText ++ concat (map blockText hunks) = diffText.
Proof.
  intros diffText hunks H. unfold parseHunks in H.
  apply parseParts_blockText in H. simpl in H.
  split; [exact H|]. rewrite H. apply preamble_hunkParts.
Qed.

Lemma parseHunks_roundtrip_witness :
  preamble diffAfterPreamble
  ++ concat (map blockText
               [mkHunk (str "@@ -1 +1 @@") (strs ["-a"; "+A"]) 1 None 1 None])
  = diffAfterPreamble.
Proof.
  exact (proj2 (parseHunks_roundtrip diffAfterPreamble
                  [mkHunk (str "@@ -1 +1 @@") (strs ["-a"; "+A"]) 1 None 1 None]
                  eq_refl)).
Defined.





(* ====================================================================== *)
(** * Detection and parsing *)
(* ====================================================================== *)

Lemma reHunkStart_word : Regex.Matches reHunkStart (str "@@ -").
Proof.
  unfold reHunkStart. apply regex_Seq_inv.
  exists (str "@@"), (str " -"). repeat split.
  - now apply regex_word.
  - apply regex_Seq_inv. exists [SPACE], [MINUS]. repeat split.
    + now constructor.
    + constructor. apply N.eqb_refl.
Qed.

(** X14. The pre-check and the parser agree on texts that start with a
    hunk: a text whose first line is a header of the grammar passes the
    pre-check, and a text that passes the pre-check by its [@@] test has at
    least one block for the parser, which therefore never returns the
    empty list for it. *)
Theorem hunk_at_start_detected : forall s,
  (HeaderGrammar s -> isLikelyUnifiedDiff s = true)
  /\ (testAtStart reHunkStart s = true ->
      hunkParts s <> [] /\ parseHunks s <> Ok []).
Proof.
  intros s. split.
  - intros (p & q & -> & Hp). unfold reHeader in Hp.
    apply regex_Seq_inv in Hp as (u & r & -> & Hu & _).
    apply regex_word in Hu. subst u.
    apply isLikelyUnifiedDiff_spec. split; [discriminate|].
    left. exists (str "@@ -"), (r ++ q).
    split; [now rewrite <- app_assoc|apply reHunkStart_word].
  - intros H. unfold testAtStart in H.
    apply regex_matchesHere in H as (p & q & -> & Hp).
    unfold reHunkStart in Hp.
    apply regex_Seq_inv in Hp as (u & r & -> & Hu & _).
    apply regex_word in Hu. subst u.
    assert (Hparts : hunkParts ((str "@@" ++ r) ++ q) <> []).
    { intros E. apply hunkParts_nil in E. apply E.
      exists [], (str "@@"), (r ++ q).
      split; [now rewrite <- app_assoc|].
      split; [now apply regex_word|now left]. }
    split; [exact Hparts|].
    intros E. unfold parseHunks in E. apply length_parseParts in E.
    destruct (hunkParts ((str "@@" ++ r) ++ q)); [congruence|discriminate].
Qed.

(* ====================================================================== *)
(** * Header paths *)
(* ====================================================================== *)

Lemma beforeTab_no_tab : forall t, ~ In TAB (beforeTab t).
Proof.
  induction t as [|c t IH]; simpl; [tauto|].
  destruct (c =? TAB)%N eqn:Hc; [simpl; tauto|].
  apply N.eqb_neq in Hc. intros [H|H]; [congruence|contradiction].
Qed.

Lemma beforeTab_prefix : forall t, exists post, t = beforeTab t ++ post.
Proof.
  induction t as [|c t (post & IH)]; simpl; [now exists []|].
  destruct (c =? TAB)%N; [now exists (c :: t)|].
  exists post. cbn [app]. now rewrite <- IH.
Qed.

Lemma beforeTab_app : forall path rest,
  ~ In TAB path -> beforeTab (path ++ TAB :: rest) = path.
Proof.
  induction path as [|c path IH]; intros rest H; simpl.
  - reflexivity.
  - destruct (c =? TAB)%N eqn:Hc.
    + apply N.eqb_eq in Hc. exfalso. apply H. now left.
    + rewrite IH; [reflexivity|]. intros Hin. apply H. now right.
Qed.

Lemma beforeTab_id : forall path, ~ In TAB path -> beforeTab path = path.
Proof.
  induction path as [|c path IH]; intros H; simpl; [reflexivity|].
  destruct (c =? TAB)%N eqn:Hc.
  - apply N.eqb_eq in Hc. exfalso. apply H. now left.
  - rewrite IH; [reflexivity|]. intros Hin. apply H. now right.
Qed.

Lemma beforeWideGap_cons2 : forall c d t,
  beforeWideGap (c :: d :: t)
  = if isWhiteSpace c && isWhiteSpace d then []
    else c :: beforeWideGap (d :: t).
Proof. reflexivity. Qed.

Lemma hasWideGap_cons2 : forall c d t,
  hasWideGap (c :: d :: t)
  = (isWhiteSpace c && isWhiteSpace d) || hasWideGap (d :: t).
Proof. reflexivity. Qed.

Lemma beforeWideGap_prefix : forall t, exists post, t = beforeWideGap t ++ post.
Proof.
  induction t as [|c t (post & IH)]; [now exists []|].
  destruct t as [|d t]; [now exists []|].
  rewrite beforeWideGap_cons2.
  destruct (isWhiteSpace c && isWhiteSpace d); [now exists (c :: d :: t)|].
  exists post. cbn [app]. now rewrite <- IH.
Qed.

Lemma beforeWideGap_head : forall t c rest,
  beforeWideGap t = c :: rest -> exists t', t = c :: t'.
Proof.
  intros [|x [|y t]] c rest; simpl; try discriminate.
  - intros H. injection H as <- _. eauto.
  - destruct (isWhiteSpace x && isWhiteSpace y); [discriminate|].
    intros H. injection H as <- _. eauto.
Qed.

Lemma beforeWideGap_no_gap : forall t, hasWideGap (beforeWideGap t) = false.
Proof.
  induction t as [|c t IH]; [reflexivity|].
  destruct t as [|d t]; [reflexivity|].
  rewrite beforeWideGap_cons2.
  destruct (isWhiteSpace c && isWhiteSpace d) eqn:Hgap; [reflexivity|].
  destruct (beforeWideGap (d :: t)) as [|x rest] eqn:E; [reflexivity|].
  rewrite hasWideGap_cons2, IH, orb_false_r.
  apply beforeWideGap_head in E as (t' & E). injection E as <- _.
  exact Hgap.
Qed.

Lemma beforeWideGap_id : forall path,
  hasWideGap path = false -> beforeWideGap path = path.
Proof.
  induction path as [|c path IH]; intros H; [reflexivity|].
  destruct path as [|d path]; [reflexivity|].
  rewrite hasWideGap_cons2 in H. apply orb_false_iff in H as [Hgap Hrest].
  rewrite beforeWideGap_cons2, Hgap. now rewrite IH.
Qed.

Lemma In_prefix : forall (c : char) (a b post : jsstring),
  a = b ++ post -> In c b -> In c a.
Proof. intros c a b post -> H. apply in_or_app. now left. Qed.

Lemma dropLastQuote_cons2 : forall c d t,
  dropLastQuote (c :: d :: t) = c :: dropLastQuote (d :: t).
Proof. reflexivity. Qed.

Lemma dropLastQuote_prefix : forall p, exists post,
  p = dropLastQuote p ++ post /\ length post <= 1.
Proof.
  induction p as [|c p (post & IH & Hlen)]; [exists []; auto|].
  destruct p as [|d p].
  - simpl. destruct (isQuote c); [exists [c]|exists []]; auto.
  - rewrite dropLastQuote_cons2. exists post. split; [|exact Hlen].
    cbn [app]. now rewrite <- IH.
Qed.

Lemma dropLastQuote_before_tab : forall x y,
  dropLastQuote (x ++ TAB :: y) = x ++ dropLastQuote (TAB :: y).
Proof.
  induction x as [|a x IH]; intros y; [reflexivity|].
  cbn [app]. rewrite <- IH.
  destruct (x ++ TAB :: y) as [|b rest] eqn:E.
  - destruct x; discriminate.
  - apply dropLastQuote_cons2.
Qed.

Lemma dropLastQuote_tab : forall y, exists y', dropLastQuote (TAB :: y) = TAB :: y'.
Proof.
  intros [|d y]; [now exists []|].
  rewrite dropLastQuote_cons2. eauto.
Qed.

(** X15. What [stripHeaderPath] returns has no tab and no two adjacent
    white-space code units, and it is a piece of the path it was given:
    the path is the result with at most three code units in front (a quote
    and an [a/] or [b/]) and some text behind. *)
Theorem stripHeaderPath_bare_piece : forall p,
  barePath (stripHeaderPath p)
  /\ exists pre post,
       p = pre ++ stripHeaderPath p ++ post /\ length pre <= 3.
Proof.
  intros p. unfold stripHeaderPath, stripQuotes. split.
  - split; [|apply beforeWideGap_no_gap].
    intros H.
    destruct (beforeWideGap_prefix
                (beforeTab (dropABPrefix (dropLastQuote (dropFirstQuote p)))))
      as (post & E).
    apply (beforeTab_no_tab (dropABPrefix (dropLastQuote (dropFirstQuote p)))).
    now apply (In_prefix TAB _ _ post E).
  - set (t1 := dropFirstQuote p). set (t2 := dropLastQuote t1).
    set (t3 := dropABPrefix t2). set (t4 := beforeTab t3).
    destruct (beforeWideGap_prefix t4) as (post4 & E4).
    destruct (beforeTab_prefix t3) as (post3 & E3). fold t4 in E3.
    destruct (dropLastQuote_prefix t1) as (post1 & E1 & _). fold t2 in E1.
    assert (E2 : exists pre2, t2 = pre2 ++ t3 /\ length pre2 <= 2).
    { unfold t3, dropABPrefix. destruct t2 as [|c [|d rest]];
        try (exists []; split; [reflexivity|simpl; lia]).
      destruct (isAB c && (d =? SLASH)%N).
      - exists [c; d]. split; [reflexivity|simpl; lia].
      - exists []. split; [reflexivity|simpl; lia]. }
    destruct E2 as (pre2 & E2 & Hlen2).
    assert (E0 : exists pre0, p = pre0 ++ t1 /\ length pre0 <= 1).
    { unfold t1, dropFirstQuote. destruct p as [|c rest].
      - exists []. split; [reflexivity|simpl; lia].
      - destruct (isQuote c).
        + exists [c]. split; [reflexivity|simpl; lia].
        + exists []. split; [reflexivity|simpl; lia]. }
    destruct E0 as (pre0 & E0 & Hlen0).
    exists (pre0 ++ pre2), (post4 ++ post3 ++ post1). split.
    + rewrite E0, E1, E2, E3 at 1. rewrite E4 at 1.
      now rewrite <- !app_assoc.
    + rewrite length_app. lia.
Qed.

(** X16. A header path as diff tools write it is reduced to the bare
    path: with an [a/] or [b/] in front and a tab followed by a time stamp
    behind, and also as it stands when it has neither, nor quotes. *)
Theorem stripHeaderPath_git_header : forall path,
  barePath path ->
  (forall c stamp,
     isAB c = true ->
     stripHeaderPath (c :: SLASH :: path ++ TAB :: stamp) = path)
  /\ (isQuote (hd SPACE path) = false ->
      isQuote (last path SPACE) = false ->
      startsWithAB path = false ->
      stripHeaderPath path = path).
Proof.
  intros path [Htab Hgap]. split.
  - intros c stamp Hc. unfold stripHeaderPath, stripQuotes.
    assert (Hq : isQuote c = false).
    { unfold isAB in Hc. unfold isQuote.
      apply orb_true_iff in Hc as [H|H]; apply N.eqb_eq in H; subst c;
        reflexivity. }
    unfold dropFirstQuote. rewrite Hq.
    assert (Hlast : exists y,
              dropLastQuote (c :: SLASH :: path ++ TAB :: stamp)
              = c :: SLASH :: path ++ TAB :: y).
    { destruct (dropLastQuote_tab stamp) as (y & Hy). exists y.
      change (c :: SLASH :: path ++ TAB :: stamp)
        with ((c :: SLASH :: path) ++ TAB :: stamp).
      now rewrite dropLastQuote_before_tab, Hy. }
    destruct Hlast as (y & ->).
    unfold dropABPrefix. rewrite Hc, N.eqb_refl. simpl andb. cbv iota.
    rewrite beforeTab_app by assumption. now apply beforeWideGap_id.
  - intros Hfirst Hlast Hab.
    unfold stripHeaderPath, stripQuotes.
    assert (H1 : dropFirstQuote path = path).
    { unfold dropFirstQuote. destruct path as [|c rest]; [reflexivity|].
      simpl in Hfirst. now rewrite Hfirst. }
    assert (H2 : dropLastQuote path = path).
    { clear - Hlast.
      induction path as [|x p IH]; [reflexivity|].
      destruct p as [|y p].
      - simpl in *. now rewrite Hlast.
      - rewrite dropLastQuote_cons2. f_equal. apply IH. exact Hlast. }
    assert (H3 : dropABPrefix path = path).
    { unfold dropABPrefix. destruct path as [|c [|d rest]]; try reflexivity.
      simpl in Hab. now rewrite Hab. }
    rewrite H1, H2, H3, beforeTab_id by assumption.
    now apply beforeWideGap_id.
Qed.

Lemma stripHeaderPath_git_header_witness :
  stripHeaderPath (str "b/src/my file.ts" ++ TAB :: str "2024-01-01 10:00")
  = str "src/my file.ts".
Proof.
  assert (Hbare : barePath (str "src/my file.ts")).
  { split; [|reflexivity]. simpl. intros H.
    repeat (destruct H as [H|H]; [discriminate|]). exact H. }
  exact (proj1 (stripHeaderPath_git_header (str "src/my file.ts") Hbare)
           98%N (str "2024-01-01 10:00") eq_refl).
Defined.

(* ====================================================================== *)
(** * The backtracking matcher *)
(* ====================================================================== *)

(** A word is matched by reading it off the text. *)
Lemma run_word : forall w p s g k,
  Pattern.run (Pattern.word w) (Pattern.mkState p s g) k
  = match expect w s with
    | Some r => k (Pattern.mkState (behind p w) r g)
    | None => None
    end.
Proof.
  induction w as [|c w IH]; intros p s g k; [reflexivity|].
  cbn [Pattern.word Pattern.run Pattern.lit Pattern.rest Pattern.caps expect].
  destruct s as [|d s]; [reflexivity|].
  destruct (c =? d)%N eqn:Hcd; [|reflexivity].
  apply N.eqb_eq in Hcd. subst d. apply IH.
Qed.

(** One turn of the loop of a quantified class. *)
Lemma run_star_class : forall greedy f p s g k,
  Pattern.run (Pattern.Star greedy (Pattern.Chr f)) (Pattern.mkState p s g) k
  = match s with
    | c :: s' =>
        if f c then
          let more :=
            Pattern.run (Pattern.Star greedy (Pattern.Chr f))
              (Pattern.mkState (Some c) s' g) k in
          if greedy
          then Pattern.orElse more (k (Pattern.mkState p s g))
          else Pattern.orElse (k (Pattern.mkState p s g)) more
        else k (Pattern.mkState p s g)
    | [] => k (Pattern.mkState p s g)
    end.
Proof.
  intros greedy f p s g k. destruct s as [|c s']; [reflexivity|].
  cbn [Pattern.run Pattern.rest Pattern.caps length Pattern.starLoop].
  destruct (f c).
  - cbn [Pattern.rest length].
    replace (length s' <? S (length s'))%nat with true
      by (symmetry; apply Nat.ltb_lt; lia).
    reflexivity.
  - now destruct greedy, (k (Pattern.mkState p (c :: s') g)).
Qed.

(** A greedy quantified class takes the whole run of its class when the
    match can go on from behind it. *)
Lemma run_star_greedy : forall f w r p g k x,
  forallb f w = true -> notAhead f r = true ->
  k (Pattern.mkState (behind p w) r g) = Some x ->
  Pattern.run (Pattern.Star true (Pattern.Chr f)) (Pattern.mkState p (w ++ r) g) k
  = Some x.
Proof.
  intros f w r. induction w as [|c w IH]; intros p g k x Hw Hr Hk.
  - rewrite run_star_class. cbn [app behind] in *.
    destruct r as [|d r]; [exact Hk|].
    cbn [notAhead] in Hr. apply negb_true_iff in Hr. now rewrite Hr.
  - cbn [forallb] in Hw. apply andb_true_iff in Hw as [Hc Hw].
    rewrite run_star_class. cbn [app]. rewrite Hc. cbv zeta.
    now rewrite (IH (Some c) g k x Hw Hr Hk).
Qed.

(** A lazy quantified class stops at the first position from which the
    match can go on. *)
Lemma run_star_lazy : forall f w r p g k x,
  forallb f w = true ->
  (forall w1 w2, w = w1 ++ w2 -> w2 <> [] ->
     k (Pattern.mkState (behind p w1) (w2 ++ r) g) = None) ->
  k (Pattern.mkState (behind p w) r g) = Some x ->
  Pattern.run (Pattern.Star false (Pattern.Chr f)) (Pattern.mkState p (w ++ r) g) k
  = Some x.
Proof.
  intros f w r. induction w as [|c w IH]; intros p g k x Hw Hnone Hk.
  - rewrite run_star_class. cbn [app behind] in *.
    destruct r as [|d r]; [exact Hk|].
    rewrite Hk. now destruct (f d).
  - cbn [forallb] in Hw. apply andb_true_iff in Hw as [Hc Hw].
    rewrite run_star_class. cbn [app]. rewrite Hc. cbv zeta.
    assert (H0 : k (Pattern.mkState p (c :: w ++ r) g) = None)
      by (apply (Hnone [] (c :: w) eq_refl); discriminate).
    rewrite H0. cbn [Pattern.orElse]. apply IH; try assumption.
    intros w1 w2 E Hne. apply (Hnone (c :: w1) w2); [|exact Hne].
    now rewrite E.
Qed.

(** The search goes past a stretch of text in which no match starts. *)
Lemma search_skip : forall r pre s before,
  (forall pre1 pre2, pre = pre1 ++ pre2 -> pre2 <> [] ->
     Pattern.run r (Pattern.mkState (behind before pre1) (pre2 ++ s) []) Some
     = None) ->
  Pattern.search r before (pre ++ s) = Pattern.search r (behind before pre) s.
Proof.
  intros r pre s. induction pre as [|c pre IH]; intros before H;
    [reflexivity|].
  cbn [app Pattern.search].
  assert (H0 : Pattern.run r (Pattern.mkState before (c :: pre ++ s) []) Some
               = None)
    by (apply (H [] (c :: pre) eq_refl); discriminate).
  rewrite H0. cbn [behind]. apply IH. intros pre1 pre2 E Hne.
  apply (H (c :: pre1) pre2); [|exact Hne]. now rewrite E.
Qed.

Lemma search_here : forall r before s m,
  Pattern.run r (Pattern.mkState before s []) Some = Some m ->
  Pattern.search r before s = Some m.
Proof.
  intros r before s m H. destruct s; cbn [Pattern.search]; now rewrite H.
Qed.

(* ====================================================================== *)
(** * Code fences *)
(* ====================================================================== *)

Lemma trimStart_black : forall s, startsBlack s = true -> trimStart s = s.
Proof.
  intros [|c s] H; [reflexivity|].
  unfold startsBlack in H. cbn [hd] in H. apply negb_true_iff in H.
  cbn [trimStart]. now rewrite H.
Qed.

Lemma trimStart_result : forall s,
  trimStart s = [] \/ startsBlack (trimStart s) = true.
Proof.
  induction s as [|c s IH]; [now left|]. cbn [trimStart].
  destruct (isWhiteSpace c) eqn:Hc; [exact IH|].
  right. unfold startsBlack. cbn [hd]. now rewrite Hc.
Qed.

Lemma trimStart_suffix : forall s, exists w, s = w ++ trimStart s.
Proof.
  induction s as [|c s (w & IH)]; [now exists []|]. cbn [trimStart].
  destruct (isWhiteSpace c); [|now exists []].
  exists (c :: w). cbn [app]. now rewrite <- IH.
Qed.

Lemma last_rev : forall (s : jsstring) d, last (rev s) d = hd d s.
Proof.
  intros [|c s] d; [reflexivity|]. cbn [rev hd]. apply last_last.
Qed.

Lemma hd_rev : forall (s : jsstring) d, hd d (rev s) = last s d.
Proof. intros s d. now rewrite <- last_rev, rev_involutive. Qed.

Lemma trimEnd_black : forall s, endsBlack s = true -> trimEnd s = s.
Proof.
  intros s H. unfold trimEnd. rewrite trimStart_black.
  - apply rev_involutive.
  - unfold startsBlack. now rewrite hd_rev.
Qed.

Lemma trim_black : forall s,
  startsBlack s = true -> endsBlack s = true -> trim s = s.
Proof.
  intros s Hs He. unfold trim. now rewrite trimStart_black, trimEnd_black.
Qed.

Lemma trimEnd_result : forall s,
  trimEnd s = [] \/ endsBlack (trimEnd s) = true.
Proof.
  intros s. unfold trimEnd.
  destruct (trimStart_result (rev s)) as [H|H].
  - left. now rewrite H.
  - right. unfold endsBlack. now rewrite last_rev.
Qed.

Lemma trimEnd_prefix : forall s, exists w, s = trimEnd s ++ w.
Proof.
  intros s. unfold trimEnd.
  destruct (trimStart_suffix (rev s)) as (w & H).
  exists (rev w). rewrite <- rev_app_distr, <- H. symmetry.
  apply rev_involutive.
Qed.

Lemma trim_result : forall s,
  trim s = [] \/ (startsBlack (trim s) = true /\ endsBlack (trim s) = true).
Proof.
  intros s. unfold trim.
  destruct (trimEnd_result (trimStart s)) as [H|H]; [now left|].
  destruct (trimEnd (trimStart s)) as [|c t] eqn:E; [now left|].
  right. split; [|exact H].
  destruct (trimEnd_prefix (trimStart s)) as (w & Hw). rewrite E in Hw.
  destruct (trimStart_result s) as [H0|H0].
  - rewrite H0 in Hw. discriminate.
  - rewrite Hw in H0. exact H0.
Qed.

Lemma normalizeEOL_nil : forall s, normalizeEOL s = [] -> s = [].
Proof.
  intros [|c [|d t]] H; try reflexivity; try discriminate.
  rewrite normalizeEOL_cons2 in H.
  destruct ((c =? CR) && (d =? NL))%N; discriminate.
Qed.

Lemma last_cons_more : forall (c : char) l x, l <> [] -> last (c :: l) x = last l x.
Proof. intros c [|d l] x H; [congruence|reflexivity]. Qed.

Lemma normalizeEOL_not_nil : forall s, s <> [] -> normalizeEOL s <> [].
Proof. intros s H E. now apply normalizeEOL_nil in E. Qed.

Lemma last_normalizeEOL : forall s d, last (normalizeEOL s) d = last s d.
Proof.
  induction s as [| c | c e t IHt IHe] using list_ind2; intros d;
    try reflexivity.
  rewrite normalizeEOL_cons2.
  rewrite (last_cons_more c (e :: t)) by discriminate.
  destruct ((c =? CR) && (e =? NL))%N eqn:Hpair.
  - apply andb_true_iff in Hpair as [_ He]. apply N.eqb_eq in He. subst e.
    destruct t as [|y t']; [reflexivity|].
    rewrite (last_cons_more NL (normalizeEOL (y :: t')))
      by (apply normalizeEOL_not_nil; discriminate).
    rewrite (last_cons_more NL (y :: t')) by discriminate.
    apply IHt.
  - rewrite last_cons_more by (apply normalizeEOL_not_nil; discriminate).
    apply IHe.
Qed.

Lemma normalizeEOL_black : forall s,
  startsBlack s = true -> endsBlack s = true ->
  startsBlack (normalizeEOL s) = true /\ endsBlack (normalizeEOL s) = true.
Proof.
  intros s Hs He. split.
  - destruct s as [|c [|d t]]; try exact Hs.
    rewrite normalizeEOL_cons2.
    destruct ((c =? CR) && (d =? NL))%N eqn:Hpair; [|exact Hs].
    apply andb_true_iff in Hpair as [Hc _]. apply N.eqb_eq in Hc. subst c.
    discriminate.
  - unfold endsBlack. now rewrite last_normalizeEOL.
Qed.

Lemma expect_other : forall c w d s,
  c <> d -> expect (c :: w) (d :: s) = None.
Proof.
  intros c w d s H. cbn [expect]. apply N.eqb_neq in H. now rewrite H.
Qed.

Lemma reFence_needs_fence : forall p s g k,
  expect FENCE s = None ->
  Pattern.run reFence (Pattern.mkState p s g) k = None.
Proof.
  intros p s g k H. unfold reFence. cbn [Pattern.run Pattern.prev].
  destruct p as [c|]; [destruct (isLineTerminator c); [|reflexivity]|];
    fold FENCE; rewrite run_word; now rewrite H.
Qed.

Lemma expect_no_backtick : forall s,
  ~ In BACKTICK s -> expect FENCE s = None.
Proof.
  intros [|c s] H; [reflexivity|].
  apply expect_other. intros E. apply H. now left.
Qed.

Lemma search_no_backtick : forall s before,
  ~ In BACKTICK s -> Pattern.search reFence before s = None.
Proof.
  induction s as [|c s IH]; intros before H; cbn [Pattern.search];
    rewrite reFence_needs_fence by (now apply expect_no_backtick).
  - reflexivity.
  - apply IH. intros Hin. apply H. now right.
Qed.

(** X17. A text without backticks has no fence to strip:
    [stripCodeFence] returns it trimmed and normalised. *)
Theorem stripCodeFence_without_backtick : forall s,
  ~ In BACKTICK s -> stripCodeFence s = normalizeEOL (trim s).
Proof.
  intros s H. unfold stripCodeFence. destruct s as [|c s]; [reflexivity|].
  now rewrite search_no_backtick.
Qed.

Lemma stripCodeFence_without_backtick_witness :
  stripCodeFence ([NL] ++ str "@@ -1 +1 @@" ++ [CR; NL] ++ str "-a  ")
  = str "@@ -1 +1 @@" ++ [NL] ++ str "-a".
Proof.
  rewrite stripCodeFence_without_backtick; [reflexivity|].
  simpl. intros H. repeat (destruct H as [H|H]; [discriminate|]). exact H.
Defined.

(** X18. What [stripCodeFence] returns is trimmed whatever it is given:
    it is empty, or it starts and ends with a code unit that is not white
    space, so that a hunk header at the start of the stripped diff stands
    at index 0 of the text. *)
Theorem stripCodeFence_trimmed : forall s,
  stripCodeFence s = []
  \/ (startsBlack (stripCodeFence s) = true
      /\ endsBlack (stripCodeFence s) = true).
Proof.
  intros s. unfold stripCodeFence. destruct s as [|c s]; [now left|].
  match goal with |- context [trim ?x] => remember x as inner end.
  destruct (trim_result inner) as [H|[Hs He]].
  - left. now rewrite H.
  - right. now apply normalizeEOL_black.
Qed.

Lemma expect_app : forall w s, expect w (w ++ s) = Some s.
Proof. intros. now apply expect_Some. Qed.

Lemma run_seq : forall a b st k,
  Pattern.run (Pattern.Seq a b) st k
  = Pattern.run a st (fun st' => Pattern.run b st' k).
Proof. reflexivity. Qed.

Lemma run_group : forall n a st k,
  Pattern.run (Pattern.Group n a) st k
  = Pattern.run a st (fun st' =>
      k (Pattern.mkState (Pattern.prev st') (Pattern.rest st')
           ((n, firstn (length (Pattern.rest st) - length (Pattern.rest st'))
                  (Pattern.rest st)) :: Pattern.caps st'))).
Proof. reflexivity. Qed.

Lemma run_opt : forall a st k,
  Pattern.run (Pattern.opt a) st k
  = Pattern.orElse (Pattern.run a st k) (k st).
Proof. reflexivity. Qed.

Lemma run_bol : forall p s g k,
  atLineStart p = true ->
  Pattern.run Pattern.Bol (Pattern.mkState p s g) k = k (Pattern.mkState p s g).
Proof.
  intros [c|] s g k H; [|reflexivity].
  cbn [Pattern.run Pattern.prev]. cbn [atLineStart] in H. now rewrite H.
Qed.

Lemma run_eol : forall p s g k,
  atLineEnd s = true ->
  Pattern.run Pattern.Eol (Pattern.mkState p s g) k = k (Pattern.mkState p s g).
Proof.
  intros p [|c s] g k H; [reflexivity|].
  cbn [Pattern.run Pattern.rest]. cbn [atLineEnd] in H. now rewrite H.
Qed.

Lemma endsBlack_suffix : forall w1 w2,
  w2 <> [] -> endsBlack (w1 ++ w2) = endsBlack w2.
Proof.
  intros w1 w2 H. unfold endsBlack. f_equal. f_equal.
  induction w1 as [|c w1 IH]; [reflexivity|].
  cbn [app]. rewrite last_cons_more; [exact IH|].
  destruct w1; [exact H|discriminate].
Qed.

(** The closing part of the fence pattern, [\s*] then three backticks at
    the end of a line, has no match in front of text that still holds a
    code unit of the body. *)
Lemma fence_close_fails : forall x r p g k,
  x <> [] -> ~ In BACKTICK x -> endsBlack x = true ->
  Pattern.run
    (Pattern.Seq (Pattern.Star true (Pattern.Chr isWhiteSpace))
       (Pattern.Seq (Pattern.word FENCE) Pattern.Eol))
    (Pattern.mkState p (x ++ r) g) k
  = None.
Proof.
  induction x as [|c x IH]; intros r p g k Hne Hbt Hend; [congruence|].
  assert (Hc : expect FENCE (c :: x ++ r) = None).
  { apply expect_other. intros E. apply Hbt. now left. }
  rewrite run_seq, run_star_class. cbn [app]. cbv beta.
  assert (Hstop : Pattern.run (Pattern.Seq (Pattern.word FENCE) Pattern.Eol)
                    (Pattern.mkState p (c :: x ++ r) g) k = None).
  { rewrite run_seq, run_word. now rewrite Hc. }
  destruct (isWhiteSpace c) eqn:Hw; [|exact Hstop].
  cbv zeta. rewrite Hstop.
  assert (Hx : x <> []).
  { intros ->. unfold endsBlack in Hend. cbn [last] in Hend.
    rewrite Hw in Hend. discriminate. }
  specialize (IH r (Some c) g k Hx).
  rewrite run_seq in IH. rewrite IH; [reflexivity| |].
  - intros Hin. apply Hbt. now right.
  - change (c :: x) with ([c] ++ x) in Hend.
    now rewrite endsBlack_suffix in Hend.
Qed.

Lemma fence_close_here : forall ws2 tail p g,
  forallb isWhiteSpace ws2 = true -> atLineEnd tail = true ->
  Pattern.run
    (Pattern.Seq (Pattern.Star true (Pattern.Chr isWhiteSpace))
       (Pattern.Seq (Pattern.word FENCE) Pattern.Eol))
    (Pattern.mkState p (ws2 ++ FENCE ++ tail) g) Some
  = Some (Pattern.mkState (Some BACKTICK) tail g).
Proof.
  intros ws2 tail p g Hws Htail. rewrite run_seq.
  apply run_star_greedy; [exact Hws|reflexivity|].
  rewrite run_seq, run_word, expect_app. now rewrite run_eol.
Qed.

Lemma forallb_any : forall s : jsstring, forallb (fun _ => true) s = true.
Proof. induction s; simpl; auto. Qed.

Lemma firstn_front : forall (a b : jsstring),
  firstn (length (a ++ b) - length b) (a ++ b) = a.
Proof.
  intros a b.
  rewrite length_app, Nat.add_sub, firstn_app, Nat.sub_diag, firstn_all.
  cbn [firstn]. apply app_nil_r.
Qed.

(** The fence pattern behind the opening fence and its tag: the group is
    the body. *)
Lemma fence_inside : forall ws1 body ws2 tail q,
  forallb isWhiteSpace ws1 = true -> forallb isWhiteSpace ws2 = true ->
  body <> [] -> ~ In BACKTICK body ->
  startsBlack body = true -> endsBlack body = true ->
  atLineEnd tail = true ->
  Pattern.run
    (Pattern.Seq (Pattern.Star true (Pattern.Chr isWhiteSpace))
       (Pattern.Seq
          (Pattern.Group 1 (Pattern.Star false (Pattern.Chr (fun _ => true))))
          (Pattern.Seq (Pattern.Star true (Pattern.Chr isWhiteSpace))
             (Pattern.Seq (Pattern.word FENCE) Pattern.Eol))))
    (Pattern.mkState q (ws1 ++ body ++ ws2 ++ FENCE ++ tail) []) Some
  = Some (Pattern.mkState (Some BACKTICK) tail [(1, body)]).
Proof.
  intros ws1 body ws2 tail q Hws1 Hws2 Hne Hbt Hstart Hend Htail.
  rewrite run_seq.
  apply run_star_greedy; [exact Hws1| |].
  - destruct body as [|c body]; [congruence|]. exact Hstart.
  - rewrite run_seq, run_group.
    apply run_star_lazy; [apply forallb_any| |].
    + intros w1 w2 E Hw2. cbn [Pattern.rest Pattern.prev Pattern.caps].
      apply (fence_close_fails w2 (ws2 ++ FENCE ++ tail)); [exact Hw2| |].
      * intros Hin. apply Hbt. rewrite E. apply in_or_app. now right.
      * rewrite E in Hend. now rewrite endsBlack_suffix in Hend.
    + cbn [Pattern.rest Pattern.prev Pattern.caps].
      rewrite fence_close_here by assumption.
      now rewrite firstn_front.
Qed.

(** The search for the fence pattern finds the block, with the body as
    its group. *)
Lemma reFence_finds_block : forall pre lang ws1 body ws2 tail,
  ~ In BACKTICK pre -> atLineStart (behind None pre) = true ->
  lang = str "diff" \/ (lang = [] /\ notAhead (N.eqb 100) (ws1 ++ body) = true) ->
  forallb isWhiteSpace ws1 = true -> forallb isWhiteSpace ws2 = true ->
  ~ In BACKTICK body -> startsBlack body = true -> endsBlack body = true ->
  atLineEnd tail = true ->
  Pattern.search reFence None (pre ++ fenced lang ws1 body ws2 tail)
  = Some (Pattern.mkState (Some BACKTICK) tail [(1, body)]).
Proof.
  intros pre lang ws1 body ws2 tail Hpre Hbol Hlang Hws1 Hws2 Hbt Hstart Hend
    Htail.
  assert (Hne : body <> []) by (intros ->; discriminate).
  rewrite search_skip.
  - apply search_here. unfold reFence, fenced. fold FENCE.
    rewrite run_seq, run_bol by exact Hbol.
    rewrite run_seq, run_word, expect_app.
    rewrite run_seq, run_opt, run_word.
    pose proof (fun q => fence_inside ws1 body ws2 tail q
                           Hws1 Hws2 Hne Hbt Hstart Hend Htail) as Hinside.
    destruct Hlang as [->|[-> Hd]].
    + rewrite expect_app. now rewrite Hinside.
    + cbn [app].
      replace (expect (str "diff") (ws1 ++ body ++ ws2 ++ FENCE ++ tail))
        with (@None jsstring).
      * cbn [Pattern.orElse]. apply Hinside.
      * symmetry. rewrite app_assoc.
        destruct (ws1 ++ body) as [|c u] eqn:E.
        -- apply app_eq_nil in E as [_ E]. congruence.
        -- cbn [notAhead] in Hd. apply negb_true_iff, N.eqb_neq in Hd.
           cbn [app]. exact (expect_other 100%N (str "iff") c _ Hd).
  - intros pre1 pre2 E Hne2. apply reFence_needs_fence.
    destruct pre2 as [|c pre2]; [congruence|].
    apply expect_other. intros Hc. apply Hpre. rewrite E.
    apply in_or_app. right. now left.
Qed.

(** What [stripCodeFence] makes of a match. *)
Lemma stripCodeFence_found : forall s m inner,
  Pattern.search reFence None s = Some m ->
  Pattern.group 1 (Pattern.caps m) = Some inner ->
  stripCodeFence s = normalizeEOL (trim inner).
Proof.
  intros s m inner Hm Hg. unfold stripCodeFence. rewrite Hm, Hg.
  destruct s as [|c s]; [discriminate|reflexivity].
Qed.

(** X19. A fenced block is unwrapped. When the text holds, at a line
    start and behind text without backticks, an opening fence of three
    backticks with the tag [diff] or no tag, white space, a body, white
    space and a closing fence that ends its line, [stripCodeFence] returns
    the normalised body, for any body that is trimmed and holds no
    backtick; the text in front of the opening fence and behind the
    closing one is dropped. A block without tag must not go on with the
    letter d. *)
Theorem stripCodeFence_unwraps : forall pre lang ws1 body ws2 tail,
  ~ In BACKTICK pre -> atLineStart (behind None pre) = true ->
  lang = str "diff" \/ (lang = [] /\ notAhead (N.eqb 100) (ws1 ++ body) = true) ->
  forallb isWhiteSpace ws1 = true -> forallb isWhiteSpace ws2 = true ->
  ~ In BACKTICK body -> startsBlack body = true -> endsBlack body = true ->
  atLineEnd tail = true ->
  stripCodeFence (pre ++ fenced lang ws1 body ws2 tail) = normalizeEOL body.
Proof.
  intros pre lang ws1 body ws2 tail Hpre Hbol Hlang Hws1 Hws2 Hbt Hstart Hend
    Htail.
  pose proof (reFence_finds_block pre lang ws1 body ws2 tail
                Hpre Hbol Hlang Hws1 Hws2 Hbt Hstart Hend Htail) as Hfound.
  rewrite (stripCodeFence_found _ _ body Hfound); [|reflexivity].
  f_equal. now apply trim_black.
Qed.

Lemma stripCodeFence_unwraps_witness :
  stripCodeFence
    ((str "Here is the patch:" ++ [NL])
     ++ fenced (str "diff") [NL]
          (str "@@ -1 +1 @@" ++ [CR; NL] ++ str "-a" ++ [CR; NL] ++ str "+b")
          [NL] ([NL] ++ str "Thanks!"))
  = str "@@ -1 +1 @@" ++ [NL] ++ str "-a" ++ [NL] ++ str "+b".
Proof.
  rewrite (stripCodeFence_unwraps (str "Here is the patch:" ++ [NL])
             (str "diff") [NL]
             (str "@@ -1 +1 @@" ++ [CR; NL] ++ str "-a" ++ [CR; NL] ++ str "+b")
             [NL] ([NL] ++ str "Thanks!"));
    try reflexivity.
  - simpl. intros H. repeat (destruct H as [H|H]; [discriminate|]). exact H.
  - now left.
  - simpl. intros H. repeat (destruct H as [H|H]; [discriminate|]). exact H.
Defined.

(** ** The target path *)

Lemma run_chr : forall f c p s g k,
  Pattern.run (Pattern.Chr f) (Pattern.mkState p (c :: s) g) k
  = if f c then k (Pattern.mkState (Some c) s g) else None.
Proof. reflexivity. Qed.

Lemma run_lit : forall c p s g k,
  Pattern.run (Pattern.lit c) (Pattern.mkState p (c :: s) g) k
  = k (Pattern.mkState (Some c) s g).
Proof.
  intros. unfold Pattern.lit. rewrite run_chr. now rewrite N.eqb_refl.
Qed.

(** [a+] over a class takes the whole run of the class, which must not be
    empty, when the match can go on from behind it. *)
Lemma run_plus_greedy : forall f w r p g k x,
  w <> [] -> forallb f w = true -> notAhead f r = true ->
  k (Pattern.mkState (behind p w) r g) = Some x ->
  Pattern.run (Pattern.plus (Pattern.Chr f)) (Pattern.mkState p (w ++ r) g) k
  = Some x.
Proof.
  intros f [|c w] r p g k x Hne Hw Hr Hk; [congruence|].
  cbn [forallb] in Hw. apply andb_true_iff in Hw as [Hc Hw].
  unfold Pattern.plus. rewrite run_seq. cbn [app]. rewrite run_chr, Hc.
  now apply run_star_greedy.
Qed.

Lemma behind_app : forall w1 w2 p,
  behind p (w1 ++ w2) = behind (behind p w1) w2.
Proof. induction w1 as [|c w1 IH]; intros; [reflexivity|apply IH]. Qed.

Lemma headerGap_spec : forall w,
  headerGap w = true -> w <> [] /\ forallb isWhiteSpace w = true.
Proof.
  intros w H. unfold headerGap in H. apply andb_true_iff in H as [H1 H2].
  split; [|exact H2]. intros ->. discriminate.
Qed.

Lemma headerName_spec : forall p,
  headerName p = true ->
  p <> [] /\ startsBlack p = true /\ forallb isDot p = true.
Proof.
  intros p H. unfold headerName in H. apply andb_true_iff in H as [H1 H2].
  repeat split; try assumption. intros ->. discriminate.
Qed.

Lemma notAhead_black : forall p r,
  p <> [] -> startsBlack p = true -> notAhead isWhiteSpace (p ++ r) = true.
Proof. intros [|c p] r Hne H; [congruence|exact H]. Qed.

Lemma notAhead_lineEnd : forall s,
  atLineEnd s = true -> notAhead isDot s = true.
Proof.
  intros [|c s] H; [reflexivity|]. cbn [atLineEnd] in H.
  cbn [notAhead]. unfold isDot. now rewrite H.
Qed.

(** The header pattern at the two header lines: the second group is the
    new name. *)
Lemma reTargetPath_here : forall gap1 oldName gap2 newName tail p,
  atLineStart p = true ->
  headerGap gap1 = true -> headerName oldName = true ->
  headerGap gap2 = true -> headerName newName = true ->
  atLineEnd tail = true ->
  Pattern.run reTargetPath
    (Pattern.mkState p (fileHeaders gap1 oldName gap2 newName ++ tail) [])
    Some
  = Some (Pattern.mkState (behind (Some PLUS) (gap2 ++ newName)) tail
            [(2, newName); (1, oldName)]).
Proof.
  intros gap1 oldName gap2 newName tail p Hp Hg1 Ho Hg2 Hn Htail.
  apply headerGap_spec in Hg1 as [Hg1 Hw1].
  apply headerGap_spec in Hg2 as [Hg2 Hw2].
  apply headerName_spec in Ho as (Ho & Hob & Hod).
  apply headerName_spec in Hn as (Hn & Hnb & Hnd).
  unfold reTargetPath, fileHeaders.
  rewrite run_seq, run_bol by exact Hp.
  rewrite <- !app_assoc.
  rewrite run_seq, run_word, expect_app.
  rewrite run_seq.
  apply run_plus_greedy; [exact Hg1|exact Hw1|now apply notAhead_black|].
  rewrite run_seq, run_group.
  apply run_plus_greedy; [exact Ho|exact Hod|reflexivity|].
  cbn [Pattern.rest Pattern.prev Pattern.caps].
  rewrite <- app_comm_cons, run_seq, run_lit.
  rewrite <- !app_assoc.
  rewrite run_seq, run_word, expect_app.
  rewrite run_seq.
  apply run_plus_greedy; [exact Hg2|exact Hw2|now apply notAhead_black|].
  rewrite run_seq, run_group.
  apply run_plus_greedy; [exact Hn|exact Hnd|now apply notAhead_lineEnd|].
  cbn [Pattern.rest Pattern.prev Pattern.caps].
  rewrite run_eol by exact Htail.
  rewrite firstn_front.
  change (oldName ++ NL :: str "+++" ++ gap2 ++ newName ++ tail)
    with (oldName ++ (NL :: str "+++" ++ gap2 ++ newName ++ tail)).
  rewrite firstn_front.
  do 2 f_equal. now rewrite behind_app.
Qed.

(** The header pattern needs three minus signs at a line start. *)
Lemma reTargetPath_needs_minus : forall p s g k,
  atLineStart p && startsWith (str "---") s = false ->
  Pattern.run reTargetPath (Pattern.mkState p s g) k = None.
Proof.
  intros p s g k H. unfold reTargetPath. rewrite run_seq.
  destruct (atLineStart p) eqn:Hp.
  - rewrite run_bol by exact Hp. rewrite run_seq, run_word.
    cbn [andb] in H. unfold startsWith in H.
    now destruct (expect (str "---") s).
  - destruct p as [c|]; [|discriminate].
    cbn [atLineStart] in Hp. cbn [Pattern.run Pattern.prev]. now rewrite Hp.
Qed.

Lemma noLineStartsWith_here : forall w pre1 c pre2 before,
  noLineStartsWith w (atLineStart before) (pre1 ++ c :: pre2) = true ->
  atLineStart (behind before pre1) && startsWith w (c :: pre2) = false.
Proof.
  intros w pre1. induction pre1 as [|a pre1 IH]; intros c pre2 before H.
  - cbn [app noLineStartsWith behind] in *.
    apply andb_true_iff in H as [H _]. now apply negb_true_iff in H.
  - cbn [app noLineStartsWith behind] in *.
    apply andb_true_iff in H as [_ H]. now apply (IH c pre2 (Some a)).
Qed.

Lemma behind_last : forall w p d,
  w <> [] -> behind p w = Some (last w d).
Proof.
  induction w as [|c w IH]; intros p d H; [congruence|].
  destruct w as [|c' w]; [reflexivity|].
  cbn [behind] in *. rewrite last_cons_more by discriminate.
  apply (IH (Some c) d). discriminate.
Qed.

Lemma lineTerminator_not_minus : forall c,
  isLineTerminator c = true -> (MINUS =? c)%N = false.
Proof.
  intros c H. unfold isLineTerminator in H.
  repeat (apply orb_true_iff in H as [H|H]);
    apply N.eqb_eq in H; subst c; reflexivity.
Qed.

(** Text that ends its line starts with three minus signs when it does so
    with more text behind it. *)
Lemma startsWith_minus_line : forall w s,
  w <> [] -> isLineTerminator (last w SPACE) = true ->
  startsWith (str "---") (w ++ s) = startsWith (str "---") w.
Proof.
  intros w s Hne Hlast. unfold startsWith.
  change (str "---") with [MINUS; MINUS; MINUS].
  destruct w as [|a [|b [|c w]]]; [congruence| | |];
    cbn [app expect last] in *.
  - now rewrite (lineTerminator_not_minus a Hlast).
  - rewrite (lineTerminator_not_minus b Hlast).
    now destruct (MINUS =? a)%N.
  - now destruct (MINUS =? a)%N, (MINUS =? b)%N, (MINUS =? c)%N.
Qed.

Lemma search_none : forall r s before,
  (forall pre1 pre2, s = pre1 ++ pre2 ->
     Pattern.run r (Pattern.mkState (behind before pre1) pre2 []) Some = None) ->
  Pattern.search r before s = None.
Proof.
  intros r s. induction s as [|c s IH]; intros before H.
  - pose proof (H [] [] eq_refl) as H0. cbn [behind] in H0.
    cbn [Pattern.search]. now rewrite H0.
  - pose proof (H [] (c :: s) eq_refl) as H0. cbn [behind] in H0.
    cbn [Pattern.search]. rewrite H0.
    apply IH. intros pre1 pre2 E. apply (H (c :: pre1) pre2). now rewrite E.
Qed.

(** X20. The target path is the new file's. When the diff holds, at a
    line start and behind text none of whose lines starts with three minus
    signs, the two header lines [--- old] and [+++ new], the second one
    running to the end of its line, [getDiffTargetPath] returns what
    [stripHeaderPath] makes of the trimmed new name; the old name plays no
    part. *)
Theorem getDiffTargetPath_new_name :
  forall pre gap1 oldName gap2 newName tail,
  noLineStartsWith (str "---") true pre = true ->
  atLineStart (behind None pre) = true ->
  headerGap gap1 = true -> headerName oldName = true ->
  headerGap gap2 = true -> headerName newName = true ->
  atLineEnd tail = true ->
  getDiffTargetPath (pre ++ fileHeaders gap1 oldName gap2 newName ++ tail)
  = Some (stripHeaderPath (trim newName)).
Proof.
  intros pre gap1 oldName gap2 newName tail Hpre Hbol Hg1 Ho Hg2 Hn Htail.
  unfold getDiffTargetPath. rewrite search_skip.
  - rewrite (search_here _ _ _ _
               (reTargetPath_here gap1 oldName gap2 newName tail
                  (behind None pre) Hbol Hg1 Ho Hg2 Hn Htail)).
    reflexivity.
  - intros pre1 pre2 E Hne. apply reTargetPath_needs_minus.
    destruct pre2 as [|c pre2]; [congruence|].
    rewrite startsWith_minus_line; [|discriminate|].
    + rewrite E in Hpre.
      exact (noLineStartsWith_here (str "---") pre1 c pre2 None Hpre).
    + rewrite E, behind_app in Hbol.
      rewrite (behind_last (c :: pre2) _ SPACE) in Hbol by discriminate.
      exact Hbol.
Qed.

Lemma getDiffTargetPath_new_name_witness :
  getDiffTargetPath
    ((str "diff --git a/x.ts b/x.ts" ++ [NL])
     ++ fileHeaders (str " ") (str "a/x.ts") (str " ")
          (str "b/src/new file.ts" ++ [TAB] ++ str "2024-01-01")
     ++ [NL] ++ str "@@ -1 +1 @@")
  = Some (str "src/new file.ts").
Proof.
  rewrite (getDiffTargetPath_new_name (str "diff --git a/x.ts b/x.ts" ++ [NL])
             (str " ") (str "a/x.ts") (str " ")
             (str "b/src/new file.ts" ++ [TAB] ++ str "2024-01-01")
             ([NL] ++ str "@@ -1 +1 @@"));
    reflexivity.
Defined.

Lemma reTargetPath_no_match : forall s,
  noLineStartsWith (str "---") true s = true ->
  Pattern.search reTargetPath None s = None.
Proof.
  intros s H. apply search_none.
  intros pre1 pre2 E. apply reTargetPath_needs_minus.
  destruct pre2 as [|c pre2].
  - apply andb_false_r.
  - rewrite E in H.
    exact (noLineStartsWith_here (str "---") pre1 c pre2 None H).
Qed.

(** X21. Without a line that starts with three minus signs there is no
    target path: [getDiffTargetPath] returns [undefined], as for a diff of
    hunks only whose removed lines do not start with two minus signs. *)
Theorem getDiffTargetPath_needs_header : forall s,
  noLineStartsWith (str "---") true s = true -> getDiffTargetPath s = None.
Proof.
  intros s H. unfold getDiffTargetPath.
  rewrite reTargetPath_no_match; [reflexivity|exact H].
Qed.

Lemma getDiffTargetPath_needs_header_witness :
  getDiffTargetPath (text ["@@ -1 +1 @@"; "-a"; "+--- a"; "++++ b"]) = None.
Proof.
  apply getDiffTargetPath_needs_header. reflexivity.
Defined.

(** ** The groups of a match

    A match is handed over by the continuation, with the groups closed on
    the way added to those of the start, so that a group which every way
    through the pattern passes is set in every match: [fence[1]] and
    [m[2]] are never [undefined] in the source. *)

Lemma extends_refl : forall st, extends st st.
Proof. intros st. now exists []. Qed.

Lemma extends_trans : forall st1 st2 st3,
  extends st1 st2 -> extends st2 st3 -> extends st1 st3.
Proof.
  intros st1 st2 st3 [m1 H1] [m2 H2]. exists (m1 ++ m2).
  now rewrite H1, H2, app_assoc.
Qed.

Lemma starLoop_result : forall body greedy k fuel st m,
  (forall st0 k0 m0, body st0 k0 = Some m0 ->
     exists st', k0 st' = Some m0 /\ extends st' st0) ->
  Pattern.starLoop body greedy k fuel st = Some m ->
  exists st', k st' = Some m /\ extends st' st.
Proof.
  intros body greedy k fuel. induction fuel as [|fuel IH]; intros st m Hbody H.
  - exists st. split; [exact H|apply extends_refl].
  - cbn [Pattern.starLoop] in H.
    assert (Hmore : forall m0,
              body st (fun st' =>
                if (length (Pattern.rest st') <? length (Pattern.rest st))%nat
                then Pattern.starLoop body greedy k fuel st' else None)
              = Some m0 ->
              exists st', k st' = Some m0 /\ extends st' st).
    { intros m0 H0. apply Hbody in H0 as (st' & H0 & Hext).
      destruct (length (Pattern.rest st') <? length (Pattern.rest st))%nat;
        [|discriminate].
      apply (IH st') in H0 as (st'' & H0 & Hext'); [|exact Hbody].
      exists st''. split; [exact H0|]. now apply (extends_trans _ st'). }
    destruct greedy; unfold Pattern.orElse in H.
    + destruct (body st _) as [m0|] eqn:E.
      * injection H as <-. now apply Hmore.
      * exists st. split; [exact H|apply extends_refl].
    + destruct (k st) as [m0|] eqn:E.
      * injection H as <-. exists st. split; [exact E|apply extends_refl].
      * now apply Hmore.
Qed.

Lemma run_result : forall r st k m,
  Pattern.run r st k = Some m ->
  exists st', k st' = Some m /\ extends st' st.
Proof.
  induction r as [| f | a IHa b IHb | a IHa b IHb | greedy a IHa | n a IHa | |];
    intros st k m H; cbn [Pattern.run] in H.
  - exists st. split; [exact H|apply extends_refl].
  - destruct (Pattern.rest st) as [|c s]; [discriminate|].
    destruct (f c); [|discriminate].
    eexists. split; [exact H|]. now exists [].
  - apply IHa in H as (st' & H & Hext). apply IHb in H as (st'' & H & Hext').
    exists st''. split; [exact H|]. now apply (extends_trans _ st').
  - unfold Pattern.orElse in H. destruct (Pattern.run a st k) eqn:E.
    + injection H as <-. now apply IHa in E.
    + now apply IHb in H.
  - apply starLoop_result in H; [exact H|]. intros st0 k0 m0. apply IHa.
  - apply IHa in H as (st' & H & [more Hext]).
    eexists. split; [exact H|]. cbn [Pattern.caps].
    eexists (_ :: more). now rewrite Hext.
  - destruct (Pattern.prev st) as [c|].
    + destruct (isLineTerminator c); [|discriminate].
      exists st. split; [exact H|apply extends_refl].
    + exists st. split; [exact H|apply extends_refl].
  - destruct (Pattern.rest st) as [|c s].
    + exists st. split; [exact H|apply extends_refl].
    + destruct (isLineTerminator c); [|discriminate].
      exists st. split; [exact H|apply extends_refl].
Qed.

Lemma search_result : forall r s before m,
  Pattern.search r before s = Some m ->
  exists p s', Pattern.run r (Pattern.mkState p s' []) Some = Some m.
Proof.
  intros r s. induction s as [|c s IH]; intros before m H;
    cbn [Pattern.search] in H.
  - destruct (Pattern.run r (Pattern.mkState before [] []) Some) eqn:E;
      [|discriminate].
    injection H as <-. eauto.
  - destruct (Pattern.run r (Pattern.mkState before (c :: s) []) Some) eqn:E.
    + injection H as <-. eauto.
    + now apply IH in H.
Qed.

Lemma group_extends : forall n more text groups,
  exists text', Pattern.group n (more ++ (n, text) :: groups) = Some text'.
Proof.
  intros n more text groups. induction more as [|[i t] more IH].
  - cbn [app Pattern.group]. rewrite Nat.eqb_refl. eauto.
  - cbn [app Pattern.group]. destruct (i =? n)%nat; eauto.
Qed.

(** A group of the pattern is set in a match that passes it. *)
Lemma group_passed : forall n a b st m,
  Pattern.run (Pattern.Seq (Pattern.Group n a) b) st Some = Some m ->
  exists text, Pattern.group n (Pattern.caps m) = Some text.
Proof.
  intros n a b st m H. rewrite run_seq, run_group in H.
  apply run_result in H as (st' & H & _).
  apply run_result in H as (st'' & H & [more Hext]).
  injection H as <-. rewrite Hext. cbn [Pattern.caps]. apply group_extends.
Qed.

Lemma reFence_group : forall s before m,
  Pattern.search reFence before s = Some m ->
  exists text, Pattern.group 1 (Pattern.caps m) = Some text.
Proof.
  intros s before m H. apply search_result in H as (p & s' & H).
  unfold reFence in H.
  do 4 (rewrite run_seq in H; apply run_result in H as (? & H & _)).
  now apply group_passed in H.
Qed.

Lemma reTargetPath_group : forall s before m,
  Pattern.search reTargetPath before s = Some m ->
  exists text, Pattern.group 2 (Pattern.caps m) = Some text.
Proof.
  intros s before m H. apply search_result in H as (p & s' & H).
  unfold reTargetPath in H.
  do 7 (rewrite run_seq in H; apply run_result in H as (? & H & _)).
  now apply group_passed in H.
Qed.

(* ====================================================================== *)
(** * The command *)
(* ====================================================================== *)

Lemma endsWith_spec : forall s t,
  endsWith s t = true <-> exists front, s = front ++ t.
Proof.
  intros s t. unfold endsWith. split.
  - intros H. apply andb_true_iff in H as [Hlen H].
    apply strictEq_eq in H. remember (length s - length t) as n.
    exists (firstn n s). rewrite <- H. symmetry. apply firstn_skipn.
  - intros [front ->]. rewrite length_app. apply andb_true_iff. split.
    + apply Nat.leb_le. lia.
    + rewrite Nat.add_sub, skipn_app, Nat.sub_diag, skipn_all.
      now apply strictEq_eq.
Qed.

Lemma dropWord_suffix : forall w s, exists front, s = front ++ dropWord w s.
Proof.
  intros w s. unfold dropWord. destruct (expect w s) as [r|] eqn:E.
  - apply expect_Some in E. now exists w.
  - now exists [].
Qed.

Lemma endsWith_dropWord : forall s w t,
  endsWith s t = true -> endsWith s (dropWord w t) = true.
Proof.
  intros s w t H. apply endsWith_spec in H as [front ->].
  destruct (dropWord_suffix w t) as [front' E].
  apply endsWith_spec. exists (front ++ front').
  rewrite E at 1. now rewrite app_assoc.
Qed.

(** What [parseHunks] and [applyDiffPatch] throw. *)
Lemma parseParts_Throw : forall parts hunks message,
  parseParts parts hunks = Throw message ->
  exists raw, In raw parts /\ message = invalidHunkHeader (headerOf raw).
Proof.
  induction parts as [|raw parts IH]; intros hunks message H;
    cbn [parseParts] in H; [discriminate|].
  destruct (parseHunk raw) as [hunk|m] eqn:E.
  - apply IH in H as (raw' & Hin & ->). exists raw'. split; [now right|easy].
  - injection H as <-. exists raw. split; [now left|].
    unfold parseHunk in E. fold (headerOf raw) in E.
    destruct (matchHeader (headerOf raw)) as [[[[m1 m2] m3] m4]|];
      congruence.
Qed.

Lemma applyHunks_Throw_message : forall hunks doc cursor message,
  applyHunks hunks doc cursor = Throw message ->
  exists hunk, In hunk hunks /\ message = couldNotApplyHunk (header hunk).
Proof.
  induction hunks as [|hunk hunks IH]; intros doc cursor message H;
    cbn [applyHunks] in H; [discriminate|].
  destruct (applySingleHunk doc hunk cursor) as [res|].
  - apply IH in H as (h & Hin & ->). exists h. split; [now right|easy].
  - injection H as <-. exists hunk. split; [now left|easy].
Qed.

Lemma applyDiffPatch_Throw : forall documentContent rawDiff eol message,
  applyDiffPatch documentContent rawDiff eol = Throw message ->
  (exists raw, In raw (hunkParts (normalizeEOL rawDiff))
               /\ message = invalidHunkHeader (headerOf raw))
  \/ (exists hunks hunk, parseHunks (normalizeEOL rawDiff) = Ok hunks
                         /\ In hunk hunks
                         /\ message = couldNotApplyHunk (header hunk)).
Proof.
  intros documentContent rawDiff eol message H. unfold applyDiffPatch in H.
  destruct (parseHunks (normalizeEOL rawDiff)) as [hunks|m] eqn:E.
  - right. destruct (length hunks =? 0)%nat; [discriminate|].
    destruct (applyHunks hunks (normalizeEOL documentContent) 0)
      as [[doc cursor]|m] eqn:E'; [discriminate|].
    injection H as <-. apply applyHunks_Throw_message in E' as (h & Hin & ->).
    now exists hunks, h.
  - left. injection H as <-. unfold parseHunks in E.
    now apply parseParts_Throw in E.
Qed.

Lemma errorText_thrown : forall documentContent rawDiff eol message,
  applyDiffPatch documentContent rawDiff eol = Throw message ->
  errorText message = message.
Proof.
  intros documentContent rawDiff eol message H.
  apply applyDiffPatch_Throw in H as [(raw & _ & ->)|(hs & h & _ & _ & ->)];
    reflexivity.
Qed.

(** The dry run and the edit: no question is asked, and an edit is the one
    of the patched text. *)
Lemma asked_dryRunAndEdit : forall answers doc stripped,
  asked (dryRunAndEdit answers doc stripped) = false.
Proof.
  intros answers doc stripped. unfold dryRunAndEdit.
  destruct (applyDiffPatch _ _ _) as [patched|message]; [|reflexivity].
  destruct (strictEq patched (Vscode.getText doc)); [reflexivity|].
  now destruct (Vscode.applied answers).
Qed.

Lemma edits_dryRunAndEdit : forall answers doc stripped,
  edits (dryRunAndEdit answers doc stripped) = []
  \/ exists patched,
       edits (dryRunAndEdit answers doc stripped)
       = [(0, length (Vscode.getText doc), patched)]
       /\ applyDiffPatch (Vscode.getText doc) stripped (Vscode.eol doc)
          = Ok patched
       /\ patched <> Vscode.getText doc.
Proof.
  intros answers doc stripped. unfold dryRunAndEdit.
  destruct (applyDiffPatch _ _ _) as [patched|message]; [|now left].
  destruct (strictEq patched (Vscode.getText doc)) eqn:E; [now left|].
  right. exists patched. repeat split.
  - now destruct (Vscode.applied answers).
  - intros Heq. apply strictEq_eq in Heq. congruence.
Qed.

(** X22. The command edits the document at most once, and only with the
    outcome of the dry run: in every run there is no edit, or there is an
    active editor, the stripped clipboard passed [isLikelyUnifiedDiff],
    [applyDiffPatch] returned a text that differs from the document's, and
    the one edit replaces the whole document by that text; if the user was
    asked about the path, they chose [Apply]. *)
Theorem command_edits_once_with_patch : forall answers,
  edits (applyDiffPatchFromClipboard answers) = []
  \/ exists doc patched,
       Vscode.activeTextEditor answers = Some doc
       /\ edits (applyDiffPatchFromClipboard answers)
          = [(0, length (Vscode.getText doc), patched)]
       /\ isLikelyUnifiedDiff (stripCodeFence (Vscode.readText answers)) = true
       /\ applyDiffPatch (Vscode.getText doc)
            (stripCodeFence (Vscode.readText answers)) (Vscode.eol doc)
          = Ok patched
       /\ patched <> Vscode.getText doc
       /\ (asked (applyDiffPatchFromClipboard answers) = true ->
           Vscode.choice answers = Some (str "Apply")).
Proof.
  intros answers. unfold applyDiffPatchFromClipboard.
  destruct (Vscode.activeTextEditor answers) as [doc|]; [|now left].
  set (stripped := stripCodeFence (Vscode.readText answers)).
  cbv zeta. destruct (isLikelyUnifiedDiff stripped) eqn:Hdiff; [|now left].
  cbn [negb].
  assert (Hrun : forall calls,
            calls = dryRunAndEdit answers doc stripped ->
            edits calls = []
            \/ exists doc0 patched,
                 Some doc = Some doc0
                 /\ edits calls = [(0, length (Vscode.getText doc0), patched)]
                 /\ true = true
                 /\ applyDiffPatch (Vscode.getText doc0) stripped
                      (Vscode.eol doc0) = Ok patched
                 /\ patched <> Vscode.getText doc0
                 /\ (asked calls = true ->
                     Vscode.choice answers = Some (str "Apply"))).
  { intros calls ->.
    destruct (edits_dryRunAndEdit answers doc stripped)
      as [H|(patched & H1 & H2 & H3)]; [now left|].
    right. exists doc, patched. repeat split; try assumption.
    rewrite asked_dryRunAndEdit. discriminate. }
  destruct (getDiffTargetPath stripped) as [[|c p]|]; try now apply Hrun.
  destruct (endsWith _ _); [now apply Hrun|].
  destruct (Vscode.choice answers) as [picked|]; [|now left].
  destruct (strictEq picked (str "Apply")) eqn:Hpick; [|now left].
  apply strictEq_eq in Hpick. subst picked.
  destruct (edits_dryRunAndEdit answers doc stripped)
    as [H|(patched & H1 & H2 & H3)]; [now left|].
  right. exists doc, patched. repeat split; assumption.
Qed.

(** X23. No question when the path fits. When the path that
    [getDiffTargetPath] finds in the stripped clipboard is the end of the
    active file's path, backslashes read as slashes, the command does not
    ask: the run is the dry run and the edit, whatever the user would
    answer. The check drops an [a/] and a [b/] once more, which only
    makes it pass more often. *)
Theorem fitting_path_not_asked : forall answers doc headerPath,
  Vscode.activeTextEditor answers = Some doc ->
  isLikelyUnifiedDiff (stripCodeFence (Vscode.readText answers)) = true ->
  getDiffTargetPath (stripCodeFence (Vscode.readText answers))
  = Some headerPath ->
  endsWith (toSlashes (Vscode.fsPath doc)) headerPath = true ->
  applyDiffPatchFromClipboard answers
  = dryRunAndEdit answers doc (stripCodeFence (Vscode.readText answers))
  /\ asked (applyDiffPatchFromClipboard answers) = false.
Proof.
  intros answers doc headerPath Hdoc Hdiff Hpath Hends.
  assert (E : applyDiffPatchFromClipboard answers
              = dryRunAndEdit answers doc
                  (stripCodeFence (Vscode.readText answers))).
  { unfold applyDiffPatchFromClipboard. rewrite Hdoc. cbv zeta.
    rewrite Hdiff, Hpath. cbn [negb].
    destruct headerPath as [|c p]; [reflexivity|].
    now rewrite (endsWith_dropWord _ (str "b/") _
                   (endsWith_dropWord _ (str "a/") _ Hends)). }
  split; [exact E|]. rewrite E. apply asked_dryRunAndEdit.
Qed.

Lemma fitting_path_not_asked_witness :
  asked
    (applyDiffPatchFromClipboard
       (Vscode.mkAnswers
          (Some (Vscode.mkTextDocument (str "C:\proj\src\x.ts")
                   (text ["a"; "c"]) CRLF))
          (text ["--- a/src/x.ts"; "+++ b/src/x.ts"; "@@ -1 +1 @@"; "-a"; "+b"])
          None true))
  = false.
Proof.
  apply (fitting_path_not_asked
           (Vscode.mkAnswers
              (Some (Vscode.mkTextDocument (str "C:\proj\src\x.ts")
                       (text ["a"; "c"]) CRLF))
              (text ["--- a/src/x.ts"; "+++ b/src/x.ts"; "@@ -1 +1 @@";
                     "-a"; "+b"])
              None true)
           (Vscode.mkTextDocument (str "C:\proj\src\x.ts")
              (text ["a"; "c"]) CRLF)
           (str "src/x.ts"));
    reflexivity.
Defined.

(** X24. From the chat to the document. When the clipboard holds a
    fenced block, with prose around it, whose body is a diff without file
    header lines that [applyDiffPatch] applies to the active document with
    a text that differs from the document's, the command asks nothing and
    makes one edit, which replaces the whole document by that text; then
    it reports what [applyEdit] answered. *)
Theorem fenced_diff_applied :
  forall answers doc front lang ws1 body ws2 tail patched,
  Vscode.activeTextEditor answers = Some doc ->
  Vscode.readText answers = front ++ fenced lang ws1 body ws2 tail ->
  FencedBlock front lang ws1 body ws2 tail ->
  isLikelyUnifiedDiff (normalizeEOL body) = true ->
  noLineStartsWith (str "---") true (normalizeEOL body) = true ->
  applyDiffPatch (Vscode.getText doc) (normalizeEOL body) (Vscode.eol doc)
  = Ok patched ->
  patched <> Vscode.getText doc ->
  applyDiffPatchFromClipboard answers
  = [Vscode.applyEdit 0 (length (Vscode.getText doc)) patched;
     if Vscode.applied answers
     then Vscode.showInformationMessage
            (str "Diff patch applied successfully from the clipboard.")
     else Vscode.showErrorMessage (str "Failed to apply edit.")].
Proof.
  intros answers doc front lang ws1 body ws2 tail patched Hdoc Hclip
    (H1 & H2 & H3 & H4 & H5 & H6 & H7 & H8 & H9) Hdiff Hplain Hpatch Hnew.
  pose proof (reFence_finds_block front lang ws1 body ws2 tail
                H1 H2 H3 H4 H5 H6 H7 H8 H9) as Hfound.
  unfold applyDiffPatchFromClipboard. rewrite Hdoc, Hclip. cbv zeta.
  rewrite (stripCodeFence_found _ _ body Hfound) by reflexivity.
  rewrite trim_black, Hdiff by assumption. cbn [negb].
  unfold getDiffTargetPath. rewrite reTargetPath_no_match by exact Hplain.
  unfold dryRunAndEdit. rewrite Hpatch.
  destruct (strictEq patched (Vscode.getText doc)) eqn:E; [|reflexivity].
  apply strictEq_eq in E. contradiction.
Qed.

Lemma fenced_diff_applied_witness :
  applyDiffPatchFromClipboard
    (Vscode.mkAnswers
       (Some (Vscode.mkTextDocument (str "/proj/x.ts")
                (str "a" ++ [CR; NL] ++ str "c") CRLF))
       ((str "Try this:" ++ [NL])
        ++ fenced (str "diff") [NL] (text ["@@ -1 +1 @@"; "-a"; "+b"]) [NL]
             ([NL] ++ str "Does it help?"))
       None true)
  = [Vscode.applyEdit 0 4 (str "b" ++ [CR; NL] ++ str "c");
     Vscode.showInformationMessage
       (str "Diff patch applied successfully from the clipboard.")].
Proof.
  apply (fenced_diff_applied
           (Vscode.mkAnswers
              (Some (Vscode.mkTextDocument (str "/proj/x.ts")
                       (str "a" ++ [CR; NL] ++ str "c") CRLF))
              ((str "Try this:" ++ [NL])
               ++ fenced (str "diff") [NL] (text ["@@ -1 +1 @@"; "-a"; "+b"])
                    [NL] ([NL] ++ str "Does it help?"))
              None true)
           (Vscode.mkTextDocument (str "/proj/x.ts")
              (str "a" ++ [CR; NL] ++ str "c") CRLF)
           (str "Try this:" ++ [NL]) (str "diff") [NL]
           (text ["@@ -1 +1 @@"; "-a"; "+b"]) [NL]
           ([NL] ++ str "Does it help?")
           (str "b" ++ [CR; NL] ++ str "c"));
    try reflexivity.
  - unfold FencedBlock. repeat split; try reflexivity.
    + simpl. intros H. repeat (destruct H as [H|H]; [discriminate|]). exact H.
    + now left.
    + simpl. intros H. repeat (destruct H as [H|H]; [discriminate|]). exact H.
  - discriminate.
Defined.

Lemma parseHunk_header : forall raw hunk,
  parseHunk raw = Ok hunk -> header hunk = headerOf raw.
Proof.
  intros raw hunk H. unfold parseHunk in H. fold (headerOf raw) in H.
  destruct (matchHeader (headerOf raw)) as [[[[m1 m2] m3] m4]|];
    [|discriminate].
  injection H as <-. reflexivity.
Qed.

Lemma parseParts_headers : forall parts hunks parsed hunk,
  parseParts parts hunks = Ok parsed -> In hunk parsed ->
  In hunk hunks \/ exists raw, In raw parts /\ header hunk = headerOf raw.
Proof.
  induction parts as [|raw parts IH]; intros hunks parsed hunk H Hin;
    cbn [parseParts] in H.
  - injection H as <-. now left.
  - destruct (parseHunk raw) as [h|m] eqn:E; [|discriminate].
    destruct (IH _ _ _ H Hin) as [Hacc|(raw' & Hraw & Hh)].
    + apply in_app_or in Hacc as [Hacc|[<-|[]]]; [now left|].
      right. exists raw. split; [now left|now apply parseHunk_header].
    + right. exists raw'. split; [now right|exact Hh].
Qed.

(** An error of the patch names the header line of a block of the
    diff. *)
Lemma applyDiffPatch_Throw_header : forall documentContent rawDiff eol message,
  applyDiffPatch documentContent rawDiff eol = Throw message ->
  exists raw,
    In raw (hunkParts (normalizeEOL rawDiff))
    /\ (message = invalidHunkHeader (headerOf raw)
        \/ message = couldNotApplyHunk (headerOf raw)).
Proof.
  intros documentContent rawDiff eol message H.
  apply applyDiffPatch_Throw in H
    as [(raw & Hin & ->)|(hunks & hunk & Hparse & Hin & ->)].
  - exists raw. split; [exact Hin|now left].
  - unfold parseHunks in Hparse.
    destruct (parseParts_headers _ _ _ _ Hparse Hin) as [[]|(raw & Hraw & ->)].
    exists raw. split; [exact Hraw|now right].
Qed.

Lemma errors_dryRunAndEdit : forall answers doc stripped message,
  In message (errorsShown (dryRunAndEdit answers doc stripped)) ->
  message = str "Failed to apply edit."
  \/ (edits (dryRunAndEdit answers doc stripped) = []
      /\ exists raw,
           In raw (hunkParts (normalizeEOL stripped))
           /\ (message
               = str "Failed to apply diff patch from the clipboard: "
                 ++ invalidHunkHeader (headerOf raw)
               \/ message
                  = str "Failed to apply diff patch from the clipboard: "
                    ++ couldNotApplyHunk (headerOf raw))).
Proof.
  intros answers doc stripped message. unfold dryRunAndEdit.
  destruct (applyDiffPatch _ _ _) as [patched|thrown] eqn:E.
  - destruct (strictEq patched (Vscode.getText doc)); [intros []|].
    destruct (Vscode.applied answers); cbn; [intros []|].
    intros [<-|[]]. now left.
  - rewrite (errorText_thrown _ _ _ _ E). cbn. intros [<-|[]]. right.
    split; [reflexivity|].
    apply applyDiffPatch_Throw_header in E as (raw & Hin & [->| ->]);
      exists raw; (split; [exact Hin|]); [now left|now right].
Qed.

(** X25. The errors shown. An error message of the command is
    [Failed to apply edit.], or it is
    [Failed to apply diff patch from the clipboard: ] followed by
    [Invalid hunk header: ] or by [Could not apply hunk:] and a line feed,
    and then the header line of a block of the stripped diff; in the
    latter cases the run made no edit. The fallback [String(err)] is never
    shown for what the patch throws. *)
Theorem shown_error_names_the_hunk : forall answers message,
  In message (errorsShown (applyDiffPatchFromClipboard answers)) ->
  message = str "Failed to apply edit."
  \/ (edits (applyDiffPatchFromClipboard answers) = []
      /\ exists raw,
           In raw (hunkParts
                     (normalizeEOL (stripCodeFence (Vscode.readText answers))))
           /\ (message
               = str "Failed to apply diff patch from the clipboard: "
                 ++ invalidHunkHeader (headerOf raw)
               \/ message
                  = str "Failed to apply diff patch from the clipboard: "
                    ++ couldNotApplyHunk (headerOf raw))).
Proof.
  intros answers message. unfold applyDiffPatchFromClipboard.
  destruct (Vscode.activeTextEditor answers) as [doc|]; [|intros []].
  cbv zeta.
  destruct (isLikelyUnifiedDiff _); cbn [negb]; [|intros []].
  destruct (getDiffTargetPath _) as [[|c p]|];
    try apply errors_dryRunAndEdit.
  destruct (endsWith _ _); [apply errors_dryRunAndEdit|].
  destruct (Vscode.choice answers) as [picked|]; [|intros []].
  destruct (strictEq picked (str "Apply")); [|intros []].
  apply errors_dryRunAndEdit.
Qed.

Lemma shown_error_names_the_hunk_witness :
  str "Failed to apply diff patch from the clipboard: Invalid hunk header: @@ -1 @@"
  = str "Failed to apply edit."
  \/ (edits
        (applyDiffPatchFromClipboard
           (Vscode.mkAnswers
              (Some (Vscode.mkTextDocument (str "/proj/x.ts") (str "a") LF))
              (text ["@@ -1 @@"; "-a"; "+b"]) None true))
      = []
      /\ exists raw,
           In raw (hunkParts
                     (normalizeEOL
                        (stripCodeFence (text ["@@ -1 @@"; "-a"; "+b"]))))
           /\ (str "Failed to apply diff patch from the clipboard: Invalid hunk header: @@ -1 @@"
               = str "Failed to apply diff patch from the clipboard: "
                 ++ invalidHunkHeader (headerOf raw)
               \/ str "Failed to apply diff patch from the clipboard: Invalid hunk header: @@ -1 @@"
                  = str "Failed to apply diff patch from the clipboard: "
                    ++ couldNotApplyHunk (headerOf raw))).
Proof.
  apply (shown_error_names_the_hunk
           (Vscode.mkAnswers
              (Some (Vscode.mkTextDocument (str "/proj/x.ts") (str "a") LF))
              (text ["@@ -1 @@"; "-a"; "+b"]) None true)).
  cbn. now left.
Defined.

(** ** White space around the diff *)

Lemma trimStart_white : forall ws s,
  forallb isWhiteSpace ws = true -> trimStart (ws ++ s) = trimStart s.
Proof.
  induction ws as [|c ws IH]; intros s H; [reflexivity|].
  cbn [forallb] in H. apply andb_true_iff in H as [Hc H].
  cbn [app trimStart]. rewrite Hc. now apply IH.
Qed.

Lemma trimStart_keeps_black : forall u c v,
  isWhiteSpace c = false -> exists u', trimStart (u ++ c :: v) = u' ++ c :: v.
Proof.
  induction u as [|x u IH]; intros c v Hc.
  - exists []. cbn [app trimStart]. now rewrite Hc.
  - cbn [app trimStart]. destruct (isWhiteSpace x).
    + now apply IH.
    + now exists (x :: u).
Qed.

(** Trimming the end leaves the text up to a code unit that is not white
    space. *)
Lemma trimEnd_keeps_front : forall a c rest,
  isWhiteSpace c = false ->
  exists rest', trimEnd (a ++ c :: rest) = a ++ c :: rest'.
Proof.
  intros a c rest Hc. unfold trimEnd.
  rewrite rev_app_distr. cbn [rev]. rewrite <- app_assoc. cbn [app].
  destruct (trimStart_keeps_black (rev rest) c (rev a) Hc) as (u' & ->).
  exists (rev u').
  rewrite rev_app_distr. cbn [rev]. rewrite rev_involutive, <- app_assoc.
  reflexivity.
Qed.

Lemma white_not_backtick : forall ws,
  forallb isWhiteSpace ws = true -> ~ In BACKTICK ws.
Proof.
  intros ws H Hin. rewrite forallb_forall in H. now apply H in Hin.
Qed.

Lemma normalizeEOL_cons_plain : forall c s,
  c <> CR -> normalizeEOL (c :: s) = c :: normalizeEOL s.
Proof.
  intros c [|d rest] H; [reflexivity|].
  rewrite normalizeEOL_cons2. apply N.eqb_neq in H. now rewrite H.
Qed.

(** The start of a hunk header stays in front when the text is trimmed
    and normalised. *)
Lemma hunk_start_kept : forall ws gap rest,
  forallb isWhiteSpace ws = true ->
  exists rest',
    normalizeEOL (trim (ws ++ str "@@" ++ gap :: MINUS :: rest))
    = str "@@" ++ gap :: MINUS :: rest'.
Proof.
  intros ws gap rest Hws. unfold trim.
  rewrite trimStart_white by exact Hws.
  rewrite trimStart_black by reflexivity.
  destruct (trimEnd_keeps_front (str "@@" ++ [gap]) MINUS rest eq_refl)
    as (rest' & Ht).
  change (trimEnd (str "@@" ++ gap :: MINUS :: rest))
    with (trimEnd ((str "@@" ++ [gap]) ++ MINUS :: rest)).
  rewrite Ht. exists (normalizeEOL rest').
  change ((str "@@" ++ [gap]) ++ MINUS :: rest')
    with (AT :: AT :: gap :: MINUS :: rest').
  rewrite !normalizeEOL_cons_plain by discriminate.
  rewrite normalizeEOL_cons_other by (intros d r [= <- _]; discriminate).
  now rewrite normalizeEOL_cons_plain by discriminate.
Qed.

(** X26. White space around a diff on the clipboard does no harm: a text
    without backticks that starts, behind any white space, with [@@], one
    white-space code unit and a minus sign passes [isLikelyUnifiedDiff]
    once [stripCodeFence] has stripped it, since the strip brings the
    hunk header to index 0. *)
Theorem blank_lines_before_diff : forall ws gap rest,
  forallb isWhiteSpace ws = true -> isWhiteSpace gap = true ->
  ~ In BACKTICK rest ->
  isLikelyUnifiedDiff (stripCodeFence (ws ++ str "@@" ++ gap :: MINUS :: rest))
  = true.
Proof.
  intros ws gap rest Hws Hgap Hrest.
  assert (Hstrip : exists rest',
            stripCodeFence (ws ++ str "@@" ++ gap :: MINUS :: rest)
            = str "@@" ++ gap :: MINUS :: rest').
  { unfold stripCodeFence.
    destruct (ws ++ str "@@" ++ gap :: MINUS :: rest) as [|c0 s0] eqn:E.
    { apply app_eq_nil in E as [_ E]. discriminate. }
    rewrite <- E. rewrite search_no_backtick.
    - now apply hunk_start_kept.
    - intros Hin. apply in_app_or in Hin as [Hin|Hin].
      + now apply (white_not_backtick ws Hws).
      + cbn [app str In] in Hin.
        destruct Hin as [Hin|[Hin|[Hin|[Hin|Hin]]]];
          try discriminate; [|contradiction].
        subst gap. discriminate. }
  destruct Hstrip as (rest' & ->).
  apply isLikelyUnifiedDiff_spec. split; [discriminate|]. left.
  exists (str "@@" ++ [gap; MINUS]), rest'. split; [reflexivity|].
  unfold reHunkStart. apply regex_Seq_inv.
  exists (str "@@"), [gap; MINUS]. repeat split.
  - now apply regex_word.
  - apply regex_Seq_inv. exists [gap], [MINUS]. repeat split.
    + now constructor.
    + constructor. apply N.eqb_refl.
Qed.

Lemma blank_lines_before_diff_witness :
  isLikelyUnifiedDiff
    (stripCodeFence
       ([NL; NL] ++ str "@@" ++ SPACE :: MINUS :: str "1 +1 @@" ++ [NL]))
  = true.
Proof.
  apply (blank_lines_before_diff [NL; NL] SPACE (str "1 +1 @@" ++ [NL]));
    try reflexivity.
  simpl. intros H. repeat (destruct H as [H|H]; [discriminate|]). exact H.
Defined.
